(** * Kakoune normal-mode commands: selections, regex prompts, paste, macros,
      undo/redo and the word database.

    A shallow embedding of [src/normal.cc], [src/word_db.hh] and
    [src/utf8_iterator.hh].  Commands
    that run inside a context are state transformers which may throw.  The
    collaborators whose code lives in other translation units (buffer, regex
    engine, shell, registers) are the methods of a class per module, so that
    every statement holds for whatever they do.

    Part I is the embedding, Part II the properties. *)

From Stdlib Require Import ZArith List String Ascii Bool Lia.
From Stdlib Require Import Sorting.Sorted.
From stdpp Require Import base option list gmap strings.

Import ListNotations.

(** ** Exceptions

    The three exception classes the handlers of [regex_prompt] tell apart,
    in the order of its [catch] clauses.  An exception of another class,
    which none of the clauses catches, is not modelled. *)

Inductive exn : Type :=
| RegexError (what : string)          (* thrown when a pattern fails to compile *)
| std_runtime_error (what : string)   (* std::runtime_error, raised by the matcher *)
| runtime_error (what : string).      (* Kakoune's own runtime_error *)

Inductive outcome (A : Type) : Type :=
| Return (a : A)
| Throw (e : exn).

Arguments Return {A} a.
Arguments Throw {A} e.

(** do { body } while (--count > 0): the body runs once, then once more for
    every decrement that leaves [count] positive. *)
Definition extra_rounds (count : Z) : nat := Z.to_nat (count - 1).

(* ################################################################## *)
(** * Part I: the embedding *)
(* ################################################################## *)

(* ================================================================== *)
(** ** Selections and the [select] envelope *)
(* ================================================================== *)

Module Selections.

Record ByteCoord : Type := mkCoord { line : Z; column : Z }.

(** ByteCoord's operator<: lines first, then columns. *)
Definition coord_ltb (a b : ByteCoord) : bool :=
  (line a <? line b)%Z || ((line a =? line b)%Z && (column a <? column b)%Z).

Definition coord_leb (a b : ByteCoord) : bool := negb (coord_ltb b a).

Definition coord_min (a b : ByteCoord) : ByteCoord := if coord_ltb b a then b else a.
Definition coord_max (a b : ByteCoord) : ByteCoord := if coord_ltb a b then b else a.

Record Selection : Type :=
  mkSel { anchor : ByteCoord; cursor : ByteCoord; captures : list string }.

(** Selection::min() and Selection::max(): the ordered end points,
    whatever the direction. *)
Definition sel_min (s : Selection) : ByteCoord :=
  if coord_ltb (anchor s) (cursor s) then anchor s else cursor s.
Definition sel_max (s : Selection) : ByteCoord :=
  if coord_ltb (anchor s) (cursor s) then cursor s else anchor s.

Record SelectionList : Type :=
  mkList { selections : list Selection; main_index : nat }.

Definition size (l : SelectionList) : nat := length (selections l).

Definition default_selection : Selection :=
  {| anchor := mkCoord 0 0; cursor := mkCoord 0 0; captures := [] |}.

(** selections.main() *)
Definition main (l : SelectionList) : Selection :=
  nth (main_index l) (selections l) default_selection.

Definition push_back (s : Selection) (l : SelectionList) : SelectionList :=
  {| selections := selections l ++ [s]; main_index := main_index l |}.

Definition set_main_index (i : nat) (l : SelectionList) : SelectionList :=
  {| selections := selections l; main_index := i |}.

Definition set_captures (c : list string) (s : Selection) : Selection :=
  {| anchor := anchor s; cursor := cursor s; captures := c |}.

(** Modelled from the spec: Selection::merge_with, declared in selection.hh
    which is not among the sources.  Section 4.2 (Extend): the cursor moves
    to the cursor of the computed selection and the range is extended, not
    replaced: a selection running forward to the new cursor keeps the
    smaller of the two anchors, one running backward the larger. *)
Definition merge_with (sel res : Selection) : Selection :=
  let c := cursor res in
  let a := anchor sel in
  let a1 := if coord_ltb a c then coord_min a (anchor res) else a in
  let a2 := if coord_ltb c a1 then coord_max a1 (anchor res) else a1 in
  {| anchor := a2; cursor := c; captures := captures sel |}.

(** Two selections overlap when their inclusive ranges share a position
    (touching ranges included). *)
Definition overlaps (a b : Selection) : bool :=
  coord_leb (sel_min a) (sel_max b) && coord_leb (sel_min b) (sel_max a).

(** Modelled from the spec: the merge of two overlapping selections inside
    sort_and_merge_overlapping (selection_list.cc is not among the sources).
    Section 3, invariant 3: the merge keeps the union of the two ranges,
    the direction of the selection merged into is preserved, and the captures
    are concatenated, the kept side first. *)
Definition merge_pair (a b : Selection) : Selection :=
  let lo := coord_min (sel_min a) (sel_min b) in
  let hi := coord_max (sel_max a) (sel_max b) in
  if coord_ltb (cursor a) (anchor a)
  then {| anchor := hi; cursor := lo; captures := captures a ++ captures b |}
  else {| anchor := lo; cursor := hi; captures := captures a ++ captures b |}.

(** The sort of sort_and_merge_overlapping, by stable insertion on [min()]:
    [s] goes in front of the first element whose [min()] is not smaller. *)
Fixpoint insert_by_min (s : Selection) (l : list Selection) : list Selection :=
  match l with
  | [] => [s]
  | x :: l' =>
      if coord_ltb (sel_min x) (sel_min s) then x :: insert_by_min s l'
      else s :: x :: l'
  end.

Definition sort_by_min (l : list Selection) : list Selection :=
  foldr insert_by_min [] l.

(** Where sort_and_merge_overlapping finds the main selection after the
    sort: the number of selections that sort in front of it, which are those
    that begin earlier, and those that begin at the same place and stand
    earlier in the list. *)
Fixpoint count_before (main_begin : ByteCoord) (main_idx i : nat)
  (l : list Selection) : nat :=
  match l with
  | [] => 0
  | s :: l' =>
      let before :=
        if coord_ltb (sel_min s) main_begin then true
        else if coord_ltb main_begin (sel_min s) then false
        else i <? main_idx in
      (if before then 1 else 0) + count_before main_begin main_idx (S i) l'
  end.

(** The merge of sort_and_merge_overlapping, one pass over the sorted
    list: [cur] is the selection under construction at index [i] of the
    result; a selection that overlaps it is merged into it, and the main
    index moves down when the merge happens in front of it. *)
Fixpoint merge_from (cur : Selection) (i : nat) (rest : list Selection)
  (main_idx : nat) : list Selection * nat :=
  match rest with
  | [] => ([cur], main_idx)
  | s :: rest' =>
      if overlaps cur s
      then merge_from (merge_pair cur s) i rest'
             (if i <? main_idx then main_idx - 1 else main_idx)
      else
        let '(out, m) := merge_from s (S i) rest' main_idx in
        (cur :: out, m)
  end.

(** Modelled from the spec: SelectionList::sort_and_merge_overlapping
    (selection_list.cc is not among the sources).  Sections 3 and 4.1: the
    list is ordered by [min()], overlapping or touching selections are
    merged, and the main index is remapped so that it keeps denoting a
    selection of the list. *)
Definition sort_and_merge_overlapping (l : SelectionList) : SelectionList :=
  let main_begin := sel_min (main l) in
  let m := count_before main_begin (main_index l) 0 (selections l) in
  match sort_by_min (selections l) with
  | [] => {| selections := []; main_index := m |}
  | s :: rest =>
      let '(out, m') := merge_from s 0 rest m in
      {| selections := out; main_index := m' |}
  end.

Fixpoint sorted_by_minb (l : list Selection) : bool :=
  match l with
  | a :: ((b :: _) as l') => coord_leb (sel_min a) (sel_min b) && sorted_by_minb l'
  | _ => true
  end.

Fixpoint pairwise_disjointb (l : list Selection) : bool :=
  match l with
  | [] => true
  | a :: l' => forallb (fun b => negb (overlaps a b)) l' && pairwise_disjointb l'
  end.

(** Modelled from the spec: SelectionList::check_invariant (selection_list.cc
    is not among the sources); invariants 1 to 4 of section 3.  The result
    [false] stands for a failed assertion. *)
Definition check_invariant (l : SelectionList) : bool :=
  (0 <? size l) && (main_index l <? size l)
  && sorted_by_minb (selections l) && pairwise_disjointb (selections l).

Inductive SelectMode : Type := Replace | Extend | Append.

Section Select.

Variable Buffer : Type.

(** What [select] does to the list before it sorts and merges. *)
Definition apply_mode (mode : SelectMode) (buffer : Buffer)
  (func : Buffer -> Selection -> Selection) (sels : SelectionList)
  : SelectionList :=
  match mode with
  | Append =>
      let sel := main sels in
      let res := func buffer sel in
      let res := match captures res with
                 | [] => set_captures (captures sel) res
                 | _ => res
                 end in
      let sels := push_back res sels in
      set_main_index (size sels - 1) sels
  | _ =>
      let step (sel : Selection) : Selection :=
        let res := func buffer sel in
        let sel' :=
          match mode with
          | Extend => merge_with sel res
          | _ => {| anchor := anchor res; cursor := cursor res;
                    captures := captures sel |}
          end in
        match captures res with
        | [] => sel'
        | c => set_captures c sel'
        end in
      {| selections := map step (selections sels);
         main_index := main_index sels |}
  end.

(** select<mode>(context, func); [None] is a failed check_invariant. *)
Definition select (mode : SelectMode) (buffer : Buffer)
  (func : Buffer -> Selection -> Selection) (sels : SelectionList)
  : option SelectionList :=
  let sels := apply_mode mode buffer func sels in
  let sels := sort_and_merge_overlapping sels in
  if check_invariant sels then Some sels else None.

(** A sequence of commands, each a [select] with its own mode and function. *)
Fixpoint select_sequence (buffer : Buffer)
  (ops : list (SelectMode * (Buffer -> Selection -> Selection)))
  (sels : SelectionList) : option SelectionList :=
  match ops with
  | [] => Some sels
  | (mode, func) :: ops' =>
      match select mode buffer func sels with
      | Some sels' => select_sequence buffer ops' sels'
      | None => None
      end
  end.

End Select.

Arguments apply_mode {Buffer} mode buffer func sels.
Arguments select {Buffer} mode buffer func sels.
Arguments select_sequence {Buffer} buffer ops sels.

(** The invariants of a selection list, as propositions. *)
Definition coord_lt (a b : ByteCoord) : Prop :=
  (line a < line b \/ (line a = line b /\ column a < column b))%Z.
Definition coord_le (a b : ByteCoord) : Prop := ~ coord_lt b a.

Definition ascending_by_min (l : list Selection) : Prop :=
  StronglySorted (fun a b => coord_le (sel_min a) (sel_min b)) l.

Definition pairwise_disjoint (l : list Selection) : Prop :=
  ForallOrdPairs (fun a b => overlaps a b = false) l.

Record invariant (l : SelectionList) : Prop := {
  inv_nonempty : selections l <> [];
  inv_ascending : ascending_by_min (selections l);
  inv_disjoint : pairwise_disjoint (selections l);
  inv_main : main_index l < size l
}.

(** What [select] needs of the list it starts from. *)
Definition usable (l : SelectionList) : Prop :=
  selections l <> [] /\ main_index l < size l.

(** Every position of [a] comes before every position of [b]. *)
Definition strictly_before (a b : Selection) : Prop :=
  coord_lt (sel_max a) (sel_min b).

(** Two selections on one line, and two functions to select with: one
    reaches three columns past the cursor, the other goes to the next line. *)
Definition two_selections : SelectionList :=
  {| selections := [ mkSel (mkCoord 0 0) (mkCoord 0 2) [];
                     mkSel (mkCoord 0 4) (mkCoord 0 6) [] ];
     main_index := 1 |}.

Definition three_right (_ : unit) (s : Selection) : Selection :=
  mkSel (cursor s) (mkCoord (line (cursor s)) (column (cursor s) + 3)) [].

Definition next_line (_ : unit) (s : Selection) : Selection :=
  mkSel (mkCoord (line (anchor s) + 1) 0) (mkCoord (line (cursor s) + 1) 1) [].

End Selections.

(* ================================================================== *)
(** ** Paste: char-wise or line-wise insertion *)
(* ================================================================== *)

Module Paste.

(** The insertion modes normal.cc names (the enum itself is declared with
    the selection list). *)
Inductive InsertMode : Type :=
| Insert
| Append
| Replace
| InsertAtLineBegin
| InsertAtNextLineBegin
| AppendAtLineEnd
| OpenLineBelow
| OpenLineAbove.

Definition adapt_for_linewise (mode : InsertMode) : InsertMode :=
  match mode with
  | Append => InsertAtNextLineBegin
  | Insert => InsertAtLineBegin
  | Replace => Replace
  | _ => Insert
  end.

Definition empty (str : string) : bool :=
  match str with
  | EmptyString => true
  | String _ _ => false
  end.

(** str.back(): the last character; on the empty string the source never
    asks (the test is guarded by [not str.empty()]) and the model answers
    with the null character. *)
Fixpoint back (str : string) : ascii :=
  match str with
  | EmptyString => "000"%char
  | String c EmptyString => c
  | String _ rest => back rest
  end.

Definition eol : ascii := "010"%char.

(** not str.empty() and str.back() == '\n' *)
Definition ends_with_eol (str : string) : bool :=
  negb (empty str) && Ascii.eqb (back str) eol.

(** The loop of [paste]: the first value that ends a line decides, and the
    loop stops there. *)
Fixpoint effective_mode (mode : InsertMode) (strings : list string) : InsertMode :=
  match strings with
  | [] => mode
  | str :: rest =>
      if ends_with_eol str then adapt_for_linewise mode
      else effective_mode mode rest
  end.

(** The loop of [paste_all]: no break, every value that ends a line assigns
    the same adapted mode again. *)
Fixpoint effective_mode_all (mode acc : InsertMode) (strings : list string)
  : InsertMode :=
  match strings with
  | [] => acc
  | str :: rest =>
      effective_mode_all mode
        (if ends_with_eol str then adapt_for_linewise mode else acc) rest
  end.

(** The modes that place the text at the start of a line. *)
Definition at_line_start (mode : InsertMode) : bool :=
  match mode with
  | InsertAtLineBegin | InsertAtNextLineBegin => true
  | _ => false
  end.

Section Command.

Variable Context : Type.
Variable Register : Type.
(** RegisterManager::instance()[reg].values(context) *)
Variable values : Register -> Context -> list string.
(** context.selections().insert(strings, mode), inside a scoped edition. *)
Variable insert : list string -> InsertMode -> Context -> Context.

(** paste<mode>(context, params) *)
Definition paste (mode : InsertMode) (reg : Register) (context : Context)
  : Context :=
  let strings := values reg context in
  let effective := effective_mode mode strings in
  insert strings effective context.

End Command.

Arguments paste {Context Register} values insert mode reg context.

(** A register value that ends with a line terminator. *)
Definition one_line : string := String "x" (String eol EmptyString).

End Paste.

(* ================================================================== *)
(** ** Regex prompts: search, select, split, keep *)
(* ================================================================== *)

Module Prompt.

Inductive PromptEvent : Type := Change | Validate | Abort.

Definition is_change (event : PromptEvent) : bool :=
  match event with Change => true | _ => false end.
Definition is_validate (event : PromptEvent) : bool :=
  match event with Validate => true | _ => false end.

Inductive Direction : Type := Forward | Backward.

(** The regex class belongs to the regex library: a default-constructed
    regex holds no expression and is [empty()]; one built from a string holds
    that string, which [str()] gives back. *)
Inductive Regex : Type :=
| no_regex
| compiled (pattern : string).

Definition regex_empty (ex : Regex) : bool :=
  match ex with no_regex => true | compiled _ => false end.

Definition regex_str (ex : Regex) : string :=
  match ex with no_regex => EmptyString | compiled pattern => pattern end.

(** get_face("Prompt") and get_face("Error"), the two faces the prompt line
    is given. *)
Inductive Face : Type := PromptFace | ErrorFace.

(** The register holding the last search pattern. *)
Definition slash : ascii := "/"%char.

(** What the handlers read and write: the context proper, and with it the
    process-wide register table (RegisterManager::instance()). *)
Record Context (Buffer : Type) : Type := mkContext {
  buffer : Buffer;
  selections : Selections.SelectionList;
  registers : gmap ascii (list string);
  prompt_face : Face;
  info : option (string * string);   (* the info box: title and text *)
  jumps : list Selections.SelectionList;
  has_ui : bool;
  incsearch : bool                   (* options()["incsearch"] *)
}.

Arguments mkContext {Buffer}.
Arguments buffer {Buffer}.
Arguments selections {Buffer}.
Arguments registers {Buffer}.
Arguments prompt_face {Buffer}.
Arguments info {Buffer}.
Arguments jumps {Buffer}.
Arguments has_ui {Buffer}.
Arguments incsearch {Buffer}.

(** A command: it runs in a context, and returns or throws. *)
Definition M (Buffer A : Type) : Type :=
  Context Buffer -> outcome A * Context Buffer.

#[global] Instance M_ret {Buffer : Type} : MRet (M Buffer) :=
  fun A a c => (Return a, c).
#[global] Instance M_bind {Buffer : Type} : MBind (M Buffer) :=
  fun A B f m c =>
    match m c with
    | (Return a, c') => f a c'
    | (Throw e, c') => (Throw e, c')
    end.

(** The collaborators of the handlers. *)
Class Collaborators (Buffer : Type) : Type := {
  (** Some what: the pattern does not compile, and RegexError::what(). *)
  regex_error : string -> option string;
  (** SelectionList::update(): the list carried forward through the changes
      the buffer has seen since the list was last brought up to date. *)
  update : Buffer -> Selections.SelectionList -> Selections.SelectionList;
  (** SelectionList::sort_and_merge_overlapping() *)
  sort_and_merge_overlapping :
    Selections.SelectionList -> Selections.SelectionList;
  (** The assignment of a vector of selections to a selection list, which
      Context::set_selections performs. *)
  assign : list Selections.Selection -> Selections.SelectionList;
  find_next_match :
    Direction -> Buffer -> Selections.Selection -> Regex
    -> outcome Selections.Selection;
  keep_direction :
    Selections.Selection -> Selections.Selection -> Selections.Selection;
  select_all_matches :
    Buffer -> Selections.SelectionList -> Regex
    -> outcome Selections.SelectionList;
  split_selections :
    Buffer -> Selections.SelectionList -> Regex
    -> outcome Selections.SelectionList;
  (** regex_search over the text of a selection *)
  regex_search : Buffer -> Selections.Selection -> Regex -> bool;
  (** The exit status of the shell command fed the text of a selection. *)
  pipe_status : Buffer -> Selections.Selection -> string -> Context Buffer -> Z
}.

Section Handlers.

Context {Buffer : Type} `{!Collaborators Buffer}.

Definition with_selections (l : Selections.SelectionList) (c : Context Buffer)
  : Context Buffer :=
  mkContext (buffer c) l (registers c) (prompt_face c) (info c) (jumps c)
    (has_ui c) (incsearch c).

Definition with_register (reg : ascii) (v : list string) (c : Context Buffer)
  : Context Buffer :=
  mkContext (buffer c) (selections c) (<[reg := v]> (registers c))
    (prompt_face c) (info c) (jumps c) (has_ui c) (incsearch c).

Definition with_prompt_face (f : Face) (c : Context Buffer) : Context Buffer :=
  mkContext (buffer c) (selections c) (registers c) f (info c) (jumps c)
    (has_ui c) (incsearch c).

Definition with_info (i : option (string * string)) (c : Context Buffer)
  : Context Buffer :=
  mkContext (buffer c) (selections c) (registers c) (prompt_face c) i (jumps c)
    (has_ui c) (incsearch c).

(** context.push_jump(): the current selections go on the jump list (the
    keymap calls it "push current selections in jump list"). *)
Definition with_jump (c : Context Buffer) : Context Buffer :=
  mkContext (buffer c) (selections c) (registers c) (prompt_face c) (info c)
    (selections c :: jumps c) (has_ui c) (incsearch c).

Definition throw {A : Type} (e : exn) : M Buffer A := fun c => (Throw e, c).
Definition get : M Buffer (Context Buffer) := fun c => (Return c, c).
Definition modify (f : Context Buffer -> Context Buffer) : M Buffer unit :=
  fun c => (Return tt, f c).
Definition when (b : bool) (m : M Buffer unit) : M Buffer unit :=
  if b then m else mret tt.

Definition try_catch {A : Type} (m : M Buffer A) (handler : exn -> M Buffer A)
  : M Buffer A :=
  fun c =>
    match m c with
    | (Return a, c') => (Return a, c')
    | (Throw e, c') => handler e c'
    end.

(** do { body } while (--count > 0) with [n] rounds after the first. *)
Fixpoint do_while (n : nat) (body : M Buffer unit) : M Buffer unit :=
  match n with
  | 0 => body
  | S n' => body ;; do_while n' body
  end.

(** [n] runs of [body] in sequence. *)
Fixpoint times (n : nat) (body : M Buffer unit) : M Buffer unit :=
  match n with
  | 0 => mret tt
  | S n' => body ;; times n' body
  end.

(** Regex{str.begin(), str.end()} *)
Definition make_regex (str : string) : M Buffer Regex :=
  match regex_error str with
  | Some what => throw (RegexError what)
  | None => mret (compiled str)
  end.

(** Modelled from the spec: Context::main_sel_register_value (context.cc is
    not among the sources).  Section 3, Register: one value per selection,
    the main selection reads the value at its own index, and when there are
    fewer values than selections the last value repeats; a register that
    holds nothing reads as the empty string. *)
Definition main_sel_register_value (reg : ascii) (c : Context Buffer) : string :=
  let strings := default [] (registers c !! reg) in
  let index := Selections.main_index (selections c) in
  let index := if length strings <=? index then length strings - 1 else index in
  nth index strings EmptyString.

(** A loop that assigns to each selection in turn; when the computation for
    one selection throws, the selections before it have been assigned. *)
Fixpoint assign_each (f : Selections.Selection -> outcome Selections.Selection)
  (l : list Selections.Selection) : outcome unit * list Selections.Selection :=
  match l with
  | [] => (Return tt, [])
  | sel :: rest =>
      match f sel with
      | Throw e => (Throw e, sel :: rest)
      | Return sel' =>
          let '(o, rest') := assign_each f rest in (o, sel' :: rest')
      end
  end.

Definition on_selections
  (f : Selections.SelectionList -> outcome unit * Selections.SelectionList)
  : M Buffer unit :=
  fun c => let '(o, l) := f (selections c) in (o, with_selections l c).

Definition map_outcome {A B : Type} (f : A -> B) (o : outcome A) : outcome B :=
  match o with
  | Return a => Return (f a)
  | Throw e => Throw e
  end.

(** select_next_match<direction, mode>(buffer, selections, regex) *)
Definition select_next_match (direction : Direction) (mode : Selections.SelectMode)
  (buf : Buffer) (regex : Regex) (sels : Selections.SelectionList)
  : outcome unit * Selections.SelectionList :=
  let stage1 :=
    match mode with
    | Selections.Replace =>
        let '(o, l) :=
          assign_each
            (fun sel => map_outcome (fun res => keep_direction res sel)
                          (find_next_match direction buf sel regex))
            (Selections.selections sels) in
        (o, Selections.mkList l (Selections.main_index sels))
    | _ => (Return tt, sels)
    end in
  match stage1 with
  | (Throw e, sels1) => (Throw e, sels1)
  | (Return _, sels1) =>
      let stage2 :=
        match mode with
        | Selections.Extend =>
            let '(o, l) :=
              assign_each
                (fun sel => map_outcome (Selections.merge_with sel)
                              (find_next_match direction buf sel regex))
                (Selections.selections sels1) in
            (o, Selections.mkList l (Selections.main_index sels1))
        | Selections.Append =>
            match find_next_match direction buf (Selections.main sels1) regex with
            | Throw e => (Throw e, sels1)
            | Return res =>
                let sel := keep_direction res (Selections.main sels1) in
                let sels2 := Selections.push_back sel sels1 in
                (Return tt,
                 Selections.set_main_index (Selections.size sels2 - 1) sels2)
            end
        | Selections.Replace => (Return tt, sels1)
        end in
      match stage2 with
      | (Throw e, sels2) => (Throw e, sels2)
      | (Return _, sels2) => (Return tt, sort_and_merge_overlapping sels2)
      end
  end.

(** The pattern a regex operation works with: the one entered, or when none
    was entered the content of the search register; an entered pattern is
    recorded in the register on validation. *)
Definition pattern_or_register (ex : Regex) (event : PromptEvent) : M Buffer Regex :=
  if regex_empty ex then
    c ← get; make_regex (main_sel_register_value slash c)
  else
    when (is_validate event) (modify (with_register slash [regex_str ex]));;
    mret ex.

Definition usable_pattern (ex : Regex) : bool :=
  negb (regex_empty ex) && negb (Paste.empty (regex_str ex)).

(** select_next_match on the buffer and the selections of the context. *)
Definition next_match_step (mode : Selections.SelectMode) (direction : Direction)
  (ex : Regex) : M Buffer unit :=
  c ← get; on_selections (select_next_match direction mode (buffer c) ex).

(** The function [search] hands to regex_prompt. *)
Definition search_func (mode : Selections.SelectMode) (direction : Direction)
  (ex : Regex) (event : PromptEvent) : M Buffer unit :=
  ex ← pattern_or_register ex event;
  when (usable_pattern ex) (next_match_step mode direction ex).

Definition on_selections_result
  (f : Buffer -> Selections.SelectionList -> Regex
       -> outcome Selections.SelectionList) (ex : Regex) : M Buffer unit :=
  fun c =>
    match f (buffer c) (selections c) ex with
    | Return l => (Return tt, with_selections l c)
    | Throw e => (Throw e, c)
    end.

(** The function [select_regex] hands to regex_prompt. *)
Definition select_regex_func (ex : Regex) (event : PromptEvent) : M Buffer unit :=
  ex ← pattern_or_register ex event;
  when (usable_pattern ex) (on_selections_result select_all_matches ex).

(** The function [split_regex] hands to regex_prompt. *)
Definition split_regex_func (ex : Regex) (event : PromptEvent) : M Buffer unit :=
  ex ← pattern_or_register ex event;
  when (usable_pattern ex) (on_selections_result split_selections ex).

(** The selections [keep<matching>] retains. *)
Definition kept (matching : bool) (ex : Regex) (c : Context Buffer)
  : list Selections.Selection :=
  List.filter (fun sel => Bool.eqb (regex_search (buffer c) sel ex) matching)
    (Selections.selections (selections c)).

(** The function [keep<matching>] hands to regex_prompt. *)
Definition keep_func (matching : bool) (ex : Regex) (event : PromptEvent)
  : M Buffer unit :=
  if regex_empty ex then mret tt
  else
    c ← get;
    match kept matching ex c with
    | [] => throw (runtime_error "no selections remaining")
    | keep => modify (with_selections (assign keep))
    end.

(** The selections [keep_pipe] retains: those whose command exits with 0. *)
Definition kept_pipe (cmdline : string) (c : Context Buffer)
  : list Selections.Selection :=
  List.filter (fun sel => (pipe_status (buffer c) sel cmdline c =? 0)%Z)
    (Selections.selections (selections c)).

(** The callback of the prompt [keep_pipe] opens. *)
Definition keep_pipe_callback (cmdline : string) (event : PromptEvent) : M Buffer unit :=
  if negb (is_validate event) then mret tt
  else
    c ← get;
    match kept_pipe cmdline c with
    | [] => throw (runtime_error "no selections remaining")
    | keep => modify (with_selections (assign keep))
    end.

(** The try block of the callback [regex_prompt] installs; [snapshot] is the
    captured list, already updated. *)
Definition regex_prompt_try (func : Regex -> PromptEvent -> M Buffer unit)
  (snapshot : Selections.SelectionList) (str : string) (event : PromptEvent)
  : M Buffer unit :=
  modify (with_selections snapshot);;
  modify (with_prompt_face PromptFace);;
  match event with
  | Abort => mret tt
  | _ =>
      c ← get;
      if is_change event && (Paste.empty str || negb (incsearch c)) then mret tt
      else
        when (is_validate event) (modify with_jump);;
        regex ← (if Paste.empty str then mret no_regex else make_regex str);
        func regex event
  end.

Definition regex_error_message (what : string) : string :=
  ("regex error: " ++ what)%string.

(** The hint a std::runtime_error leaves while the user is typing. *)
Definition show_regex_error (what : string) (c : Context Buffer) : Context Buffer :=
  let c := with_prompt_face ErrorFace c in
  if has_ui c then with_info (Some ("regex error"%string, what)) c else c.

(** The catch clauses, in their order. *)
Definition regex_prompt_catch (snapshot : Selections.SelectionList)
  (event : PromptEvent) (e : exn) : M Buffer unit :=
  match e with
  | RegexError what =>
      if is_validate event then throw (runtime_error (regex_error_message what))
      else modify (with_prompt_face ErrorFace)
  | std_runtime_error what =>
      if is_validate event then throw (runtime_error (regex_error_message what))
      else modify (show_regex_error what)
  | runtime_error what =>
      modify (with_selections snapshot);;
      when (is_validate event) (throw (runtime_error what))
  end.

(** The callback [regex_prompt] installs.  It owns [snapshot], the copy of
    the selections taken when the prompt opened, and updates it at every
    event: the callback returns the copy it holds afterwards. *)
Definition regex_prompt_callback (func : Regex -> PromptEvent -> M Buffer unit)
  (snapshot : Selections.SelectionList) (str : string) (event : PromptEvent)
  (c : Context Buffer)
  : outcome unit * (Selections.SelectionList * Context Buffer) :=
  let c := if negb (is_change event) && has_ui c then with_info None c else c in
  let snapshot := update (buffer c) snapshot in
  let '(o, c') :=
    try_catch (regex_prompt_try func snapshot str event)
      (regex_prompt_catch snapshot event) c in
  (o, (snapshot, c')).

(** A prompt session: the events the prompt sends its callback, one after
    the other, until one of them throws. *)
Fixpoint prompt_session (func : Regex -> PromptEvent -> M Buffer unit)
  (snapshot : Selections.SelectionList) (events : list (string * PromptEvent))
  (c : Context Buffer)
  : outcome unit * (Selections.SelectionList * Context Buffer) :=
  match events with
  | [] => (Return tt, (snapshot, c))
  | (str, event) :: events' =>
      match regex_prompt_callback func snapshot str event c with
      | (Return _, (snapshot', c')) => prompt_session func snapshot' events' c'
      | thrown => thrown
      end
  end.

(** The catch clause of [search_next]: it catches RegexError alone. *)
Definition rethrow_regex_error (e : exn) : M Buffer unit :=
  match e with
  | RegexError what => throw (runtime_error (regex_error_message what))
  | _ => throw e
  end.

(** search_next<mode, direction>(context, params) *)
Definition search_next (mode : Selections.SelectMode) (direction : Direction)
  (count : Z) : M Buffer unit :=
  c ← get;
  let str := main_sel_register_value slash c in
  if negb (Paste.empty str) then
    try_catch
      (ex ← make_regex str;
       do_while (extra_rounds count) (next_match_step mode direction ex))
      rethrow_regex_error
  else throw (runtime_error "no search pattern").

(** The context in which the prompt runs the operation on a Validate
    event: the captured selections put back, the prompt face reset, the
    info box hidden and the jump pushed. *)
Definition at_validation (snapshot : Selections.SelectionList)
  (c : Context Buffer) : Context Buffer :=
  with_jump
    (with_prompt_face PromptFace
       (with_selections (update (buffer c) snapshot)
          (if has_ui c then with_info None c else c))).

(** The three operations that fall back on the search register. *)
Inductive RegisterOperation : Type :=
| search_op (mode : Selections.SelectMode) (direction : Direction)
| select_regex_op
| split_regex_op.

Definition operation_func (op : RegisterOperation)
  : Regex -> PromptEvent -> M Buffer unit :=
  match op with
  | search_op mode direction => search_func mode direction
  | select_regex_op => select_regex_func
  | split_regex_op => split_regex_func
  end.

End Handlers.

(** *** A small world to run the handlers in

    The buffer is its number of lines.  The pattern "0" matches the text of
    line 0, the pattern "1" the text of line 1, no other pattern matches
    anything; "(" does not compile.  The next match of a selection is the
    start of the line after (or before) its cursor. *)

Definition demo_regex_error (str : string) : option string :=
  if String.eqb str "(" then Some "unmatched parenthesis"%string else None.

Definition demo_update (_ : Z) (l : Selections.SelectionList)
  : Selections.SelectionList := l.

Definition demo_assign (l : list Selections.Selection) : Selections.SelectionList :=
  Selections.sort_and_merge_overlapping (Selections.mkList l (length l - 1)).

Definition demo_find_next_match (direction : Direction) (lines : Z)
  (sel : Selections.Selection) (_ : Regex) : outcome Selections.Selection :=
  let l := (Selections.line (Selections.cursor sel)
            + match direction with Forward => 1 | Backward => -1 end)%Z in
  if ((0 <=? l) && (l <? lines))%Z
  then Return (Selections.mkSel (Selections.mkCoord l 0) (Selections.mkCoord l 0) [])
  else Throw (runtime_error "no matches found").

Definition demo_keep_direction (res _ : Selections.Selection)
  : Selections.Selection := res.

Definition demo_all_matches (_ : Z) (l : Selections.SelectionList) (_ : Regex)
  : outcome Selections.SelectionList := Return l.

Definition demo_regex_search (_ : Z) (sel : Selections.Selection) (ex : Regex)
  : bool :=
  if String.eqb (regex_str ex) "0"
  then (Selections.line (Selections.anchor sel) =? 0)%Z
  else if String.eqb (regex_str ex) "1"
       then (Selections.line (Selections.anchor sel) =? 1)%Z
       else false.

Definition demo_pipe_status (_ : Z) (sel : Selections.Selection) (cmdline : string)
  (_ : Context Z) : Z :=
  if String.eqb cmdline "true" then 0%Z else 1%Z.

Definition on_line (l : Z) : Selections.Selection :=
  Selections.mkSel (Selections.mkCoord l 0) (Selections.mkCoord l 2) [].

#[global] Instance demo_world : Collaborators Z := {|
  regex_error := demo_regex_error;
  update := demo_update;
  sort_and_merge_overlapping := Selections.sort_and_merge_overlapping;
  assign := demo_assign;
  find_next_match := demo_find_next_match;
  keep_direction := demo_keep_direction;
  select_all_matches := demo_all_matches;
  split_selections := demo_all_matches;
  regex_search := demo_regex_search;
  pipe_status := demo_pipe_status
|}.

(** Three lines, a selection on each of the first two, "0" as the last
    search pattern. *)
Definition demo_context : Context Z :=
  mkContext 3%Z (Selections.mkList [on_line 0; on_line 1] 0)
    (<[slash := ["0"%string]]> ∅) PromptFace None [] true true.

(** A matcher error raised by the operation itself. *)
Definition demo_too_complex (_ : Regex) (_ : PromptEvent) : M Z unit :=
  fun c => (Throw (std_runtime_error "too complex"), c).

End Prompt.

(* ================================================================== *)
(** ** Macro replay and its recursion guard *)
(* ================================================================== *)

Module Macro.

Local Open Scope Z_scope.

(** Key::Modifiers *)
Inductive Modifiers : Type := ModNone | ModControl | ModAlt | ModControlAlt.

(** A key: its modifiers and its code point. *)
Record Key : Type := mkKey { modifiers : Modifiers; key : Z }.

Definition no_modifiers (k : Key) : bool :=
  match modifiers k with ModNone => true | _ => false end.

Definition is_basic_alpha (c : Z) : bool :=
  ((97 <=? c) && (c <=? 122)) || ((65 <=? c) && (c <=? 90)).

(** tolower on the code points that reach it *)
Definition tolower (c : Z) : Z :=
  if (65 <=? c) && (c <=? 90) then c + 32 else c.

(** (size_t)(name - 'a') *)
Definition macro_index (k : Key) : nat := Z.to_nat (tolower (key k) - 97).

Definition is_digit (c : Z) : bool := (48 <=? c) && (c <=? 57).

(** The key bound to replay_macro in the keymap. *)
Definition q_key : Key := mkKey ModNone 113.

(** The key that names macro [a]. *)
Definition named (a : Z) : Key := mkKey ModNone a.

Definition lower (a : Z) : Prop := 97 <= a <= 122.

Definition recursive_call : exn :=
  runtime_error "recursive macros call detected".

(** What replay works with; [World] is everything the commands act on:
    buffers, selections, registers. *)
Class Commands (World : Type) : Type := {
  (** RegisterManager::instance()[name].values(context) *)
  reg_values : Z -> World -> list string;
  parse_keys : string -> list Key;
  (** The normal-mode commands other than replay_macro, given the key and
      the count typed before it. *)
  other_command : Key -> Z -> World -> outcome unit * World
}.

(** What the input handler waits for: a command key, with the count typed
    so far, or the key that names the macro to replay, with the count the
    pending replay_macro was given. *)
Inductive InputMode : Type :=
| Normal (count : Z)
| NextKey (params_count : Z).

Record State (World : Type) : Type := mkState {
  running_macros : list bool;   (* static bool running_macros[26] *)
  mode : InputMode;
  world : World
}.

Arguments mkState {World}.
Arguments running_macros {World}.
Arguments mode {World}.
Arguments world {World}.

(** The macros that are not being replayed. *)
Definition idle (l : list bool) : nat := length (List.filter negb l).

Section Replay.

Context {World : Type} `{!Commands World}.

Definition with_running (l : list bool) (st : State World) : State World :=
  mkState l (mode st) (world st).
Definition with_mode (m : InputMode) (st : State World) : State World :=
  mkState (running_macros st) m (world st).
Definition with_world (w : World) (st : State World) : State World :=
  mkState (running_macros st) (mode st) w.

(** The result of running keys: [None] when the nesting budget is used up. *)
Definition Result : Type := option (outcome unit * State World).

Definition is_running (idx : nat) (st : State World) : bool :=
  default false (running_macros st !! idx).

(** do { exec } while (--count > 0), with [n] rounds after the first. *)
Fixpoint do_while (n : nat) (exec : State World -> Result) (st : State World)
  : Result :=
  match exec st with
  | Some (Return _, st') =>
      match n with
      | O => Some (Return tt, st')
      | S n' => do_while n' exec st'
      end
  | r => r
  end.

(** The function replay_macro registers for the next key.  [exec_keys] runs
    the keys of the macro; whatever way it ends, the scope guard clears the
    flag it set. *)
Definition replay_next_key (exec_keys : list Key -> State World -> Result)
  (count : Z) (k : Key) (st : State World) : Result :=
  if no_modifiers k && is_basic_alpha (key k) then
    let name := tolower (key k) in
    let idx := macro_index k in
    if is_running idx st then Some (Throw recursive_call, st)
    else
      match reg_values name (world st) with
      | [] => Some (Return tt, st)
      | reg_val :: _ =>
          let st := with_running (<[idx := true]> (running_macros st)) st in
          let keys := parse_keys reg_val in
          match do_while (extra_rounds count) (exec_keys keys) st with
          | Some (o, st') =>
              Some (o, with_running (<[idx := false]> (running_macros st')) st')
          | None => None
          end
      end
  else Some (Return tt, st).

(** Modelled from the spec: the input handler's dispatch of one key
    (input_handler.cc is not among the sources).  Sections 4.6 and 5: a
    command that needs one more key registers a continuation which the next
    key resumes; otherwise digits build the count, the key bound to
    replay_macro registers its continuation, and any other key runs its
    command. *)
Definition handle_key (exec_keys : list Key -> State World -> Result)
  (k : Key) (st : State World) : Result :=
  match mode st with
  | NextKey count => replay_next_key exec_keys count k (with_mode (Normal 0) st)
  | Normal count =>
      if no_modifiers k && is_digit (key k)
      then Some (Return tt, with_mode (Normal (count * 10 + (key k - 48))) st)
      else if no_modifiers k && (key k =? 113)
      then Some (Return tt, with_mode (NextKey count) st)
      else
        let '(o, w) := other_command k count (world st) in
        Some (o, with_world w (with_mode (Normal 0) st))
  end.

(** The keys go through the dispatch one after the other, until one throws. *)
Fixpoint run_keys (step : Key -> State World -> Result) (keys : list Key)
  (st : State World) : Result :=
  match keys with
  | [] => Some (Return tt, st)
  | k :: keys' =>
      match step k st with
      | Some (Return _, st') => run_keys step keys' st'
      | r => r
      end
  end.

(** Modelled from the spec: exec_keys (commands.cc is not among the
    sources).  Section 4.6: the keys are executed through the same dispatch
    path as live input, synchronously and recursively.  [fuel] bounds the
    depth to which replays nest. *)
Fixpoint exec_keys (fuel : nat) (keys : list Key) (st : State World) : Result :=
  match fuel with
  | O => None
  | S fuel' => run_keys (handle_key (exec_keys fuel')) keys st
  end.

(** The key after [q], as typed: the replay of the macro it names. *)
Definition replay (fuel : nat) (count : Z) (k : Key) (st : State World) : Result :=
  replay_next_key (exec_keys fuel) count k st.

(** A run that leaves the flags as it found them. *)
Definition restores (exec : State World -> Result) : Prop :=
  forall st o st', exec st = Some (o, st') -> running_macros st' = running_macros st.

(** [exec'] gives every result [exec] gives. *)
Definition extends {A : Type} (exec exec' : A -> Result) : Prop :=
  forall a r, exec a = Some r -> exec' a = Some r.

(** What a state needs for [fuel] to be enough. *)
Definition within (fuel : nat) (st : State World) : Prop :=
  length (running_macros st) = 26%nat /\ (idle (running_macros st) < fuel)%nat.

(** A command key that does its work and changes nothing replay looks at. *)
Definition plain (k : Key) : Prop :=
  no_modifiers k && is_digit (key k) = false
  /\ no_modifiers k && (key k =? 113) = false
  /\ forall count w, other_command k count w = (Return tt, w).

(** The rounds of do { exec } while (--count > 0) arrive where [reach] says:
    in the first round, or in a later one after rounds that returned. *)
Inductive rounds_reach (exec : list Key -> State World -> Result)
  (reach : list Key -> State World -> Prop) (keys : list Key)
  : nat -> State World -> Prop :=
| reach_in_round (n : nat) (st : State World) :
    reach keys st -> rounds_reach exec reach keys n st
| reach_later (n : nat) (st st1 : State World) :
    exec keys st = Some (Return tt, st1) ->
    rounds_reach exec reach keys n st1 ->
    rounds_reach exec reach keys (S n) st.

(** The key [k], read as the name of the macro to replay, leads to the
    replay of a macro that is being replayed.  [called] lists the macros
    being replayed, the innermost first: [k] names one of them, or it names
    a macro that is not running and whose recorded keys, replayed, arrive at
    the replay of one of them or of that macro itself. *)
Definition key_reaches (exec : list Key -> State World -> Result)
  (reach : list Z -> list Key -> State World -> Prop) (called : list Z)
  (k : Key) (st : State World) : Prop :=
  exists count,
    mode st = NextKey count
    /\ no_modifiers k && is_basic_alpha (key k) = true
    /\ (In (tolower (key k)) called
        \/ is_running (macro_index k) st = false
           /\ exists reg_val vals,
               reg_values (tolower (key k)) (world st) = reg_val :: vals
               /\ rounds_reach exec (reach (tolower (key k) :: called))
                    (parse_keys reg_val) (extra_rounds count)
                    (with_running (<[macro_index k := true]> (running_macros st))
                       (with_mode (Normal 0) st))).

(** The run of [keys] arrives at the replay of a macro that is being
    replayed: the keys before the one that names the macro have run and
    returned, whatever they are (counts, commands that change the world,
    replays of other macros), and that key leads to the replay, at once or
    inside replays nested to any depth. *)
Fixpoint keys_reach (fuel : nat) (called : list Z) (keys : list Key)
  (st : State World) : Prop :=
  match fuel with
  | O => False
  | S fuel' =>
      exists pre k post st1,
        keys = pre ++ k :: post
        /\ run_keys (handle_key (exec_keys fuel')) pre st = Some (Return tt, st1)
        /\ key_reaches (exec_keys fuel') (keys_reach fuel') called k st1
  end.

(** Macro [a] invokes itself, directly or transitively: replayed with
    [count] from [st], the keys recorded under [a] arrive at the replay of
    [a], or of a macro replayed between [a] and that point. *)
Definition invokes_itself (fuel : nat) (count : Z) (a : Z) (st : State World)
  : Prop :=
  exists reg_val vals,
    reg_values a (world st) = reg_val :: vals
    /\ rounds_reach (exec_keys fuel) (keys_reach fuel [a]) (parse_keys reg_val)
         (extra_rounds count)
         (with_running (<[macro_index (named a) := true]> (running_macros st))
            st).

End Replay.

(** *** A small world to replay macros in

    The world is the register table: macro names with the keys recorded
    under them.  The key [x] is a command that does nothing, every other
    command key fails. *)

Definition demo_reg_values (name : Z) (w : list (Z * string)) : list string :=
  match List.find (fun entry => fst entry =? name) w with
  | Some (_, recorded) => [recorded]
  | None => []
  end.

Definition demo_parse_keys (recorded : string) : list Key :=
  map (fun c => mkKey ModNone (Z.of_N (N_of_ascii c)))
    (list_ascii_of_string recorded).

Definition demo_other_command (k : Key) (_ : Z) (w : list (Z * string))
  : outcome unit * list (Z * string) :=
  if key k =? 120 then (Return tt, w)
  else (Throw (runtime_error "no such command"), w).

#[global] Instance demo_commands : Commands (list (Z * string)) := {|
  reg_values := demo_reg_values;
  parse_keys := demo_parse_keys;
  other_command := demo_other_command
|}.

(** Macro a replays b and b replays a, each after plain keys; c and d are
    harmless; e fails on its second key; f comes back to itself through g,
    with a count. *)
Definition demo_state : State (list (Z * string)) :=
  mkState (replicate 26 false) (Normal 0)
    [ (97, "xqb"); (98, "xxqa"); (99, "xx"); (100, "xqcx"); (101, "x!x");
      (102, "x2qgx"); (103, "xxqf") ]%string.

(** A macro that replays itself. *)
Definition demo_direct : State (list (Z * string)) :=
  mkState (replicate 26 false) (Normal 0) [ (97, "xqa"%string) ].

End Macro.

(* ================================================================== *)
(** ** Undo and redo *)
(* ================================================================== *)

Module Undo.

Record Context (Buffer : Type) : Type := mkContext {
  buffer : Buffer;
  selections : Selections.SelectionList;
  status : option string             (* the status line, when one is printed *)
}.

Arguments mkContext {Buffer}.
Arguments buffer {Buffer}.
Arguments selections {Buffer}.
Arguments status {Buffer}.

(** What undo and redo ask of the buffer and of the selection list. *)
Class History (Buffer : Type) : Type := {
  timestamp : Buffer -> nat;
  (** buffer.undo() and buffer.redo(): whether there was a change to undo or
      redo, and the buffer afterwards. *)
  buffer_undo : Buffer -> bool * Buffer;
  buffer_redo : Buffer -> bool * Buffer;
  (** The ranges modified since a timestamp, one selection for each. *)
  compute_modified_ranges : Buffer -> nat -> list Selections.Selection;
  (** The assignment of a vector of selections to a selection list, which
      Context::set_selections performs. *)
  assign : list Selections.Selection -> Selections.SelectionList;
  (** SelectionList::avoid_eol() *)
  avoid_eol : Buffer -> Selections.SelectionList -> Selections.SelectionList
}.

Definition is_nil {A : Type} (l : list A) : bool :=
  match l with [] => true | _ => false end.

Section Commands.

Context {Buffer : Type} `{!History Buffer}.

Definition undo (context : Context Buffer) : Context Buffer :=
  let stamp := timestamp (buffer context) in
  let '(res, buffer') := buffer_undo (buffer context) in
  if res then
    let ranges := compute_modified_ranges buffer' stamp in
    let sels := if negb (is_nil ranges) then assign ranges
                else selections context in
    mkContext buffer' (avoid_eol buffer' sels) (status context)
  else
    mkContext buffer' (selections context) (Some "nothing left to undo"%string).

Definition redo (context : Context Buffer) : Context Buffer :=
  let stamp := timestamp (buffer context) in
  let '(res, buffer') := buffer_redo (buffer context) in
  if res then
    let ranges := compute_modified_ranges buffer' stamp in
    let sels := if negb (is_nil ranges) then assign ranges
                else selections context in
    mkContext buffer' (avoid_eol buffer' sels) (status context)
  else
    mkContext buffer' (selections context) (Some "nothing left to redo"%string).

(** What either command is to leave behind, given what the buffer answered:
    the statement of the two cases, to compare [undo] and [redo] with. *)
Definition after (answer : bool * Buffer) (message : string)
  (context : Context Buffer) : Context Buffer :=
  let stamp := timestamp (buffer context) in
  let ranges := compute_modified_ranges (snd answer) stamp in
  if fst answer then
    match ranges with
    | [] => mkContext (snd answer) (avoid_eol (snd answer) (selections context))
              (status context)
    | _ => mkContext (snd answer) (avoid_eol (snd answer) (assign ranges))
             (status context)
    end
  else mkContext (snd answer) (selections context) (Some message).

End Commands.

(** *** A buffer with a history to run the commands on

    The buffer is the list of the lines changed by the edits that can still
    be undone, latest first, and the list of those that can be redone. *)

Definition demo_timestamp (b : list Z * list Z) : nat := length (fst b).

Definition demo_undo (b : list Z * list Z) : bool * (list Z * list Z) :=
  match fst b with
  | [] => (false, b)
  | l :: done => (true, (done, l :: snd b))
  end.

Definition demo_redo (b : list Z * list Z) : bool * (list Z * list Z) :=
  match snd b with
  | [] => (false, b)
  | l :: undone => (true, (l :: fst b, undone))
  end.

(** The line the last undo or redo touched. *)
Definition demo_ranges (b : list Z * list Z) (stamp : nat)
  : list Selections.Selection :=
  match (if length (fst b) <? stamp then snd b else fst b) with
  | [] => []
  | l :: _ => [ Selections.mkSel (Selections.mkCoord l 0) (Selections.mkCoord l 4) [] ]
  end.

Definition demo_assign (l : list Selections.Selection) : Selections.SelectionList :=
  Selections.sort_and_merge_overlapping (Selections.mkList l (length l - 1)).

(** Lines are 4 columns long: a cursor on column 4 steps back. *)
Definition demo_avoid_eol (_ : list Z * list Z) (l : Selections.SelectionList)
  : Selections.SelectionList :=
  Selections.mkList
    (map (fun s =>
            if (Selections.column (Selections.cursor s) =? 4)%Z
            then Selections.mkSel (Selections.anchor s)
                   (Selections.mkCoord (Selections.line (Selections.cursor s)) 3)
                   (Selections.captures s)
            else s)
       (Selections.selections l))
    (Selections.main_index l).

#[global] Instance demo_history : History (list Z * list Z) := {|
  timestamp := demo_timestamp;
  buffer_undo := demo_undo;
  buffer_redo := demo_redo;
  compute_modified_ranges := demo_ranges;
  assign := demo_assign;
  avoid_eol := demo_avoid_eol
|}.

(** One edit, on line 7, to undo. *)
Definition demo_context : Context (list Z * list Z) :=
  mkContext ([7%Z], []) (Selections.mkList [Selections.default_selection] 0) None.

End Undo.

(* ================================================================== *)
(** ** The word database *)
(* ================================================================== *)

Module WordDB.

Local Open Scope N_scope.

(** UsedLetters is std::bitset<64>: a set of bits, here a natural number
    read in binary. *)
Definition UsedLetters : Type := N.

Record WordInfo : Type := mkInfo { letters : UsedLetters; refcount : Z }.

Record WordDB : Type := mkDB {
  m_timestamp : nat;
  m_words : gmap string WordInfo;
  m_lines : list string
}.

(** The two functions find_matching calls; word_db.hh declares them, their
    bodies are elsewhere. *)
Class Index : Type := {
  used_letters : string -> UsedLetters;
  (** update_db() brings the database up to date with its buffer. *)
  update_db : WordDB -> WordDB
}.

Section Find.

Context `{!Index}.

(** The test a word must pass to be reported. *)
Definition candidate (query : UsedLetters) (str : string)
  (matches : string -> string -> bool) (word : string * WordInfo) : bool :=
  (N.land query (letters (snd word)) =? query) && matches (fst word) str.

(** find_matching(str, match): the words found, in the order the map yields
    them, and the database as update_db left it. *)
Definition find_matching (db : WordDB) (str : string)
  (matches : string -> string -> bool) : list string * WordDB :=
  let db := update_db db in
  let query := used_letters str in
  let res :=
    foldl (fun res word =>
             if candidate query str matches word then res ++ [fst word] else res)
      [] (map_to_list (m_words db)) in
  (res, db).

(** Every word is stored with the letters used_letters gives for it. *)
Definition consistent (db : WordDB) : Prop :=
  forall word info, m_words db !! word = Some info -> letters info = used_letters word.

End Find.

(** *** A database to query *)

(** Modelled from the spec: used_letters (word_db.cc is not among the
    sources).  Section 3, UsedLetters: one bit per recognized symbol, case
    folded; here a letter has the bit of its lower-case form, a digit and the
    underscore have bits of their own, and any other symbol has the last
    bit. *)
Definition letter_bit (c : ascii) : N :=
  let n := N_of_ascii c in
  if (97 <=? n) && (n <=? 122) then n - 97
  else if (65 <=? n) && (n <=? 90) then n - 65
  else if (48 <=? n) && (n <=? 57) then 26 + (n - 48)
  else if n =? 95 then 36
  else 63.

Fixpoint demo_used_letters (str : string) : UsedLetters :=
  match str with
  | EmptyString => 0
  | String c rest => N.lor (N.shiftl 1 (letter_bit c)) (demo_used_letters rest)
  end.

Definition demo_index : Index := {|
  used_letters := demo_used_letters;
  update_db := fun db => db
|}.

(** The caller's predicate: the word begins with the query. *)
Definition prefix_match (word str : string) : bool := String.prefix str word.

Definition index_words (words : list string) : gmap string WordInfo :=
  list_to_map (map (fun w => (w, mkInfo (demo_used_letters w) 1)) words).

Definition demo_db : WordDB :=
  mkDB 1 (index_words ["foo"; "food"; "bar"; "Fob"; "of"]%string) [].

End WordDB.

(* ================================================================== *)
(** ** paste_all: one insertion, then one selection per register value *)
(* ================================================================== *)

Module PasteAll.

Import Selections Paste.

Local Open Scope Z_scope.

(** The first loop of [paste_all]: every value is appended to [all] and the
    length reached is recorded in [offsets]; the mode is decided as in
    [effective_mode_all]. *)
Fixpoint gather (mode effective : InsertMode) (all : string) (offsets : list Z)
  (strings : list string) : InsertMode * string * list Z :=
  match strings with
  | [] => (effective, all, offsets)
  | str :: rest =>
      let effective :=
        if ends_with_eol str then adapt_for_linewise mode else effective in
      let all := String.append all str in
      gather mode effective all (offsets ++ [Z.of_nat (String.length all)]) rest
  end.

(** The inner loop of the second half: from [pos], one pair of byte counts
    per offset, [pos] and [offset - 1]; [pos] then moves to the offset.  For
    a value that is not empty these are its first and its last byte; for an
    empty value the second count is one less than the first. *)
Fixpoint ranges (pos : Z) (offsets : list Z) : list (Z * Z) :=
  match offsets with
  | [] => []
  | offset :: rest => (pos, offset - 1) :: ranges offset rest
  end.

(** What paste_all asks of the registers, the selection list and the
    buffer. *)
Class Editing (Context Register : Type) : Type := {
  (** RegisterManager::instance()[reg].values(context) *)
  values : Register -> Context -> list string;
  (** selections.insert(all, mode, true) inside a scoped edition; the last
      argument asks for the inserted text to be selected. *)
  insert : string -> InsertMode -> Context -> Context;
  (** context.selections(), as the loop walks it *)
  selections : Context -> list Selection;
  (** context.buffer().advance(coord, count) *)
  advance : Context -> ByteCoord -> Z -> ByteCoord;
  (** selections = std::move(result) *)
  assign : list Selection -> Context -> Context
}.

Section Command.

Context {Context Register : Type} `{!Editing Context Register}.

(** The selections built for one selection of the inserted text. *)
Definition split_selection (context : Context) (offsets : list Z)
  (selection : Selection) : list Selection :=
  map (fun r => mkSel (advance context (sel_min selection) (fst r))
                      (advance context (sel_min selection) (snd r)) [])
      (ranges 0 offsets).

(** paste_all<mode>(context, params) *)
Definition paste_all (mode : InsertMode) (reg : Register) (context : Context)
  : Context :=
  let strings := values reg context in
  let '(effective, all, offsets) := gather mode mode EmptyString [] strings in
  let context := insert all effective context in
  let result := flat_map (split_selection context offsets) (selections context) in
  assign result context.

End Command.

(** The lengths [all] reaches after each value, when it starts with [pos]
    bytes. *)
Fixpoint reached (pos : nat) (strings : list string) : list Z :=
  match strings with
  | [] => []
  | str :: rest =>
      Z.of_nat (pos + String.length str)%nat
      :: reached (pos + String.length str)%nat rest
  end.

(** The bytes of [all] under the selection built on a pair: from the
    smaller of the two byte counts to the larger, both included, as
    Selection::min() and Selection::max() read the selection.  The counts
    are taken from the first byte of [all]; a negative count, which lies
    before the inserted text, reads from its first byte. *)
Definition slice (all : string) (r : Z * Z) : string :=
  let first := Z.min (fst r) (snd r) in
  let last := Z.max (fst r) (snd r) in
  substring (Z.to_nat first) (Z.to_nat (last - first + 1)) all.

(** The ranges follow one another from [pos] up to [total] without a gap:
    each starts one byte after the end of the one before. *)
Fixpoint tiled (pos : Z) (rs : list (Z * Z)) (total : Z) : Prop :=
  match rs with
  | [] => pos = total
  | r :: rest => fst r = pos /\ tiled (snd r + 1) rest total
  end.

End PasteAll.

(* ================================================================== *)
(** ** Shell commands: pipe and insert_output *)
(* ================================================================== *)

Module Pipe.

Import Paste Prompt.

(** The register holding the last shell command. *)
Definition bar : ascii := "|"%char.

(** The shell and the insertion of text.  The shell is asked for its output
    only: what a command does outside the editor is not part of the
    context. *)
Class Shell (Buffer : Type) : Type := {
  (** content(buffer, sel) *)
  content : Buffer -> Selections.Selection -> string;
  (** ShellManager::instance().pipe(input, cmdline, context, {}, EnvVarMap{}) *)
  shell_pipe : string -> string -> Context Buffer -> string;
  (** ShellManager::instance().eval(cmdline, context, {}, EnvVarMap{}) *)
  shell_eval : string -> Context Buffer -> string;
  (** selections.insert(strings, mode) inside a scoped edition: the buffer
      and the selection list afterwards *)
  insert :
    list string -> InsertMode -> Buffer -> Selections.SelectionList
    -> Buffer * Selections.SelectionList
}.

Section Handlers.

Context {Buffer : Type} `{!Shell Buffer}.

Definition with_edition (edited : Buffer * Selections.SelectionList)
  (c : Context Buffer) : Context Buffer :=
  mkContext (fst edited) (snd edited) (registers c) (prompt_face c) (info c)
    (jumps c) (has_ui c) (incsearch c).

(** bool insert_eol = str.back() != '\n' *)
Definition insert_eol (str : string) : bool := negb (Ascii.eqb (back str) eol).

(** if (insert_eol) str += '\n' *)
Definition shell_input (str : string) : string :=
  if insert_eol str then String.append str (String eol EmptyString) else str.

(** if (insert_eol and str.back() == '\n') str = str.substr(0, str.length()-1) *)
Definition shell_output (insert_eol : bool) (str : string) : string :=
  if insert_eol && Ascii.eqb (back str) eol
  then substring 0 (String.length str - 1) str
  else str.

(** The body of the loop of [pipe<true>] for one selection. *)
Definition piped (real_cmd : string) (c : Context Buffer)
  (sel : Selections.Selection) : string :=
  let str := content (buffer c) sel in
  shell_output (insert_eol str) (shell_pipe (shell_input str) real_cmd c).

(** The command line typed, recorded in the register, or when nothing was
    typed the command the register holds. *)
Definition real_cmd (cmdline : string) : M Buffer string :=
  if empty cmdline
  then c ← get; mret (main_sel_register_value bar c)
  else modify (with_register bar [cmdline]) ;; mret cmdline.

(** The callback of pipe<replace> *)
Definition pipe_callback (replace : bool) (cmdline : string)
  (event : PromptEvent) : M Buffer unit :=
  if negb (is_validate event) then mret tt
  else
    cmd ← real_cmd cmdline;
    if empty cmd then mret tt
    else if replace then
      modify (fun c =>
        let strings := map (piped cmd c) (Selections.selections (selections c)) in
        with_edition (insert strings Replace (buffer c) (selections c)) c)
    else mret tt.

(** The callback of insert_output<mode> *)
Definition insert_output_callback (mode : InsertMode) (cmdline : string)
  (event : PromptEvent) : M Buffer unit :=
  if negb (is_validate event) then mret tt
  else
    cmd ← real_cmd cmdline;
    if empty cmd then mret tt
    else
      modify (fun c =>
        let str := shell_eval cmd c in
        with_edition (insert [str] mode (buffer c) (selections c)) c).

End Handlers.

(** A shell for the examples: the text of a selection is its line number
    in letters, every command copies its input. *)
Definition demo_content (_ : Z) (sel : Selections.Selection) : string :=
  if (Selections.line (Selections.cursor sel) =? 0)%Z then "zero"
  else String "o" (String "n" (String "e" (String eol EmptyString))).

Definition demo_insert (strings : list string) (_ : InsertMode) (b : Z)
  (l : Selections.SelectionList) : Z * Selections.SelectionList :=
  ((b + Z.of_nat (length strings))%Z, l).

Definition copying_shell : Shell Z := {|
  content := demo_content;
  shell_pipe := fun input _ _ => input;
  shell_eval := fun cmdline _ => cmdline;
  insert := demo_insert
|}.

End Pipe.

(* ================================================================== *)
(** ** Indentation: indent, deindent, copy_indent, tabs_to_spaces *)
(* ================================================================== *)

Module Indent.

Import Selections.

Local Open Scope Z_scope.

(** The buffer as these commands read it: the lines it holds, each with its
    line end.  [buffer[line]] is asked for lines of the buffer only. *)
Definition Buffer : Type := list string.

Definition line_at (buffer : Buffer) (l : Z) : string :=
  nth (Z.to_nat l) buffer EmptyString.

Definition tab : ascii := "009"%char.
Definition space : ascii := " "%char.

(** String{c, count} *)
Definition make_string (c : ascii) (count : Z) : string :=
  Nat.iter (Z.to_nat count) (String c) EmptyString.

(** The selection {line, ByteCoord{line, column}}: a line number converts
    to the coordinate of its first byte. *)
Definition on_line (l column : Z) : Selection :=
  mkSel (mkCoord l 0) (mkCoord l column) [].

(** The loop [indent] and [deindent] share:
      for (auto& sel : context.selections())
      {
          for (line = max(last_line, sel.min().line); line < sel.max().line+1; ++line)
              body
          last_line = sel.max().line+1;
      }
    with [body] giving what it pushes on [sels] for the line. *)
Fixpoint each_line_once {A : Type} (body : Z -> list A) (last_line : Z)
  (sels : list Selection) : list A :=
  match sels with
  | [] => []
  | sel :: rest =>
      let first := Z.max last_line (line (sel_min sel)) in
      flat_map body (seqZ first (line (sel_max sel) + 1 - first))
      ++ each_line_once body (line (sel_max sel) + 1) rest
  end.

(** A selection has bytes on line [l]. *)
Definition touched (sels : list Selection) (l : Z) : Prop :=
  exists sel, sel ∈ sels /\ line (sel_min sel) <= l <= line (sel_max sel).

(** The lines the loop visits, in the order it visits them. *)
Definition visited (sels : list Selection) : list Z :=
  each_line_once (fun l => [l]) 0 sels.

(** The insertion and the erasure of text at a list of selections of the
    buffer, which the selection list performs. *)
Class Edits : Type := {
  (** SelectionList{buffer, sels}.insert(str, InsertMode::Insert) *)
  insert : string -> list Selection -> Buffer -> Buffer;
  (** SelectionList{buffer, sels}.erase() *)
  erase : list Selection -> Buffer -> Buffer;
  (** SelectionList{buffer, sels}.insert(strings, InsertMode::Replace) *)
  replace : list string -> list Selection -> Buffer -> Buffer
}.

(** String indent = indent_width == 0 ? "\t" : String{' ', indent_width} *)
Definition indent_string (indent_width : Z) : string :=
  if indent_width =? 0 then String tab EmptyString
  else make_string space indent_width.

(** The selections [indent] gathers: one at the start of every line to
    indent. *)
Definition indent_sels (indent_empty : bool) (buffer : Buffer)
  (sels : list Selection) : list Selection :=
  each_line_once
    (fun l =>
       if indent_empty || (1 <? Z.of_nat (String.length (line_at buffer l)))
       then [on_line l 0] else [])
    0 sels.

(** indent<indent_empty>(context, params) *)
Definition indent `{!Edits} (indent_empty : bool) (indent_width : Z)
  (buffer : Buffer) (sels : list Selection) : Buffer :=
  match indent_sels indent_empty buffer sels with
  | [] => buffer
  | lines => insert (indent_string indent_width) lines buffer
  end.

(** The scan of one line by [deindent], from [column] with [width] columns
    of blanks seen: the last column to erase, if any.  The tab stop is a
    positive number of columns: with a tab stop of 0 the division of the
    source is undefined, where [Z.quot] gives 0. *)
Fixpoint deindent_scan (tabstop indent_width : Z) (deindent_incomplete : bool)
  (content : string) (column width : Z) : option Z :=
  match content with
  | EmptyString => None
  | String c rest =>
      if Ascii.eqb c tab then
        let width := (Z.quot width tabstop + 1) * tabstop in
        if width =? indent_width then Some column
        else deindent_scan tabstop indent_width deindent_incomplete rest
               (column + 1) width
      else if Ascii.eqb c space then
        let width := width + 1 in
        if width =? indent_width then Some column
        else deindent_scan tabstop indent_width deindent_incomplete rest
               (column + 1) width
      else if deindent_incomplete && negb (width =? 0) then Some (column - 1)
      else None
  end.

(** The selections [deindent] gathers: on every line, the leading blanks to
    erase. *)
Definition deindent_sels (deindent_incomplete : bool) (tabstop indent_width : Z)
  (buffer : Buffer) (sels : list Selection) : list Selection :=
  let indent_width := if indent_width =? 0 then tabstop else indent_width in
  each_line_once
    (fun l =>
       match deindent_scan tabstop indent_width deindent_incomplete
               (line_at buffer l) 0 0 with
       | Some column => [on_line l column]
       | None => []
       end)
    0 sels.

(** deindent<deindent_incomplete>(context, params) *)
Definition deindent `{!Edits} (deindent_incomplete : bool)
  (tabstop indent_width : Z) (buffer : Buffer) (sels : list Selection)
  : Buffer :=
  match deindent_sels deindent_incomplete tabstop indent_width buffer sels with
  | [] => buffer
  | blanks => erase blanks buffer
  end.

(** The display width of a run of blanks that starts a line, counted as the
    scan counts it. *)
Fixpoint blank_width (tabstop : Z) (blanks : string) (width : Z) : Z :=
  match blanks with
  | EmptyString => width
  | String c rest =>
      blank_width tabstop rest
        (if Ascii.eqb c tab then (Z.quot width tabstop + 1) * tabstop
         else width + 1)
  end.

Definition is_blank (c : ascii) : bool := Ascii.eqb c tab || Ascii.eqb c space.

Fixpoint all_blank (str : string) : bool :=
  match str with
  | EmptyString => true
  | String c rest => is_blank c && all_blank rest
  end.

(** is_horizontal_blank belongs to the unicode helpers. *)
Class Unicode : Type := { is_horizontal_blank : ascii -> bool }.

Section CopyIndent.

Context `{!Unicode}.

(** while (i < line.length() and is_horizontal_blank(line[i])) ++i *)
Fixpoint blank_length (line : string) : nat :=
  match line with
  | EmptyString => 0%nat
  | String c rest => if is_horizontal_blank c then S (blank_length rest) else 0%nat
  end.

(** line.substr(0_byte, i), with [i] the length of the leading blanks *)
Definition indent_of (line : string) : string :=
  substring 0 (blank_length line) line.

(** What is left of a line once its leading blanks are erased. *)
Definition text_of (line : string) : string :=
  substring (blank_length line) (String.length line - blank_length line) line.

(** The first loop of [copy_indent]: every line of every selection, a line
    as many times as selections touch it. *)
Definition all_lines (sels : list Selection) : list Z :=
  flat_map (fun sel => seqZ (line (sel_min sel))
                            (line (sel_max sel) + 1 - line (sel_min sel)))
           sels.

(** buffer.erase(iterator_at(l), iterator_at({l, i})) and then
    buffer.insert(iterator_at(l), indent): the leading blanks of line [l]
    make way for [indent]. *)
Definition set_indent (indent : string) (buffer : Buffer) (l : Z) : Buffer :=
  <[Z.to_nat l := String.append indent (text_of (line_at buffer l))]> buffer.

(** The line [copy_indent] reads the indentation from: that of the
    selection the count names, of the main selection without a count. *)
Definition ref_line (count : Z) (selections : SelectionList) : Z :=
  let selection :=
    if count =? 0 then Z.of_nat (main_index selections) + 1 else count in
  line (sel_min (nth (Z.to_nat (selection - 1))
                     (Selections.selections selections) default_selection)).

(** The value of an int once converted to size_t, as the comparison of
    [selection] with selections.size() converts it: a negative int becomes
    a value above every int. *)
Definition to_size_t (n : Z) : Z := n mod 2 ^ 64.

(** copy_indent(context, params), with [count] the numeric prefix. *)
Definition copy_indent (count : Z) (buffer : Buffer)
  (selections : SelectionList) : outcome unit * Buffer :=
  let lines := all_lines (Selections.selections selections) in
  if Z.of_nat (size selections) <? to_size_t count
  then (Throw (runtime_error "invalid selection index"), buffer)
  else
    let ref_line := ref_line count selections in
    let indent := indent_of (line_at buffer ref_line) in
    (Return tt,
     fold_left (fun buffer l =>
                  if l =? ref_line then buffer else set_indent indent buffer l)
               lines buffer).

End CopyIndent.

(** The bytes of the buffer and the columns they are displayed at. *)
Class Text : Type := {
  (** the bytes from buffer.iterator_at(sel.min()) to
      buffer.iterator_at(sel.max()), the latter included, each with
      it.coord() *)
  bytes : Buffer -> Selection -> list (ByteCoord * ascii);
  (** get_column(buffer, tabstop, coord) *)
  get_column : Buffer -> Z -> ByteCoord -> Z
}.

Section Tabs.

Context `{!Text} `{!Edits}.

(** const CharCount tabstop = params.count == 0 ? opt_tabstop : params.count *)
Definition tabstop_for (opt_tabstop count : Z) : Z :=
  if count =? 0 then opt_tabstop else count.

(** The tabs of the selections, each with the spaces to put in its place
    (the source keeps the two in parallel vectors). *)
Definition tabs_and_spaces (opt_tabstop count : Z) (buffer : Buffer)
  (sels : list Selection) : list (Selection * string) :=
  let tabstop := tabstop_for opt_tabstop count in
  flat_map
    (fun sel =>
       flat_map
         (fun it : ByteCoord * ascii =>
            if Ascii.eqb (snd it) tab then
              let col := get_column buffer opt_tabstop (fst it) in
              let end_col := (Z.quot col tabstop + 1) * tabstop in
              [(mkSel (fst it) (fst it) [], make_string space (end_col - col))]
            else [])
         (bytes buffer sel))
    sels.

(** tabs_to_spaces(context, params) *)
Definition tabs_to_spaces (opt_tabstop count : Z) (buffer : Buffer)
  (sels : list Selection) : Buffer :=
  let found := tabs_and_spaces opt_tabstop count buffer sels in
  match found with
  | [] => buffer
  | _ => replace (map snd found) (map fst found) buffer
  end.

End Tabs.

(** Blanks for the examples: the space and the tab. *)
Definition ascii_blanks : Unicode := {| is_horizontal_blank := is_blank |}.

Definition demo_buffer : Buffer :=
  [ String tab (String "a" (String "010" EmptyString));
    String space (String space (String "b" (String "010" EmptyString)));
    String "c" (String "010" EmptyString);
    String "010" EmptyString ].

(** A text for the examples: a selection walks the whole of its first
    line, and a byte is displayed at its own column. *)
Fixpoint coords_from (l column : Z) (str : string) : list (ByteCoord * ascii) :=
  match str with
  | EmptyString => []
  | String c rest => (mkCoord l column, c) :: coords_from l (column + 1) rest
  end.

Definition demo_text : Text := {|
  bytes := fun buffer sel =>
    coords_from (line (sel_min sel)) 0 (line_at buffer (line (sel_min sel)));
  get_column := fun _ _ coord => column coord
|}.

(** One selection on line 0, and one over lines 1 and 2. *)
Definition demo_selections : SelectionList :=
  mkList [ mkSel (mkCoord 0 1) (mkCoord 0 1) [];
           mkSel (mkCoord 1 0) (mkCoord 2 0) [] ] 0.

End Indent.

(* ================================================================== *)
(** ** utf8::iterator: bytes walked by code points *)
(* ================================================================== *)

Module Utf8.

Local Open Scope Z_scope.

(** The functions of utf8.hh the adapter calls, on byte positions:
    utf8::next(it, Iterator{}), utf8::previous(it, Iterator{}) and
    utf8::codepoint<InvalidPolicy>(it, Iterator{}). *)
Class Encoding : Type := {
  next : Z -> Z;
  previous : Z -> Z;
  codepoint : Z -> Z
}.

(** The adapter: the position in the bytes, and the code point read there
    last, -1 when it has not been read. *)
Record iterator : Type := mkIterator { m_it : Z; m_value : Z }.

(** iterator(Iterator it), which make_iterator calls *)
Definition make_iterator (it : Z) : iterator := mkIterator it (-1).

Section Iterator.

Context `{!Encoding}.

(** invalidate_value() *)
Definition invalidate_value (it : iterator) : iterator :=
  mkIterator (m_it it) (-1).

(** operator++ *)
Definition incr (it : iterator) : iterator :=
  invalidate_value (mkIterator (next (m_it it)) (m_value it)).

(** operator-- *)
Definition decr (it : iterator) : iterator :=
  invalidate_value (mkIterator (previous (m_it it)) (m_value it)).

(** while (count--) ++res, for a count that is not negative *)
Fixpoint forward (count : nat) (res : iterator) : iterator :=
  match count with
  | O => res
  | S count => forward count (incr res)
  end.

(** while (count--) --res, for a count that is not negative *)
Fixpoint backward (count : nat) (res : iterator) : iterator :=
  match count with
  | O => res
  | S count => backward count (decr res)
  end.

(** operator+(CharCount count); a negative count is handed to operator-,
    which finds it positive and loops. *)
Definition plus (it : iterator) (count : Z) : iterator :=
  if count <? 0 then backward (Z.to_nat (- count)) it
  else forward (Z.to_nat count) it.

(** operator-(CharCount count) *)
Definition minus (it : iterator) (count : Z) : iterator :=
  if count <? 0 then forward (Z.to_nat (- count)) it
  else backward (Z.to_nat count) it.

(** The loop of advance: one step forward while the iterator differs from
    [end] and the count, decremented at every test, was positive; [count]
    rounds are left. *)
Fixpoint advance_loop (count : nat) (it end_ : iterator) : iterator :=
  match count with
  | O => it
  | S count =>
      if m_it it =? m_it end_ then it else advance_loop count (incr it) end_
  end.

(** advance(count, end) *)
Definition advance (it : iterator) (count : Z) (end_ : iterator) : iterator :=
  advance_loop (Z.to_nat count) it end_.

(** operator-(iterator other): the loop
      while (other.m_it < m_it) { ++dist; ++other; }
    The loop ends when [other] reaches the position; [fuel] bounds the
    rounds, and no answer is given when it runs out. *)
Fixpoint distance_loop (fuel : nat) (it other : iterator) (dist : Z)
  : option Z :=
  if m_it other <? m_it it then
    match fuel with
    | O => None
    | S fuel => distance_loop fuel it (incr other) (dist + 1)
    end
  else Some dist.

Definition distance (fuel : nat) (it other : iterator) : option Z :=
  distance_loop fuel it other 0.

(** get_value(): the code point at the position, read if the cache holds
    none; the iterator afterwards holds it. *)
Definition get_value (it : iterator) : Z * iterator :=
  if m_value it =? -1
  then (codepoint (m_it it), mkIterator (m_it it) (codepoint (m_it it)))
  else (m_value it, it).

(** The dereference operator *)
Definition deref (it : iterator) : Z := fst (get_value it).

(** The iterators a program can hold: made by make_iterator, then moved
    and read through the operators. *)
Inductive built : iterator -> Prop :=
| built_make (it : Z) : built (make_iterator it)
| built_incr (it : iterator) : built it -> built (incr it)
| built_decr (it : iterator) : built it -> built (decr it)
| built_plus (it : iterator) (count : Z) : built it -> built (plus it count)
| built_minus (it : iterator) (count : Z) : built it -> built (minus it count)
| built_advance (it end_ : iterator) (count : Z) :
    built it -> built (advance it count end_)
| built_read (it : iterator) : built it -> built (snd (get_value it)).

End Iterator.

(** Plain ASCII text: every byte is a character, its own code point. *)
Definition ascii_text : Encoding := {|
  next := Z.succ;
  previous := Z.pred;
  codepoint := fun it => 65 + it
|}.

End Utf8.

(* ================================================================== *)
(** ** Rotation of the selections and of their contents *)
(* ================================================================== *)

Module Rotate.

Local Open Scope Z_scope.

(** std::rotate(it, end - count, end) on the elements from [it] to [end]:
    the last [count] of them come first. *)
Definition rotate_group {A : Type} (count : nat) (group : list A) : list A :=
  drop (length group - count) group ++ take (length group - count) group.

(** The loop of rotate_selections_content: from [it], the next [group]
    strings (those left, when fewer are left) are rotated, and [it] moves
    past them.  [fuel] bounds the rounds. *)
Fixpoint rotate_groups {A : Type} (fuel : nat) (group count : nat)
  (strings : list A) : option (list A) :=
  match strings with
  | [] => Some []
  | _ =>
      match fuel with
      | O => None
      | S fuel =>
          rest ← rotate_groups fuel group count (drop group strings);
          Some (rotate_group count (take group strings) ++ rest)
      end
  end.

(** if (group == 0 or group > (int)strings.size()) group = (int)strings.size() *)
Definition group_size (count : Z) (size : nat) : Z :=
  if (count =? 0) || (Z.of_nat size <? count) then Z.of_nat size else count.

(** The strings after the loop, for the numeric prefix [count]. *)
Definition rotated {A : Type} (count : Z) (strings : list A) : option (list A) :=
  let group := group_size count (length strings) in
  let count := Z.rem 1 group in
  rotate_groups (length strings) (Z.to_nat group) (Z.to_nat count) strings.

(** What the two commands ask of the context and its selection list. *)
Class Content (Context : Type) : Type := {
  (** context.selections_content() *)
  selections_content : Context -> list string;
  (** context.selections().insert(strings, InsertMode::Replace) *)
  insert : list string -> Context -> Context;
  (** context.selections().rotate_main(count) *)
  rotate_main : Z -> Context -> Context
}.

Section Commands.

Context {Context : Type} `{!Content Context}.

(** rotate_selections(context, params) *)
Definition rotate_selections (count : Z) (context : Context) : Context :=
  rotate_main (if negb (count =? 0) then count else 1) context.

(** rotate_selections_content(context, params) *)
Definition rotate_selections_content (count : Z) (context : Context)
  : option Context :=
  let strings := selections_content context in
  let group := group_size count (length strings) in
  strings ← rotated count strings;
  Some (rotate_main (Z.rem 1 group) (insert strings context)).

End Commands.

End Rotate.

(* ================================================================== *)
(** ** split_lines: one selection per line *)
(* ================================================================== *)

Module SplitLines.

Import Selections.

Local Open Scope Z_scope.

Class Lines (Buffer : Type) : Type := {
  (** buffer[line].length() *)
  line_length : Buffer -> Z -> Z;
  (** keep_direction(res, ref), of the selectors *)
  keep_direction : Selection -> Selection -> Selection
}.

Section Command.

Context {Buffer : Type} `{!Lines Buffer}.

(** What the loop pushes on [res] for one selection. *)
Definition pieces (buffer : Buffer) (sel : Selection) : list Selection :=
  if line (anchor sel) =? line (cursor sel) then [sel]
  else
    let min := sel_min sel in
    let max := sel_max sel in
    [keep_direction
       (mkSel min (mkCoord (line min) (line_length buffer (line min) - 1)) [])
       sel]
    ++ map (fun l =>
              keep_direction
                (mkSel (mkCoord l 0) (mkCoord l (line_length buffer l - 1)) [])
                sel)
           (seqZ (line min + 1) (line max - (line min + 1)))
    ++ [keep_direction (mkSel (mkCoord (line max) 0) max []) sel].

(** split_lines(context, params): the vector the selections are assigned. *)
Definition split_lines (buffer : Buffer) (sels : list Selection)
  : list Selection :=
  flat_map (pieces buffer) sels.

End Command.

(** The selection the other way round. *)
Definition flipped (sel : Selection) : Selection :=
  mkSel (cursor sel) (anchor sel) (captures sel).

(** Lines of five bytes, and a keep_direction that turns the result the way
    the reference runs. *)
Definition five_bytes : Lines unit := {|
  line_length := fun _ _ => 5;
  keep_direction := fun res ref =>
    if Bool.eqb (coord_ltb (cursor res) (anchor res))
                (coord_ltb (cursor ref) (anchor ref))
    then res else flipped res
|}.

End SplitLines.

(* ================================================================== *)
(** ** The selection as search pattern *)
(* ================================================================== *)

Module SearchPattern.

Import Prompt.

(** The text under a selection and the word boundaries around it, which
    the command reads through buffer iterators and is_word. *)
Class Words (Buffer : Type) : Type := {
  (** String{begin.base(), end.base()}, from the first byte of the
      selection to the end of its last character *)
  text : Buffer -> Selections.Selection -> string;
  (** begin is the start of the buffer, or a word character that follows a
      character which is none *)
  at_word_start : Buffer -> Selections.Selection -> bool;
  (** end is the end of the buffer, or follows a word character and is on
      a character which is none *)
  at_word_end : Buffer -> Selections.Selection -> bool
}.

Section Command.

Context {Buffer : Type} `{!Words Buffer}.

(** The pattern built for one selection: its text between \Q and \E, and in
    the smart variant a \b on each side that is a word boundary. *)
Definition pattern (smart : bool) (buffer : Buffer) (sel : Selections.Selection)
  : string :=
  let content :=
    String.append "\Q" (String.append (text buffer sel) "\E") in
  if smart then
    let content :=
      if at_word_start buffer sel then String.append "\b" content
      else content in
    if at_word_end buffer sel then String.append content "\b" else content
  else content.

(** use_selection_as_search_pattern<smart>(context, params) *)
Definition use_selection_as_search_pattern (smart : bool) : M Buffer unit :=
  modify (fun c =>
    with_register slash
      (map (pattern smart (buffer c)) (Selections.selections (selections c)))
      c).

End Command.

(** Words for the examples: the text of a selection is the number of its
    line, and every selection stands on a whole word. *)
Definition demo_words : Words Z := {|
  text := fun _ sel =>
    if (Selections.line (Selections.cursor sel) =? 0)%Z then "0" else "1";
  at_word_start := fun _ _ => true;
  at_word_end := fun _ _ => true
|}.

End SearchPattern.

(* ================================================================== *)
(** ** Letter case: to_lower, to_upper, swap_case *)
(* ================================================================== *)

Module Case.

Local Open Scope Z_scope.

(** toupper, as the C locale defines it: the counterpart of
    [Macro.tolower]. *)
Definition toupper (c : Z) : Z :=
  if (97 <=? c) && (c <=? 122) then c - 32 else c.

Definition to_lower (cp : Z) : Z := Macro.tolower cp.
Definition to_upper (cp : Z) : Z := toupper cp.

Definition swap_case (cp : Z) : Z :=
  let res := Macro.tolower cp in
  if res =? cp then toupper cp else res.

(** c = func(c) on a byte of a String: the byte is handed over as a code
    point, and the result is stored as a byte. *)
Definition on_byte (func : Z -> Z) (c : ascii) : ascii :=
  ascii_of_N (Z.to_N (func (Z.of_N (N_of_ascii c)) mod 256)).

(** for (auto& c : sel) c = func(c) *)
Fixpoint on_bytes (func : Z -> Z) (sel : string) : string :=
  match sel with
  | EmptyString => EmptyString
  | String c rest => String (on_byte func c) (on_bytes func rest)
  end.

Section Command.

Variable Context : Type.
(** context.selections_content() *)
Variable selections_content : Context -> list string.
(** context.selections().insert(sels, InsertMode::Replace), inside a scoped
    edition *)
Variable insert : list string -> Context -> Context.

(** for_each_char<func>(context, params) *)
Definition for_each_char (func : Z -> Z) (context : Context) : Context :=
  insert (map (on_bytes func) (selections_content context)) context.

End Command.

Arguments for_each_char {Context} selections_content insert func context.

End Case.

(* ================================================================== *)
(** ** align: the selections of a column end at the same display column *)
(* ================================================================== *)

Module Align.

Import Selections.

Local Open Scope Z_scope.

Definition multi_line : exn :=
  runtime_error "align cannot work with multi line selections".

(** if (column >= columns.size()) columns.resize(column+1);
    columns[column].push_back(&sel)
    The columns hold pointers into the selection list: here, the indices of
    the selections. *)
Definition push_in_column (column : nat) (sel : nat) (columns : list (list nat))
  : list (list nat) :=
  let columns :=
    if (length columns <=? column)%nat
    then columns ++ replicate (column + 1 - length columns)%nat []
    else columns in
  alter (fun col => col ++ [sel]) column columns.

(** The first loop of [align], from the selection of index [index] on:
    [last_line] and [column] are the line and the column of the selection
    before it. *)
Fixpoint group_columns (sels : list Selection) (index : nat) (last_line : Z)
  (column : nat) (columns : list (list nat)) : outcome (list (list nat)) :=
  match sels with
  | [] => Return columns
  | sel :: rest =>
      let l := line (cursor sel) in
      if negb (line (anchor sel) =? l) then Throw multi_line
      else
        let column := if l =? last_line then S column else O in
        group_columns rest (S index) l column (push_in_column column index columns)
  end.

(** The padding that brings the cursor of a selection from display column
    [lastcol] to [maxcol], inserted where the selection starts, at display
    column [inscol]. *)
Definition padding (use_tabs : bool) (tabstop maxcol lastcol inscol : Z)
  : string :=
  if negb use_tabs then Indent.make_string Indent.space (maxcol - lastcol)
  else
    let targetcol := maxcol - (lastcol - inscol) in
    let tabcol := inscol - Z.rem inscol tabstop in
    let tabs := Z.quot (targetcol - tabcol) tabstop in
    let spaces :=
      targetcol - (if negb (tabs =? 0) then tabcol + tabs * tabstop else inscol) in
    String.append (Indent.make_string Indent.tab tabs)
                  (Indent.make_string Indent.space spaces).

Class Columns (Buffer : Type) : Type := {
  (** get_column(buffer, tabstop, coord) *)
  get_column : Buffer -> Z -> ByteCoord -> Z;
  (** buffer.insert(buffer.iterator_at(coord), str) *)
  insert_at : ByteCoord -> string -> Buffer -> Buffer;
  (** selections.update() *)
  update : Buffer -> SelectionList -> SelectionList
}.

Section Command.

Context {Buffer : Type} `{!Columns Buffer}.

(** The body of the second loop for one column: the largest cursor column
    first, then the padding of every selection of the column.  The
    selections are read through the pointers, from the list as it is. *)
Definition pad_column (use_tabs : bool) (tabstop : Z) (col : list nat)
  (buffer : Buffer) (selections : SelectionList) : Buffer :=
  let sel i := nth i (Selections.selections selections) default_selection in
  let maxcol :=
    fold_left (fun maxcol i =>
                 Z.max (get_column buffer tabstop (cursor (sel i))) maxcol)
              col 0 in
  fold_left
    (fun buffer i =>
       let insert_coord := sel_min (sel i) in
       let lastcol := get_column buffer tabstop (cursor (sel i)) in
       let inscol := get_column buffer tabstop insert_coord in
       insert_at insert_coord (padding use_tabs tabstop maxcol lastcol inscol)
         buffer)
    col buffer.

(** align(context, params) *)
Definition align (use_tabs : bool) (tabstop : Z) (buffer : Buffer)
  (selections : SelectionList)
  : outcome unit * (Buffer * SelectionList) :=
  match group_columns (Selections.selections selections) 0 (-1) 0 [] with
  | Throw e => (Throw e, (buffer, selections))
  | Return columns =>
      (Return tt,
       fold_left
         (fun state col =>
            let buffer := pad_column use_tabs tabstop col (fst state) (snd state) in
            (buffer, update buffer (snd state)))
         columns (buffer, selections))
  end.

End Command.

(** The line of the selection a pointer of a column leads to. *)
Definition line_of (sels : list Selection) (i : nat) : Z :=
  line (cursor (nth i sels default_selection)).

(** Two selections on line 0 and one on line 1. *)
Definition three_selections : list Selection :=
  [ mkSel (mkCoord 0 0) (mkCoord 0 1) [];
    mkSel (mkCoord 0 3) (mkCoord 0 4) [];
    mkSel (mkCoord 1 0) (mkCoord 1 2) [] ].

(** Columns for the examples: a byte is displayed at its own column, and
    the buffer counts the bytes inserted. *)
Definition demo_columns : Columns Z := {|
  get_column := fun _ _ coord => column coord;
  insert_at := fun _ str buffer => buffer + Z.of_nat (String.length str);
  update := fun _ selections => selections
|}.

End Align.

(* ================================================================== *)
(** ** Repeated: a command run count times *)
(* ================================================================== *)

Module Repeat.

Import Prompt.

Section Repeated.

Context {Buffer : Type}.

(** Repeated<T>::operator()(context, params), inside its scoped edition:
      do { m_func(context, {0, params.reg}); } while(--params.count > 0);
    [func] is given the count and the register of its NormalParams. *)
Definition repeated (func : Z -> ascii -> M Buffer unit) (count : Z)
  (reg : ascii) : M Buffer unit :=
  do_while (extra_rounds count) (func 0%Z reg).

End Repeated.

(** A command for the examples: it pushes the selections on the jump list,
    as many times as its count says, once without a count. *)
Definition demo_save (count : Z) (_ : ascii) : M Z unit :=
  times (Z.to_nat (Z.max 1 count)) (modify with_jump).

End Repeat.

(* ################################################################## *)
(** * Part II: the properties *)
(* ################################################################## *)

(* ================================================================== *)
(** ** The invariants of the selection list across [select] *)
(* ================================================================== *)

Module SelectionFacts.

Import Selections.

(** *** Order facts on coordinates *)

Lemma coord_ltb_spec (a b : ByteCoord) : reflect (coord_lt a b) (coord_ltb a b).
Proof.
  unfold coord_lt, coord_ltb.
  destruct (Z.ltb_spec0 (line a) (line b)), (Z.eqb_spec (line a) (line b)),
    (Z.ltb_spec0 (column a) (column b)); simpl; constructor; lia.
Qed.

Lemma coord_leb_spec (a b : ByteCoord) : reflect (coord_le a b) (coord_leb a b).
Proof.
  unfold coord_le, coord_leb.
  destruct (coord_ltb_spec b a); simpl; constructor; tauto.
Qed.

(** Case analysis on every coordinate comparison in sight, then linear
    arithmetic on lines and columns. *)
Ltac coord_split :=
  repeat match goal with
    | |- context [coord_ltb ?a ?b] => destruct (coord_ltb_spec a b)
    | H : context [coord_ltb ?a ?b] |- _ => destruct (coord_ltb_spec a b)
    end.

Ltac coord_arith :=
  unfold coord_le, coord_lt in *;
  repeat match goal with
    | c : ByteCoord |- _ => destruct c
    end;
  simpl in *;
  first [ lia | f_equal; lia | discriminate ].

Ltac coord_solve :=
  unfold overlaps, coord_leb, sel_min, sel_max, coord_min, coord_max in *;
  simpl in *; coord_split; try reflexivity; try discriminate; coord_arith.

Lemma coord_le_refl (a : ByteCoord) : coord_le a a.
Proof. coord_arith. Qed.

Lemma coord_le_trans (a b c : ByteCoord) :
  coord_le a b -> coord_le b c -> coord_le a c.
Proof. intros. coord_arith. Qed.

Lemma coord_lt_le_trans (a b c : ByteCoord) :
  coord_lt a b -> coord_le b c -> coord_lt a c.
Proof. intros. coord_arith. Qed.

Lemma coord_lt_le (a b : ByteCoord) : coord_lt a b -> coord_le a b.
Proof. intros. coord_arith. Qed.

Lemma sel_min_le_max (s : Selection) : coord_le (sel_min s) (sel_max s).
Proof. destruct s as [a c k]. coord_solve. Qed.

Lemma merge_pair_min (a b : Selection) :
  coord_le (sel_min a) (sel_min b) ->
  sel_min (merge_pair a b) = sel_min a.
Proof.
  destruct a as [aa ac ak], b as [ba bc bk]. unfold merge_pair.
  intros H. coord_solve.
Qed.

Lemma not_overlaps_gap (a b : Selection) :
  coord_le (sel_min a) (sel_min b) -> overlaps a b = false ->
  coord_lt (sel_max a) (sel_min b).
Proof.
  destruct a as [aa ac ak], b as [ba bc bk]. intros H H0. coord_solve.
Qed.

Lemma gap_not_overlaps (a b : Selection) :
  coord_lt (sel_max a) (sel_min b) -> overlaps a b = false.
Proof.
  destruct a as [aa ac ak], b as [ba bc bk]. intros H. coord_solve.
Qed.

(** *** Sorting *)

Lemma insert_by_min_Forall (P : Selection -> Prop) s l :
  P s -> Forall P l -> Forall P (insert_by_min s l).
Proof.
  intros Hs Hl. induction Hl as [|x l' Hx Hl' IH]; simpl.
  - constructor; [exact Hs | constructor].
  - destruct (coord_ltb (sel_min x) (sel_min s)); repeat constructor; assumption.
Qed.

Lemma insert_by_min_sorted s l :
  ascending_by_min l -> ascending_by_min (insert_by_min s l).
Proof.
  unfold ascending_by_min. intros Hl.
  induction Hl as [|x l' Hl' IH Hx]; simpl.
  - repeat constructor.
  - destruct (coord_ltb_spec (sel_min x) (sel_min s)) as [Hlt|Hge].
    + constructor; [exact IH |].
      apply insert_by_min_Forall; [apply coord_lt_le, Hlt | exact Hx].
    + constructor; [constructor; assumption |].
      constructor; [exact Hge |].
      eapply List.Forall_impl; [| exact Hx]. simpl.
      intros y Hy. eapply coord_le_trans; [exact Hge | exact Hy].
Qed.

Lemma sort_by_min_sorted l : ascending_by_min (sort_by_min l).
Proof.
  induction l as [|s l IH]; simpl.
  - constructor.
  - apply insert_by_min_sorted, IH.
Qed.

Lemma insert_by_min_length s l : length (insert_by_min s l) = S (length l).
Proof.
  induction l as [|x l IH]; simpl; [reflexivity |].
  destruct (coord_ltb (sel_min x) (sel_min s)); simpl; congruence.
Qed.

Lemma sort_by_min_length l : length (sort_by_min l) = length l.
Proof.
  induction l as [|s l IH]; simpl; [reflexivity |].
  rewrite insert_by_min_length. congruence.
Qed.

(** *** The main index across the sort *)

Lemma count_before_le mb mi i l : count_before mb mi i l <= length l.
Proof.
  revert i. induction l as [|s l IH]; intros i; simpl; [lia |].
  specialize (IH (S i)).
  destruct (coord_ltb (sel_min s) mb); [lia |].
  destruct (coord_ltb mb (sel_min s)); [lia |].
  destruct (i <? mi); lia.
Qed.

Lemma count_before_lt mb mi i l d :
  i <= mi -> mi < i + length l -> sel_min (nth (mi - i) l d) = mb ->
  count_before mb mi i l < length l.
Proof.
  revert i. induction l as [|s l IH]; intros i Hi Hlen Hmb; simpl in *; [lia |].
  destruct (Nat.eq_dec mi i) as [->|Hne].
  - rewrite Nat.sub_diag in Hmb. subst mb.
    pose proof (count_before_le (sel_min s) i (S i) l) as Hle.
    destruct (coord_ltb_spec (sel_min s) (sel_min s)) as [Hlt|_];
      [exfalso; clear - Hlt; coord_arith |].
    rewrite Nat.ltb_irrefl. lia.
  - assert (Hstep : sel_min (nth (mi - S i) l d) = mb).
    { replace (mi - i) with (S (mi - S i)) in Hmb by lia. exact Hmb. }
    specialize (IH (S i) ltac:(lia) ltac:(lia) Hstep).
    destruct (coord_ltb (sel_min s) mb); [lia |].
    destruct (coord_ltb mb (sel_min s)); [lia |].
    destruct (i <? mi); lia.
Qed.

(** *** The merge pass *)

Lemma merge_from_main cur i rest m :
  m < i + 1 + length rest ->
  snd (merge_from cur i rest m) < i + length (fst (merge_from cur i rest m)).
Proof.
  revert cur i m. induction rest as [|s rest IH]; intros cur i m Hm; simpl in *.
  - lia.
  - destruct (overlaps cur s).
    + apply IH. destruct (Nat.ltb_spec i m); lia.
    + specialize (IH s (S i) m ltac:(lia)).
      destruct (merge_from s (S i) rest m) as [out m']. simpl in *. lia.
Qed.

Lemma merge_from_min cur i rest m :
  ascending_by_min (cur :: rest) ->
  Forall (fun o => coord_le (sel_min cur) (sel_min o))
    (fst (merge_from cur i rest m)).
Proof.
  unfold ascending_by_min.
  revert cur i m. induction rest as [|s rest IH]; intros cur i m Hs; simpl.
  - repeat constructor. apply coord_le_refl.
  - apply StronglySorted_inv in Hs as [Hrest Hcur].
    pose proof (Forall_inv Hcur) as Hcs.
    pose proof (Forall_inv_tail Hcur) as Hcrest.
    apply StronglySorted_inv in Hrest as [Hrest' Hsrest].
    destruct (overlaps cur s).
    + rewrite <- (merge_pair_min cur s Hcs). apply IH.
      constructor; [exact Hrest' |].
      rewrite (merge_pair_min cur s Hcs). exact Hcrest.
    + specialize (IH s (S i) m ltac:(constructor; assumption)).
      destruct (merge_from s (S i) rest m) as [out m']. simpl in *.
      constructor; [apply coord_le_refl |].
      eapply List.Forall_impl; [| exact IH]. simpl.
      intros o Ho. eapply coord_le_trans; [exact Hcs | exact Ho].
Qed.

Lemma merge_from_separated cur i rest m :
  ascending_by_min (cur :: rest) ->
  StronglySorted strictly_before (fst (merge_from cur i rest m)).
Proof.
  unfold ascending_by_min.
  revert cur i m. induction rest as [|s rest IH]; intros cur i m Hs; simpl.
  - repeat constructor.
  - pose proof Hs as Hs0.
    apply StronglySorted_inv in Hs as [Hrest Hcur].
    pose proof (Forall_inv Hcur) as Hcs.
    pose proof (Forall_inv_tail Hcur) as Hcrest.
    destruct (overlaps cur s) eqn:Hov.
    + apply IH. apply StronglySorted_inv in Hrest as [Hrest' Hsrest].
      constructor; [exact Hrest' |].
      rewrite (merge_pair_min cur s Hcs). exact Hcrest.
    + pose proof (merge_from_min s (S i) rest m Hrest) as Hmin.
      specialize (IH s (S i) m Hrest).
      destruct (merge_from s (S i) rest m) as [out m']. simpl in *.
      constructor; [exact IH |].
      eapply List.Forall_impl; [| exact Hmin]. simpl.
      intros o Ho. unfold strictly_before.
      eapply coord_lt_le_trans; [| exact Ho].
      apply not_overlaps_gap; assumption.
Qed.

Lemma separated_ascending l :
  StronglySorted strictly_before l -> ascending_by_min l.
Proof.
  unfold ascending_by_min. intros H.
  induction H as [|a l Hl IH Ha]; constructor; [exact IH |].
  eapply List.Forall_impl; [| exact Ha]. simpl.
  intros b Hb. unfold strictly_before in Hb.
  pose proof (sel_min_le_max a). coord_arith.
Qed.

Lemma separated_disjoint l :
  StronglySorted strictly_before l -> pairwise_disjoint l.
Proof.
  unfold pairwise_disjoint. intros H.
  induction H as [|a l Hl IH Ha]; constructor; [| exact IH].
  eapply List.Forall_impl; [| exact Ha]. simpl.
  intros b Hb. apply gap_not_overlaps, Hb.
Qed.

(** *** The invariants after sort_and_merge_overlapping *)

Lemma sort_and_merge_invariant l :
  usable l -> invariant (sort_and_merge_overlapping l).
Proof.
  intros [Hne Hmain]. unfold sort_and_merge_overlapping, size in *.
  pose proof (sort_by_min_sorted (selections l)) as Hsorted.
  pose proof (sort_by_min_length (selections l)) as Hlen.
  assert (Hm : count_before (sel_min (main l)) (main_index l) 0 (selections l)
               < length (selections l)).
  { apply count_before_lt with (d := default_selection); [lia | lia |].
    rewrite Nat.sub_0_r. reflexivity. }
  set (m := count_before _ _ _ _) in *.
  destruct (sort_by_min (selections l)) as [|s rest].
  - simpl in Hlen. lia.
  - simpl in Hlen.
    pose proof (merge_from_main s 0 rest m ltac:(lia)) as Hmain'.
    pose proof (merge_from_separated s 0 rest m Hsorted) as Hsep.
    destruct (merge_from s 0 rest m) as [out m']. simpl in *.
    split; simpl.
    + intros ->. simpl in Hmain'. lia.
    + apply separated_ascending, Hsep.
    + apply separated_disjoint, Hsep.
    + exact Hmain'.
Qed.

Lemma sorted_by_minb_complete l : ascending_by_min l -> sorted_by_minb l = true.
Proof.
  unfold ascending_by_min. intros H.
  induction H as [|a l Hl IH Ha]; [reflexivity |].
  destruct l as [|b l']; [reflexivity |].
  change (sorted_by_minb (a :: b :: l'))
    with (coord_leb (sel_min a) (sel_min b) && sorted_by_minb (b :: l')).
  rewrite IH, andb_true_r.
  apply Forall_inv in Ha. destruct (coord_leb_spec (sel_min a) (sel_min b)); tauto.
Qed.

Lemma sorted_by_minb_sound l : sorted_by_minb l = true -> ascending_by_min l.
Proof.
  unfold ascending_by_min.
  induction l as [|a l IH]; intros H; [constructor |].
  destruct l as [|b l'].
  - repeat constructor.
  - change (sorted_by_minb (a :: b :: l'))
      with (coord_leb (sel_min a) (sel_min b) && sorted_by_minb (b :: l')) in H.
    apply andb_true_iff in H as [Hab Hrest].
    specialize (IH Hrest).
    constructor; [exact IH |].
    destruct (coord_leb_spec (sel_min a) (sel_min b)) as [Hle|]; [| discriminate].
    constructor; [exact Hle |].
    apply StronglySorted_inv in IH as [_ Hb].
    eapply List.Forall_impl; [| exact Hb]. simpl.
    intros c Hc. eapply coord_le_trans; [exact Hle | exact Hc].
Qed.

Lemma pairwise_disjointb_spec l : pairwise_disjointb l = true <-> pairwise_disjoint l.
Proof.
  unfold pairwise_disjoint. induction l as [|a l IH]; simpl.
  - split; [constructor | reflexivity].
  - rewrite andb_true_iff, IH, List.forallb_forall, <- List.Forall_forall.
    split.
    + intros [Ha Hl]. constructor; [| exact Hl].
      eapply List.Forall_impl; [| exact Ha]. simpl.
      intros b Hb. apply negb_true_iff, Hb.
    + intros H. inversion H as [|? ? Ha Hl]; subst. split; [| exact Hl].
      eapply List.Forall_impl; [| exact Ha]. simpl.
      intros b Hb. apply negb_true_iff, Hb.
Qed.

Lemma check_invariant_spec l : check_invariant l = true <-> invariant l.
Proof.
  unfold check_invariant. rewrite !andb_true_iff, !Nat.ltb_lt.
  split.
  - intros [[[Hsz Hmain] Hs] Hd]. split.
    + unfold size in Hsz. intros E. rewrite E in Hsz. simpl in Hsz. lia.
    + apply sorted_by_minb_sound, Hs.
    + apply pairwise_disjointb_spec, Hd.
    + exact Hmain.
  - intros [Hne Hs Hd Hmain]. repeat split.
    + lia.
    + exact Hmain.
    + apply sorted_by_minb_complete, Hs.
    + apply pairwise_disjointb_spec, Hd.
Qed.

Lemma invariant_usable l : invariant l -> usable l.
Proof. intros [Hne _ _ Hmain]. split; assumption. Qed.

(** *** The [select] envelope *)

Section SelectFacts.

Variable Buffer : Type.

Lemma apply_mode_usable mode (buffer : Buffer) func l :
  usable l -> usable (apply_mode mode buffer func l).
Proof.
  intros [Hne Hmain]. unfold usable, size in *.
  destruct mode; simpl.
  - rewrite length_map. split; [| exact Hmain].
    destruct (selections l); [congruence | discriminate].
  - rewrite length_map. split; [| exact Hmain].
    destruct (selections l); [congruence | discriminate].
  - unfold size; simpl. rewrite length_app. simpl. split; [| lia].
    destruct (selections l); discriminate.
Qed.

Lemma select_establishes_invariant mode (buffer : Buffer) func l :
  usable l ->
  select mode buffer func l
  = Some (sort_and_merge_overlapping (apply_mode mode buffer func l))
  /\ invariant (sort_and_merge_overlapping (apply_mode mode buffer func l)).
Proof.
  intros Hl.
  pose proof (sort_and_merge_invariant _ (apply_mode_usable mode buffer func l Hl))
    as Hinv.
  split; [| exact Hinv].
  unfold select. apply check_invariant_spec in Hinv. rewrite Hinv. reflexivity.
Qed.

(** C1. Every sequence of commands dispatched through [select], in any of
    the modes Replace, Extend and Append and with any per-selection
    function, runs to its end from a list that satisfies the invariants:
    each step applies the function, then sort_and_merge_overlapping, then
    check_invariant, no check fails, and the final list is non-empty,
    ascending by min(), pairwise non-overlapping and has its main index in
    range.  A single [select] establishes the invariants from any list that
    is non-empty and has its main index in range. *)
Theorem select_envelope_invariant (buffer : Buffer)
  (ops : list (SelectMode * (Buffer -> Selection -> Selection)))
  (sels : SelectionList) :
  invariant sels ->
  (forall mode func l,
      select mode buffer func l
      = let l' := sort_and_merge_overlapping (apply_mode mode buffer func l) in
        if check_invariant l' then Some l' else None)
  /\ (forall mode func l,
        usable l ->
        exists l', select mode buffer func l = Some l' /\ invariant l')
  /\ exists sels', select_sequence buffer ops sels = Some sels' /\ invariant sels'.
Proof.
  intros Hinv. split; [reflexivity |]. split.
  { intros mode func l Hl.
    destruct (select_establishes_invariant mode buffer func l Hl) as [E Hinv'].
    eauto. }
  revert sels Hinv. induction ops as [|[mode func] ops IH]; intros sels Hinv; simpl.
  - exists sels. split; [reflexivity | exact Hinv].
  - destruct (select_establishes_invariant mode buffer func sels
                (invariant_usable _ Hinv)) as [-> Hinv'].
    apply IH, Hinv'.
Qed.

End SelectFacts.

Example select_extend_merges :
  select Extend tt three_right two_selections
  = Some {| selections := [ mkSel (mkCoord 0 0) (mkCoord 0 9) [] ];
            main_index := 0 |}.
Proof. reflexivity. Qed.

Lemma select_envelope_invariant_witness :
  invariant two_selections
  /\ exists sels',
      select_sequence tt [(Extend, three_right); (Append, next_line)] two_selections
      = Some sels' /\ invariant sels'.
Proof.
  split.
  - apply check_invariant_spec. reflexivity.
  - apply (proj2 (proj2 (select_envelope_invariant unit tt
                           [(Extend, three_right); (Append, next_line)]
                           two_selections
                           (proj1 (check_invariant_spec two_selections)
                              eq_refl)))).
Defined.

End SelectionFacts.

(* ================================================================== *)
(** ** The mode of a paste *)
(* ================================================================== *)

Module PasteFacts.

Import Paste.

Lemma effective_mode_exists mode strings :
  effective_mode mode strings
  = if existsb ends_with_eol strings then adapt_for_linewise mode else mode.
Proof.
  induction strings as [|str rest IH]; simpl; [reflexivity |].
  destruct (ends_with_eol str); simpl; [reflexivity | exact IH].
Qed.

Lemma effective_mode_first mode pre str post :
  forallb (fun s => negb (ends_with_eol s)) pre = true ->
  ends_with_eol str = true ->
  effective_mode mode (pre ++ str :: post) = adapt_for_linewise mode.
Proof.
  intros Hpre Hstr. induction pre as [|p pre IH]; simpl in *.
  - rewrite Hstr. reflexivity.
  - apply andb_true_iff in Hpre as [Hp Hpre].
    apply negb_true_iff in Hp. rewrite Hp. apply IH, Hpre.
Qed.

Lemma effective_mode_all_exists mode acc strings :
  effective_mode_all mode acc strings
  = if existsb ends_with_eol strings then adapt_for_linewise mode else acc.
Proof.
  revert acc. induction strings as [|str rest IH]; intros acc; simpl;
    [reflexivity |].
  rewrite IH. destruct (ends_with_eol str); simpl; [| reflexivity].
  destruct (existsb ends_with_eol rest); reflexivity.
Qed.

(** C3, as amended. The mode of a paste is decided once for the whole
    command and handed to a single [insert]: when some value ends with a line
    terminator it is [adapt_for_linewise mode], fixed by the first such value
    whatever follows it, otherwise the command's own mode.  Append becomes
    InsertAtNextLineBegin and Insert becomes InsertAtLineBegin, both at a
    line start; Replace stays Replace. *)
Theorem paste_linewise_mode (Context Register : Type)
  (values : Register -> Context -> list string)
  (insert : list string -> InsertMode -> Context -> Context)
  (mode : InsertMode) (reg : Register) (context : Context) :
  let strings := values reg context in
  paste values insert mode reg context
  = insert strings
      (if existsb ends_with_eol strings then adapt_for_linewise mode else mode)
      context
  /\ (forall pre str post,
         strings = pre ++ str :: post ->
         forallb (fun s => negb (ends_with_eol s)) pre = true ->
         ends_with_eol str = true ->
         effective_mode mode strings = adapt_for_linewise mode)
  /\ (existsb ends_with_eol strings = false ->
      effective_mode mode strings = mode)
  /\ adapt_for_linewise Append = InsertAtNextLineBegin
  /\ adapt_for_linewise Insert = InsertAtLineBegin
  /\ adapt_for_linewise Replace = Replace
  /\ at_line_start (adapt_for_linewise Append) = true
  /\ at_line_start (adapt_for_linewise Insert) = true.
Proof.
  intros strings. repeat split.
  - unfold paste. fold strings. rewrite effective_mode_exists. reflexivity.
  - intros pre str post -> Hpre Hstr.
    apply effective_mode_first; assumption.
  - intros H. rewrite effective_mode_exists, H. reflexivity.
Qed.

(** C3 as the specification words it fails for the replace variant: a value that
    ends with a line terminator leaves the mode at Replace, which does not
    place the text at a line start. *)
Lemma paste_replace_stays_charwise :
  ends_with_eol one_line = true
  /\ effective_mode Replace [one_line] = Replace
  /\ at_line_start (effective_mode Replace [one_line]) = false.
Proof. repeat split. Qed.

Example paste_append_linewise :
  effective_mode Append ["ab"%string; one_line; "cd"%string] = InsertAtNextLineBegin.
Proof. reflexivity. Qed.

Example paste_insert_charwise :
  effective_mode Insert ["ab"%string; "cd"%string] = Insert.
Proof. reflexivity. Qed.

(** X2. [paste_all] goes through every value without stopping at the first
    one that ends a line, and yet inserts in the very mode [paste] would. *)
Theorem paste_all_same_mode (mode : InsertMode) (strings : list string) :
  effective_mode_all mode mode strings = effective_mode mode strings.
Proof. rewrite effective_mode_all_exists, effective_mode_exists. reflexivity. Qed.

End PasteFacts.

(* ================================================================== *)
(** ** Regex prompts: errors, snapshots, keep, the search register *)
(* ================================================================== *)

Module PromptFacts.

Import Prompt.

Section HandlerFacts.

Context {Buffer : Type} `{!Collaborators Buffer}.

Ltac run :=
  unfold regex_prompt_callback, regex_prompt_catch, regex_prompt_try,
    search_next, search_func, next_match_step, select_regex_func,
    split_regex_func,
    keep_func, keep_pipe_callback, pattern_or_register, make_regex,
    on_selections_result, on_selections, show_regex_error,
    try_catch, when, throw, get, modify, mbind, M_bind, mret, M_ret in *;
  simpl in *.

(** No event but Validate lets an exception out of the callback. *)
Lemma regex_prompt_callback_returns func snapshot str event c :
  event <> Validate ->
  fst (regex_prompt_callback func snapshot str event c) = Return tt.
Proof.
  intros Hev. run.
  destruct event; [| congruence |]; simpl.
  - destruct (Paste.empty str || negb (incsearch c)); simpl; [reflexivity |].
    destruct (Paste.empty str); simpl.
    + destruct (func no_regex Change _) as [[[]|[w|w|w]] c']; reflexivity.
    + destruct (regex_error str) as [w|]; simpl; [reflexivity |].
      destruct (func (compiled str) Change _) as [[[]|[w|w|w]] c']; reflexivity.
  - destruct (has_ui c); reflexivity.
Qed.

(** C4. A regex error met while handling a prompt event, be it the
    RegexError of a pattern that does not compile or a std::runtime_error
    of the matcher, raised before or inside the operation: on a Change event
    the callback returns normally and only the prompt face (with the info box
    for a matcher error) tells of it; on a Validate event the callback throws
    a runtime_error carrying "regex error: " and the message.  An Abort
    event meets no such error. *)
Theorem regex_prompt_error_asymmetry (func : Regex -> PromptEvent -> M Buffer unit)
  (snapshot : Selections.SelectionList) (str : string) (c : Context Buffer)
  (what : string) :
  (forall event e c',
      e = RegexError what \/ e = std_runtime_error what ->
      regex_prompt_try func (update (buffer c) snapshot) str event
        (if negb (is_change event) && has_ui c then with_info None c else c)
      = (Throw e, c') ->
      match event with
      | Change =>
          exists c'',
            regex_prompt_callback func snapshot str Change c
            = (Return tt, (update (buffer c) snapshot, c''))
            /\ prompt_face c'' = ErrorFace
            /\ selections c'' = selections c'
      | Validate =>
          regex_prompt_callback func snapshot str Validate c
          = (Throw (runtime_error (regex_error_message what)),
             (update (buffer c) snapshot, c'))
      | Abort => False
      end)
  /\ (Paste.empty str = false -> regex_error str = Some what ->
      fst (regex_prompt_callback func snapshot str Validate c)
      = Throw (runtime_error (regex_error_message what))
      /\ (incsearch c = true ->
          fst (regex_prompt_callback func snapshot str Change c) = Return tt
          /\ prompt_face (snd (snd (regex_prompt_callback func snapshot str Change c)))
             = ErrorFace)).
Proof.
  split.
  - intros event e c' He Htry.
    destruct event; cbn [is_change negb andb] in Htry.
    + unfold regex_prompt_callback, try_catch.
      cbn [is_change negb andb]. cbv zeta. rewrite Htry.
      destruct He as [-> | ->]; simpl.
      * eexists. split; [reflexivity |]. split; reflexivity.
      * eexists. split; [reflexivity |].
        unfold modify, show_regex_error. simpl.
        destruct (has_ui c'); split; reflexivity.
    + unfold regex_prompt_callback, try_catch.
      cbn [is_change negb andb]. cbv zeta.
      replace (buffer (if has_ui c then with_info None c else c))
        with (buffer c) by (destruct (has_ui c); reflexivity).
      rewrite Htry.
      destruct He as [-> | ->]; reflexivity.
    + run. destruct (has_ui c); discriminate.
  - intros Hstr Hre. run. rewrite Hstr, Hre. simpl.
    split.
    + destruct (has_ui c); reflexivity.
    + intros ->. simpl. split; reflexivity.
Qed.

(** X1. While the user is typing, and when the prompt is aborted, an
    exception of one of the three classes the callback has a catch clause
    for (RegexError, std::runtime_error and the editor's runtime_error, the
    exceptions of [exn]) does not leave the callback: it returns.  After a
    runtime_error of the editor's own, such as "no selections remaining",
    the selections are again the captured ones. *)
Theorem regex_prompt_swallows_while_typing (func : Regex -> PromptEvent -> M Buffer unit)
  (snapshot : Selections.SelectionList) (str : string) (c : Context Buffer) :
  fst (regex_prompt_callback func snapshot str Change c) = Return tt
  /\ fst (regex_prompt_callback func snapshot str Abort c) = Return tt
  /\ (forall what c',
        regex_prompt_try func (update (buffer c) snapshot) str Change c
        = (Throw (runtime_error what), c') ->
        regex_prompt_callback func snapshot str Change c
        = (Return tt,
           (update (buffer c) snapshot,
            with_selections (update (buffer c) snapshot) c'))).
Proof.
  split; [| split].
  - apply regex_prompt_callback_returns. discriminate.
  - apply regex_prompt_callback_returns. discriminate.
  - intros what c' Htry. unfold regex_prompt_callback, try_catch.
    cbn [is_change negb andb]. cbv zeta. rewrite Htry. reflexivity.
Qed.

(** C5. The callback works from the copy of the selections it captured when
    the prompt opened, brought up to date with the buffer: what it does never
    depends on the selections the context holds when the event arrives (the
    result of a previous preview), the operation always runs on the captured
    copy, and an Abort event leaves exactly that copy as the selections.  A
    session of keystrokes closed by Abort therefore ends on the captured copy,
    carried forward by [update]; where [update] has nothing to change, on the
    very list that was captured. *)
Theorem regex_prompt_restores_snapshot (func : Regex -> PromptEvent -> M Buffer unit)
  (snapshot : Selections.SelectionList) (str : string) (event : PromptEvent)
  (c : Context Buffer) :
  (forall preview,
      regex_prompt_callback func snapshot str event (with_selections preview c)
      = regex_prompt_callback func snapshot str event c)
  /\ regex_prompt_callback func snapshot str event c
     = regex_prompt_callback
         (fun ex ev c' =>
            func ex ev (with_selections (update (buffer c) snapshot) c'))
         snapshot str event c
  /\ (exists c',
        regex_prompt_callback func snapshot str Abort c
        = (Return tt, (update (buffer c) snapshot, c'))
        /\ selections c' = update (buffer c) snapshot)
  /\ (forall keys,
        (forall b, update b snapshot = snapshot) ->
        exists c',
          prompt_session func snapshot
            (map (fun key => (key, Change)) keys ++ [(str, Abort)]) c
          = (Return tt, (snapshot, c'))
          /\ selections c' = snapshot).
Proof.
  split; [| split; [| split]].
  - intros preview. run.
    destruct (negb (is_change event) && has_ui c); reflexivity.
  - run. destruct event; simpl; try reflexivity.
    + destruct (Paste.empty str || negb (incsearch c)); [reflexivity |].
      destruct (Paste.empty str); [reflexivity |].
      destruct (regex_error str); reflexivity.
    + destruct (has_ui c), (Paste.empty str); simpl; try reflexivity;
        destruct (regex_error str); reflexivity.
  - run. destruct (has_ui c); eexists; split; reflexivity.
  - intros keys Hup. revert c.
    induction keys as [|key keys IH]; intros c; simpl.
    + run. rewrite Hup. destruct (has_ui c); eexists; split; reflexivity.
    + pose proof (regex_prompt_callback_returns func snapshot key Change c
                    ltac:(discriminate)) as Hret.
      assert (Hsnap : fst (snd (regex_prompt_callback func snapshot key Change c))
                      = snapshot).
      { unfold regex_prompt_callback. simpl.
        destruct (try_catch _ _ _). simpl. apply Hup. }
      destruct (regex_prompt_callback func snapshot key Change c)
        as [o [snapshot' c']].
      simpl in Hret, Hsnap. subst o snapshot'. apply IH.
Qed.

(** C2. [keep<matching>], given a pattern, and [keep_pipe], on validation,
    filter the selections; when nothing passes the filter they throw
    "no selections remaining" and leave the context as it was, and when
    something does the filtered selections are assigned as the new selection
    set.  Through the prompt, on the Validate event of a pattern that
    compiles, the error reaches the caller and the selections are the ones
    captured when the prompt opened. *)
Theorem keep_fails_or_replaces (matching : bool) (pattern cmdline : string)
  (event : PromptEvent) (snapshot : Selections.SelectionList) (c : Context Buffer) :
  (kept matching (compiled pattern) c = [] ->
   keep_func matching (compiled pattern) event c
   = (Throw (runtime_error "no selections remaining"), c))
  /\ (kept matching (compiled pattern) c <> [] ->
      keep_func matching (compiled pattern) event c
      = (Return tt,
         with_selections (assign (kept matching (compiled pattern) c)) c))
  /\ (kept_pipe cmdline c = [] ->
      keep_pipe_callback cmdline Validate c
      = (Throw (runtime_error "no selections remaining"), c))
  /\ (kept_pipe cmdline c <> [] ->
      keep_pipe_callback cmdline Validate c
      = (Return tt, with_selections (assign (kept_pipe cmdline c)) c))
  /\ (Paste.empty pattern = false -> regex_error pattern = None ->
      let c1 := at_validation snapshot c in
      selections c1 = update (buffer c) snapshot
      /\ (kept matching (compiled pattern) c1 = [] ->
          regex_prompt_callback (keep_func matching) snapshot pattern Validate c
          = (Throw (runtime_error "no selections remaining"),
             (update (buffer c) snapshot, c1)))
      /\ (kept matching (compiled pattern) c1 <> [] ->
          regex_prompt_callback (keep_func matching) snapshot pattern Validate c
          = (Return tt,
             (update (buffer c) snapshot,
              with_selections (assign (kept matching (compiled pattern) c1)) c1)))).
Proof.
  split; [| split; [| split; [| split]]].
  - intros H. run. rewrite H. reflexivity.
  - intros H. run. destruct (kept matching (compiled pattern) c);
      [congruence | reflexivity].
  - intros H. run. rewrite H. reflexivity.
  - intros H. run. destruct (kept_pipe cmdline c); [congruence | reflexivity].
  - intros Hp Hre c1. subst c1. unfold at_validation.
    split; [destruct (has_ui c); reflexivity |].
    split; intros Hk; run; rewrite Hp, Hre; simpl;
      destruct (has_ui c); simpl in *;
      destruct (kept matching (compiled pattern) _);
      congruence || reflexivity.
Qed.

(** C9, as amended. For search, select_regex and split_regex: with no
    pattern entered the operation runs as if the content of the "/" register
    had been entered (and the register is left as it is); an entered pattern
    is written to the "/" register on a Validate event; and when the register
    too gives an empty pattern the operation returns without touching the
    context.  [keep] does none of this: with no pattern entered it returns
    at once, and it never writes the register. *)
Theorem empty_pattern_reuses_search_register (op : RegisterOperation)
  (matching : bool) (pattern : string) (event : PromptEvent) (c : Context Buffer) :
  (regex_error (main_sel_register_value slash c) = None ->
   operation_func op no_regex event c
   = operation_func op (compiled (main_sel_register_value slash c)) Change c)
  /\ registers (snd (operation_func op (compiled pattern) Validate c)) !! slash
     = Some [pattern]
  /\ (main_sel_register_value slash c = EmptyString ->
      regex_error EmptyString = None ->
      operation_func op no_regex event c = (Return tt, c))
  /\ keep_func matching no_regex event c = (Return tt, c)
  /\ registers (snd (keep_func matching (compiled pattern) event c))
     = registers c.
Proof.
  split; [| split; [| split; [| split]]].
  - intros H.
    destruct op;
      unfold operation_func, search_func, select_regex_func, split_regex_func,
        pattern_or_register, make_regex, get, mbind, M_bind;
      cbn [regex_empty is_validate when]; rewrite H; reflexivity.
  - destruct op; cbn [operation_func]; run;
      destruct (usable_pattern (compiled pattern)); simpl;
      try apply lookup_insert_eq.
    + destruct (select_next_match _ _ _ _ _); simpl. apply lookup_insert_eq.
    + destruct (select_all_matches _ _ _); simpl; apply lookup_insert_eq.
    + destruct (split_selections _ _ _); simpl; apply lookup_insert_eq.
  - intros Hreg Hre.
    destruct op;
      unfold operation_func, search_func, select_regex_func, split_regex_func,
        pattern_or_register, make_regex, get, mbind, M_bind;
      cbn [regex_empty]; rewrite Hreg, Hre; reflexivity.
  - reflexivity.
  - run. destruct (kept matching (compiled pattern) c); reflexivity.
Qed.

Lemma do_while_times (n : nat) (body : M Buffer unit) (c : Context Buffer) :
  do_while n body c = times (S n) body c.
Proof.
  revert c. induction n as [|n IH]; intros c.
  - simpl. unfold mbind, M_bind, mret, M_ret.
    destruct (body c) as [[[]|e] c']; reflexivity.
  - change (do_while (S n) body c) with ((body ;; do_while n body) c).
    change (times (S (S n)) body c) with ((body ;; times (S n) body) c).
    unfold mbind, M_bind.
    destruct (body c) as [[[]|e] c']; [apply IH | reflexivity].
Qed.

Lemma bind_get {A : Type} (f : Context Buffer -> M Buffer A) c : (get ≫= f) c = f c c.
Proof. reflexivity. Qed.

Lemma bind_ret {A B : Type} (a : A) (f : A -> M Buffer B) c : (mret a ≫= f) c = f a c.
Proof. reflexivity. Qed.

Lemma rounds_of_count (count : Z) :
  S (extra_rounds count) = Z.to_nat (Z.max 1 count).
Proof. unfold extra_rounds. lia. Qed.

(** C10, as amended. [search_next] reads the "/" register: when it gives
    the empty string the command throws "no search pattern" and the context
    is as before; when its pattern does not compile the command throws
    "regex error: " with the message, again with the context as before;
    otherwise the next-match step runs max(1, count) times in a row (once
    when no count was given, which is count 0), a step that throws ending
    the command. *)
Theorem search_next_repeats (mode : Selections.SelectMode)
  (direction : Direction) (count : Z) (c : Context Buffer) :
  (Paste.empty (main_sel_register_value slash c) = true ->
   search_next mode direction count c
   = (Throw (runtime_error "no search pattern"), c))
  /\ (forall what,
        Paste.empty (main_sel_register_value slash c) = false ->
        regex_error (main_sel_register_value slash c) = Some what ->
        search_next mode direction count c
        = (Throw (runtime_error (regex_error_message what)), c))
  /\ (Paste.empty (main_sel_register_value slash c) = false ->
      regex_error (main_sel_register_value slash c) = None ->
      search_next mode direction count c
      = try_catch
          (times (Z.to_nat (Z.max 1 count))
             (next_match_step mode direction
                (compiled (main_sel_register_value slash c))))
          rethrow_regex_error c).
Proof.
  unfold search_next. rewrite bind_get.
  split; [| split].
  - intros ->. reflexivity.
  - intros what -> Hre. cbn [negb].
    unfold try_catch, make_regex. rewrite Hre. reflexivity.
  - intros -> Hre. cbn [negb].
    unfold try_catch, make_regex. rewrite Hre, bind_ret.
    rewrite do_while_times, rounds_of_count. reflexivity.
Qed.

End HandlerFacts.

Example keep_matching_line_0 :
  keep_func true (compiled "0") Validate demo_context
  = (Return tt,
     with_selections (Selections.mkList [on_line 0] 0) demo_context).
Proof. vm_compute. reflexivity. Qed.

Example keep_nothing_left :
  regex_prompt_callback (keep_func true) (selections demo_context) "9" Validate
    demo_context
  = (Throw (runtime_error "no selections remaining"),
     (selections demo_context,
      at_validation (selections demo_context) demo_context)).
Proof. vm_compute. reflexivity. Qed.

Lemma keep_fails_or_replaces_witness :
  keep_func true (compiled "9") Validate demo_context
  = (Throw (runtime_error "no selections remaining"), demo_context)
  /\ keep_func false (compiled "0") Validate demo_context
     = (Return tt,
        with_selections (assign (kept false (compiled "0") demo_context))
          demo_context)
  /\ kept false (compiled "0") demo_context = [on_line 1].
Proof.
  split; [| split].
  - apply (keep_fails_or_replaces true "9" "true" Validate
             (selections demo_context) demo_context).
    reflexivity.
  - apply (keep_fails_or_replaces false "0" "true" Validate
             (selections demo_context) demo_context).
    discriminate.
  - reflexivity.
Defined.

Lemma regex_prompt_error_asymmetry_witness :
  fst (regex_prompt_callback (keep_func true) (selections demo_context) "("
         Validate demo_context)
  = Throw (runtime_error "regex error: unmatched parenthesis")
  /\ fst (regex_prompt_callback (keep_func true) (selections demo_context) "("
            Change demo_context)
     = Return tt
  /\ prompt_face
       (snd (snd (regex_prompt_callback (keep_func true)
                    (selections demo_context) "(" Change demo_context)))
     = ErrorFace.
Proof.
  destruct (proj2 (@regex_prompt_error_asymmetry Z demo_world (keep_func true)
                     (selections demo_context) "(" demo_context
                     "unmatched parenthesis")
              eq_refl eq_refl) as [Hvalidate Hchange].
  split; [exact Hvalidate | exact (Hchange eq_refl)].
Defined.

Example matcher_error_on_change :
  regex_prompt_callback demo_too_complex (selections demo_context) "a" Change
    demo_context
  = (Return tt,
     (selections demo_context,
      mkContext 3%Z (selections demo_context) (registers demo_context)
        ErrorFace (Some ("regex error"%string, "too complex"%string)) [] true true)).
Proof. vm_compute. reflexivity. Qed.

Example keep_preview_nothing_left :
  regex_prompt_callback (keep_func true) (selections demo_context) "9" Change
    demo_context
  = (Return tt, (selections demo_context, demo_context)).
Proof. vm_compute. reflexivity. Qed.

Lemma regex_prompt_swallows_while_typing_witness :
  regex_prompt_callback (keep_func true) (selections demo_context) "9" Change
    demo_context
  = (Return tt,
     (update (buffer demo_context) (selections demo_context),
      with_selections (update (buffer demo_context) (selections demo_context))
        demo_context)).
Proof.
  apply (proj2 (proj2 (@regex_prompt_swallows_while_typing Z demo_world
                         (keep_func true) (selections demo_context) "9"
                         demo_context))
           "no selections remaining"%string demo_context).
  reflexivity.
Defined.

Example matcher_error_on_validate :
  fst (regex_prompt_callback demo_too_complex (selections demo_context) "a"
         Validate demo_context)
  = Throw (runtime_error "regex error: too complex").
Proof. vm_compute. reflexivity. Qed.

Lemma regex_prompt_restores_snapshot_witness :
  exists c',
    prompt_session (search_func Selections.Replace Forward)
      (selections demo_context)
      (map (fun key => (key, Change)) ["1"%string; "("%string; "10"%string]
       ++ [("10"%string, Abort)])
      demo_context
    = (Return tt, (selections demo_context, c'))
    /\ selections c' = selections demo_context.
Proof.
  apply (regex_prompt_restores_snapshot (search_func Selections.Replace Forward)
           (selections demo_context) "10" Abort demo_context).
  reflexivity.
Defined.

(** A keystroke moves the selections in preview. *)
Example search_preview_moves :
  Selections.selections
    (selections
       (snd (snd (regex_prompt_callback (search_func Selections.Replace Forward)
                    (selections demo_context) "1" Change demo_context))))
  = [ Selections.mkSel (Selections.mkCoord 1 0) (Selections.mkCoord 1 0) [];
      Selections.mkSel (Selections.mkCoord 2 0) (Selections.mkCoord 2 0) [] ].
Proof. vm_compute. reflexivity. Qed.

Lemma empty_pattern_reuses_search_register_witness :
  search_func Selections.Replace Forward no_regex Validate demo_context
  = search_func Selections.Replace Forward (compiled "0") Change demo_context
  /\ main_sel_register_value slash demo_context = "0"%string.
Proof.
  split; [| reflexivity].
  apply (empty_pattern_reuses_search_register
           (search_op Selections.Replace Forward) true "0" Validate demo_context).
  reflexivity.
Defined.

(** C9 as the specification words it fails for [keep]: with no pattern entered the
    selections stay as they are although the "/" register holds "0", a
    pattern that would keep the first selection only; and a validated
    pattern is not written to the register. *)
Lemma keep_ignores_search_register :
  main_sel_register_value slash demo_context = "0"%string
  /\ keep_func true no_regex Validate demo_context = (Return tt, demo_context)
  /\ Selections.selections (selections demo_context) = [on_line 0; on_line 1]
  /\ Selections.selections
       (selections (snd (keep_func true (compiled "0") Validate demo_context)))
     = [on_line 0]
  /\ registers (snd (keep_func true (compiled "1") Validate demo_context)) !! slash
     = Some ["0"%string]
  /\ selections (snd (keep_func true no_regex Validate demo_context))
     <> selections (snd (keep_func true (compiled "0") Validate demo_context)).
Proof. vm_compute. repeat split; try reflexivity. discriminate. Qed.

Lemma search_next_repeats_witness :
  search_next Selections.Replace Forward 2 demo_context
  = try_catch
      (times (Z.to_nat (Z.max 1 2))
         (next_match_step Selections.Replace Forward (compiled "0")))
      rethrow_regex_error demo_context
  /\ fst (search_next Selections.Replace Forward 2 demo_context)
     = Throw (runtime_error "no matches found").
Proof.
  split; [| vm_compute; reflexivity].
  apply (search_next_repeats Selections.Replace Forward 2 demo_context);
    reflexivity.
Defined.

(** C10 read to the letter fails when no count is given (count 0): the
    next match is still selected once, where zero steps would leave the
    selections as they are. *)
Lemma search_next_without_count :
  search_next Selections.Replace Forward 0 demo_context
  = next_match_step Selections.Replace Forward (compiled "0") demo_context
  /\ Selections.selections
       (selections (snd (search_next Selections.Replace Forward 0 demo_context)))
     = [ Selections.mkSel (Selections.mkCoord 1 0) (Selections.mkCoord 1 0) [];
         Selections.mkSel (Selections.mkCoord 2 0) (Selections.mkCoord 2 0) [] ]
  /\ times (Z.to_nat 0) (next_match_step Selections.Replace Forward (compiled "0"))
       demo_context
     = (Return tt, demo_context)
  /\ Selections.selections (selections demo_context) = [on_line 0; on_line 1]
  /\ selections (snd (search_next Selections.Replace Forward 0 demo_context))
     <> selections
          (snd (times (Z.to_nat 0)
                  (next_match_step Selections.Replace Forward (compiled "0"))
                  demo_context)).
Proof. vm_compute. repeat split; try reflexivity. discriminate. Qed.

End PromptFacts.

(* ================================================================== *)
(** ** Macro replay: the guard, termination, recursion *)
(* ================================================================== *)

Module MacroFacts.

Import Macro.

Local Open Scope Z_scope.

Section ReplayFacts.

Context {World : Type} `{!Commands World}.

(** *** The guard is restored on every exit *)

Lemma guard_released (l : list bool) (idx : nat) :
  default false (l !! idx) = false ->
  <[idx := false]> (<[idx := true]> l) = l.
Proof.
  intros Hidle. rewrite list_insert_insert_eq.
  destruct (l !! idx) as [b|] eqn:E; simpl in Hidle.
  - subst b. apply list_insert_id, E.
  - apply list_insert_ge, lookup_ge_None, E.
Qed.

Lemma do_while_restores n (exec : State World -> Result) :
  restores exec -> restores (do_while n exec).
Proof.
  intros Hexec. induction n as [|n IH]; intros st o st' H; simpl in H.
  - destruct (exec st) as [[[[]|e] st1]|] eqn:E; inversion H; subst;
      eapply Hexec; eassumption.
  - destruct (exec st) as [[[[]|e] st1]|] eqn:E.
    + rewrite (IH _ _ _ H). eapply Hexec; eassumption.
    + inversion H; subst. eapply Hexec; eassumption.
    + discriminate.
Qed.

Lemma replay_next_key_restores (exec : list Key -> State World -> Result) count k :
  (forall keys, restores (exec keys)) -> restores (replay_next_key exec count k).
Proof.
  intros Hexec st o st' H. unfold replay_next_key in H.
  destruct (no_modifiers k && is_basic_alpha (key k)); [| congruence].
  destruct (is_running (macro_index k) st) eqn:Hrun; [congruence |].
  destruct (reg_values _ _) as [|reg_val vals]; [congruence |].
  destruct (do_while _ _ _) as [[o1 st1]|] eqn:Hloop; [| discriminate].
  inversion H; subst. simpl.
  apply (do_while_restores _ _ (Hexec _)) in Hloop. simpl in Hloop.
  rewrite Hloop. apply guard_released, Hrun.
Qed.

Lemma handle_key_restores (exec : list Key -> State World -> Result) k :
  (forall keys, restores (exec keys)) -> restores (handle_key exec k).
Proof.
  intros Hexec st o st' H. unfold handle_key in H.
  destruct (mode st) as [count|count].
  - destruct (no_modifiers k && is_digit (key k)); [inversion H; reflexivity |].
    destruct (no_modifiers k && (key k =? 113)); [inversion H; reflexivity |].
    destruct (other_command k count (world st)) as [o1 w].
    inversion H; reflexivity.
  - apply (replay_next_key_restores _ _ _ Hexec) in H. exact H.
Qed.

Lemma run_keys_restores (step : Key -> State World -> Result) keys :
  (forall k, restores (step k)) -> restores (run_keys step keys).
Proof.
  intros Hstep. induction keys as [|k keys IH]; intros st o st' H; simpl in H.
  - inversion H; reflexivity.
  - destruct (step k st) as [[[[]|e] st1]|] eqn:E.
    + rewrite (IH _ _ _ H). eapply Hstep; eassumption.
    + inversion H; subst. eapply Hstep; eassumption.
    + discriminate.
Qed.

Lemma exec_keys_restores fuel keys :
  restores (exec_keys (World := World) fuel keys).
Proof.
  revert keys. induction fuel as [|fuel IH]; intros keys st o st' H; simpl in H.
  - discriminate.
  - eapply run_keys_restores; [| exact H].
    intros k. apply handle_key_restores, IH.
Qed.

(** *** Replay comes to an end *)

Lemma idle_insert_true (l : list bool) (idx : nat) :
  l !! idx = Some false -> (S (idle (<[idx := true]> l)) = idle l)%nat.
Proof.
  unfold idle. revert idx. induction l as [|b l IH]; intros idx H.
  - discriminate.
  - destruct idx as [|idx]; simpl in *.
    + inversion H; subst. reflexivity.
    + destruct b; simpl; rewrite <- (IH idx H); reflexivity.
Qed.

Lemma macro_index_bound (k : Key) :
  is_basic_alpha (key k) = true -> (macro_index k < 26)%nat.
Proof.
  unfold is_basic_alpha, macro_index, tolower. intros H.
  destruct (Z.leb_spec 65 (key k)), (Z.leb_spec (key k) 90),
    (Z.leb_spec 97 (key k)), (Z.leb_spec (key k) 122);
    simpl in *; try discriminate; lia.
Qed.

Lemma do_while_ends n (exec : State World -> Result) st (P : State World -> Prop) :
  (forall st, P st -> exists r, exec st = Some r) ->
  (forall st o st', P st -> exec st = Some (o, st') -> P st') ->
  P st -> exists r, do_while n exec st = Some r.
Proof.
  intros Hends Hkeeps. revert st. induction n as [|n IH]; intros st HP; simpl.
  - destruct (Hends st HP) as [[[[]|e] st1] E]; rewrite E; eauto.
  - destruct (Hends st HP) as [[[[]|e] st1] E]; rewrite E; [| eauto].
    apply IH. eapply Hkeeps; eassumption.
Qed.

Lemma replay_next_key_ends fuel count k (st : State World) :
  (forall keys st, within fuel st -> exists r, exec_keys fuel keys st = Some r) ->
  within (S fuel) st ->
  exists r, replay_next_key (exec_keys fuel) count k st = Some r.
Proof.
  intros Hexec [Hlen Hidle]. unfold replay_next_key.
  destruct (no_modifiers k && is_basic_alpha (key k)) eqn:Hk; [| eauto].
  apply andb_true_iff in Hk as [_ Halpha].
  pose proof (macro_index_bound k Halpha) as Hidx.
  destruct (is_running (macro_index k) st) eqn:Hrun; [eauto |].
  destruct (reg_values _ _) as [|reg_val vals]; [eauto |].
  set (st2 := with_running _ st).
  assert (Hst2 : within fuel st2).
  { unfold within, st2. simpl. rewrite length_insert. split; [exact Hlen |].
    unfold is_running in Hrun.
    destruct (running_macros st !! macro_index k) as [b|] eqn:E.
    - simpl in Hrun. subst b. pose proof (idle_insert_true _ _ E). lia.
    - apply lookup_ge_None in E. lia. }
  destruct (do_while_ends (extra_rounds count) (exec_keys fuel (parse_keys reg_val))
              st2 (within fuel)) as [[o st'] E]; [| | exact Hst2 |].
  - intros st0 H0. apply Hexec, H0.
  - intros st0 o st' [Hl Hi] E. apply exec_keys_restores in E.
    unfold within. rewrite E. split; assumption.
  - rewrite E. eauto.
Qed.

Lemma exec_keys_ends fuel keys (st : State World) :
  within fuel st -> exists r, exec_keys fuel keys st = Some r.
Proof.
  revert keys st. induction fuel as [|fuel IH]; intros keys st Hst.
  - destruct Hst as [_ H]. lia.
  - simpl. revert st Hst. induction keys as [|k keys IHkeys]; intros st Hst; simpl.
    + eauto.
    + assert (Hstep : exists r, handle_key (exec_keys fuel) k st = Some r).
      { unfold handle_key. destruct (mode st) as [count|count].
        - destruct (no_modifiers k && is_digit (key k)); [eauto |].
          destruct (no_modifiers k && (key k =? 113)); [eauto |].
          destruct (other_command k count (world st)); eauto.
        - apply replay_next_key_ends; [| exact Hst].
          intros keys0 st0 H0. apply IH, H0. }
      destruct Hstep as [[[[]|e] st1] E]; rewrite E; [| eauto].
      apply IHkeys.
      apply (handle_key_restores _ _ (exec_keys_restores fuel)) in E.
      destruct Hst as [Hl Hi]. unfold within. rewrite E. split; assumption.
Qed.

(** *** More fuel changes nothing *)

Lemma do_while_extends n (exec exec' : State World -> Result) :
  extends exec exec' -> extends (do_while n exec) (do_while n exec').
Proof.
  intros Hext. induction n as [|n IH]; intros st r H; simpl in *.
  - destruct (exec st) as [[[[]|e] st1]|] eqn:E; [| | discriminate];
      rewrite (Hext _ _ E); exact H.
  - destruct (exec st) as [[[[]|e] st1]|] eqn:E; [| | discriminate];
      rewrite (Hext _ _ E); [apply IH |]; exact H.
Qed.

Lemma replay_next_key_extends (exec exec' : list Key -> State World -> Result)
  count k :
  (forall keys, extends (exec keys) (exec' keys)) ->
  extends (replay_next_key exec count k) (replay_next_key exec' count k).
Proof.
  intros Hext st r H. unfold replay_next_key in *.
  destruct (no_modifiers k && is_basic_alpha (key k)); [| exact H].
  destruct (is_running (macro_index k) st); [exact H |].
  destruct (reg_values _ _) as [|reg_val vals]; [exact H |].
  destruct (do_while _ (exec _) _) as [[o st1]|] eqn:E; [| discriminate].
  rewrite (do_while_extends _ _ _ (Hext _) _ _ E). exact H.
Qed.

Lemma handle_key_extends (exec exec' : list Key -> State World -> Result) k :
  (forall keys, extends (exec keys) (exec' keys)) ->
  extends (handle_key exec k) (handle_key exec' k).
Proof.
  intros Hext st r H. unfold handle_key in *.
  destruct (mode st) as [count|count]; [exact H |].
  eapply replay_next_key_extends; eassumption.
Qed.

Lemma run_keys_extends (step step' : Key -> State World -> Result) keys :
  (forall k, extends (step k) (step' k)) ->
  extends (run_keys step keys) (run_keys step' keys).
Proof.
  intros Hext. induction keys as [|k keys IH]; intros st r H; simpl in *.
  - exact H.
  - destruct (step k st) as [[[[]|e] st1]|] eqn:E; [| | discriminate];
      rewrite (Hext _ _ _ E); [apply IH |]; exact H.
Qed.

Lemma exec_keys_more_fuel fuel keys :
  extends (exec_keys (World := World) fuel keys) (exec_keys (S fuel) keys).
Proof.
  revert keys. induction fuel as [|fuel IH]; intros keys st r H.
  - discriminate.
  - change (exec_keys (S (S fuel)) keys st)
      with (run_keys (handle_key (exec_keys (S fuel))) keys st).
    eapply run_keys_extends; [| exact H].
    intros k. apply handle_key_extends, IH.
Qed.

(** *** A macro that comes back to itself *)

Lemma lower_named (a : Z) :
  lower a ->
  no_modifiers (named a) && is_basic_alpha (key (named a)) = true
  /\ tolower (key (named a)) = a
  /\ (macro_index (named a) < 26)%nat.
Proof.
  unfold lower, named, is_basic_alpha, macro_index, tolower. simpl. intros H.
  destruct (Z.leb_spec 65 a), (Z.leb_spec a 90),
    (Z.leb_spec 97 a), (Z.leb_spec a 122); simpl; repeat split; lia.
Qed.

Lemma replay_running exec count a (st : State World) :
  lower a -> is_running (macro_index (named a)) st = true ->
  replay_next_key exec count (named a) st = Some (Throw recursive_call, st).
Proof.
  intros Ha Hrun. destruct (lower_named a Ha) as [Hk _].
  unfold replay_next_key. rewrite Hk, Hrun. reflexivity.
Qed.

Lemma is_running_insert (l : list bool) (i j : nat) (m : InputMode) (w : World) :
  default false (l !! i) = true \/ (i = j /\ (j < length l)%nat) ->
  is_running i (mkState (<[j := true]> l) m w) = true.
Proof.
  unfold is_running. simpl. intros [H | [-> Hj]].
  - destruct (decide (j = i)) as [->|Hne].
    + destruct (l !! i) eqn:E; [| discriminate].
      rewrite list_lookup_insert_eq; [reflexivity |].
      eapply lookup_lt_Some, E.
    + rewrite list_lookup_insert_ne; assumption.
  - rewrite list_lookup_insert_eq; [reflexivity | exact Hj].
Qed.

Lemma do_while_throws n exec (st : State World) e st' :
  exec st = Some (Throw e, st') -> do_while n exec st = Some (Throw e, st').
Proof. intros H. destruct n; simpl; rewrite H; reflexivity. Qed.

(** Plain keys leave the flags and the world alone and the handler ready
    for the next command. *)
Lemma run_keys_plain exec pre keys : forall (st : State World) cnt,
  Forall plain pre -> mode st = Normal cnt ->
  exists cnt',
    run_keys (handle_key exec) (pre ++ keys) st
    = run_keys (handle_key exec) keys
        (mkState (running_macros st) (Normal cnt') (world st)).
Proof.
  induction pre as [|k pre IH]; intros st cnt Hpre Hmode.
  - exists cnt. destruct st as [l m w]. simpl in *. subst m. reflexivity.
  - apply Forall_cons in Hpre as [(Hdigit & Hq & Hcmd) Hpre].
    destruct (IH (mkState (running_macros st) (Normal 0) (world st)) 0 Hpre
                eq_refl) as [cnt' Hrun].
    exists cnt'. simpl in Hrun. rewrite <- Hrun. simpl.
    unfold handle_key at 1. rewrite Hmode, Hdigit, Hq, Hcmd. reflexivity.
Qed.

Lemma exec_keys_plain fuel keys (st : State World) cnt :
  Forall plain keys -> mode st = Normal cnt ->
  exists cnt',
    exec_keys (S fuel) keys st
    = Some (Return tt, mkState (running_macros st) (Normal cnt') (world st)).
Proof.
  intros Hkeys Hmode.
  destruct (run_keys_plain (exec_keys fuel) keys [] st cnt Hkeys Hmode)
    as [cnt' Hrun].
  exists cnt'. rewrite app_nil_r in Hrun. exact Hrun.
Qed.

Lemma do_while_plain fuel keys n : forall (st : State World) cnt,
  Forall plain keys -> mode st = Normal cnt ->
  exists cnt',
    do_while n (exec_keys (S fuel) keys) st
    = Some (Return tt, mkState (running_macros st) (Normal cnt') (world st)).
Proof.
  induction n as [|n IH]; intros st cnt Hkeys Hmode;
    destruct (exec_keys_plain fuel keys st cnt Hkeys Hmode) as [cnt1 H1].
  - exists cnt1. cbn [do_while]. rewrite H1. reflexivity.
  - destruct (IH (mkState (running_macros st) (Normal cnt1) (world st)) cnt1
                Hkeys eq_refl) as [cnt' H'].
    exists cnt'. cbn [do_while]. rewrite H1. exact H'.
Qed.

(** A macro made of plain keys, not running, replays normally. *)
Lemma replay_plain fuel count cnt a reg_val vals (st : State World) :
  lower a -> mode st = Normal cnt ->
  is_running (macro_index (named a)) st = false ->
  reg_values a (world st) = reg_val :: vals ->
  Forall plain (parse_keys reg_val) ->
  exists st',
    replay (S fuel) count (named a) st = Some (Return tt, st')
    /\ running_macros st' = running_macros st
    /\ world st' = world st.
Proof.
  intros Ha Hmode Hidle Hreg Hkeys.
  destruct (lower_named a Ha) as (Hk & Hname & _).
  unfold replay, replay_next_key. rewrite Hk, Hidle, Hname, Hreg.
  set (st1 := with_running _ st).
  destruct (do_while_plain fuel (parse_keys reg_val) (extra_rounds count) st1 cnt
              Hkeys Hmode) as [cnt' Hloop].
  rewrite Hloop. eexists. split; [reflexivity |]. simpl.
  split; [apply guard_released, Hidle | reflexivity].
Qed.

Lemma run_keys_throws (step : Key -> State World -> Result) pre k post
  (st st1 : State World) e st2 :
  run_keys step pre st = Some (Return tt, st1) ->
  step k st1 = Some (Throw e, st2) ->
  run_keys step (pre ++ k :: post) st = Some (Throw e, st2).
Proof.
  revert st. induction pre as [|k0 pre IH]; intros st Hpre Hk.
  - cbn [run_keys] in Hpre. injection Hpre as <-.
    cbn [app run_keys]. rewrite Hk. reflexivity.
  - cbn [app run_keys] in *.
    destruct (step k0 st) as [[[[]|e0] st0]|]; try discriminate.
    apply IH; assumption.
Qed.

(** The macros of [called] are all running. *)
Lemma called_insert (called : list Z) (l : list bool) (idx : nat)
  (m : InputMode) (w : World) :
  Forall (fun a => default false (l !! Z.to_nat (a - 97)) = true) called ->
  Forall (fun a =>
            is_running (Z.to_nat (a - 97)) (mkState (<[idx := true]> l) m w)
            = true) called.
Proof.
  intros Hcalled. eapply List.Forall_impl; [| exact Hcalled]. cbn beta.
  intros a Ha. apply is_running_insert. left. exact Ha.
Qed.

Lemma rounds_reach_throw (exec : list Key -> State World -> Result)
  (reach : list Key -> State World -> Prop) (keys : list Key)
  (P : State World -> Prop) :
  restores (exec keys) ->
  (forall st st', running_macros st' = running_macros st -> P st -> P st') ->
  (forall st, P st -> reach keys st ->
     exists st', exec keys st = Some (Throw recursive_call, st')) ->
  forall n st,
    P st -> rounds_reach exec reach keys n st ->
    exists st', do_while n (exec keys) st = Some (Throw recursive_call, st').
Proof.
  intros Hrestores Hflags Hreach n st HP Hrounds.
  induction Hrounds as [n st Hhere | n st st1 Hround Hrounds IH].
  - destruct (Hreach st HP Hhere) as [st' Hst'].
    exists st'. apply do_while_throws, Hst'.
  - cbn [do_while]. rewrite Hround. apply IH.
    apply (Hflags st); [| exact HP]. eapply Hrestores, Hround.
Qed.

(** Where the keys arrive at the replay of a macro that is being replayed,
    the flag of that macro is still set, the replay throws, and the
    exception leaves every replay and every round on the way. *)
Lemma keys_reach_throw (fuel : nat) :
  forall (called : list Z) (keys : list Key) (st : State World),
    length (running_macros st) = 26%nat ->
    Forall (fun a => is_running (Z.to_nat (a - 97)) st = true) called ->
    keys_reach fuel called keys st ->
    exists st', exec_keys fuel keys st = Some (Throw recursive_call, st').
Proof.
  induction fuel as [|fuel IH]; intros called keys st Hlen Hcalled Hreach;
    [destruct Hreach |].
  destruct Hreach as (pre & k & post & st1 & -> & Hpre & count & Hmode & Hk & Hwhich).
  assert (Hflags : running_macros st1 = running_macros st).
  { eapply run_keys_restores; [| exact Hpre].
    intros k0. apply handle_key_restores, exec_keys_restores. }
  assert (Hstep : exists st2,
             handle_key (exec_keys fuel) k st1 = Some (Throw recursive_call, st2)).
  { unfold handle_key. rewrite Hmode. unfold replay_next_key. rewrite Hk.
    destruct Hwhich as [Hin | (Hidle & reg_val & vals & Hreg & Hrounds)].
    - rewrite List.Forall_forall in Hcalled. specialize (Hcalled _ Hin).
      unfold is_running in *. cbn [with_mode running_macros].
      unfold macro_index. rewrite Hflags, Hcalled. eauto.
    - replace (is_running (macro_index k) (with_mode (Normal 0) st1))
        with false by (symmetry; exact Hidle).
      cbn [with_mode world]. rewrite Hreg.
      apply andb_true_iff in Hk as [_ Halpha].
      pose proof (macro_index_bound k Halpha) as Hidx.
      destruct (rounds_reach_throw (exec_keys fuel)
                  (keys_reach fuel (tolower (key k) :: called))
                  (parse_keys reg_val)
                  (fun s =>
                     length (running_macros s) = 26%nat
                     /\ Forall (fun a => is_running (Z.to_nat (a - 97)) s = true)
                          (tolower (key k) :: called)))
        with (n := extra_rounds count)
             (st := with_running (<[macro_index k := true]> (running_macros st1))
                      (mkState (running_macros st1) (Normal 0) (world st1)))
        as [st2 Hst2].
      + apply exec_keys_restores.
      + intros s s' Hs [Hl Hc]. unfold is_running in *. rewrite Hs.
        split; assumption.
      + intros s [Hl Hc] Hs. apply (IH _ _ _ Hl Hc Hs).
      + unfold with_running. cbn [running_macros mode world].
        rewrite length_insert, Hflags. split; [exact Hlen |].
        constructor.
        * apply is_running_insert. right. split; [reflexivity | lia].
        * apply called_insert. exact Hcalled.
      + exact Hrounds.
      + change (running_macros (with_mode (Normal 0) st1))
          with (running_macros st1).
        unfold with_mode in *. rewrite Hst2. eauto. }
  destruct Hstep as [st2 Hst2]. exists st2.
  cbn [exec_keys]. eapply run_keys_throws; eassumption.
Qed.


End ReplayFacts.

Example replay_direct_recursion :
  replay 27 0 (named 97) demo_direct = Some (Throw recursive_call, demo_direct).
Proof. vm_compute. reflexivity. Qed.

Example replay_transitive_recursion :
  replay 27 3 (named 102) demo_state = Some (Throw recursive_call, demo_state).
Proof. vm_compute. reflexivity. Qed.

Example replay_nested_without_recursion :
  replay 27 2 (named 100) demo_state = Some (Return tt, demo_state).
Proof. vm_compute. reflexivity. Qed.

Example replay_failing_command :
  replay 27 0 (named 101) demo_state
  = Some (Throw (runtime_error "no such command"), demo_state).
Proof. vm_compute. reflexivity. Qed.

(** After the recursive macro has failed, it fails the same way again (the
    flag is not what stops it), and another macro replays normally. *)
Example replay_after_recursion :
  match replay 27 0 (named 97) demo_state with
  | Some (Throw _, st') =>
      (replay 27 0 (named 97) st', replay 27 0 (named 99) st')
  | _ => (None, None)
  end
  = (Some (Throw recursive_call, demo_state), Some (Return tt, demo_state)).
Proof. vm_compute. reflexivity. Qed.

(** The recursive macro fails; recorded anew with plain keys, the macro of
    the same name replays normally. *)
Example replay_recorded_anew :
  match replay 27 0 (named 97) demo_state with
  | Some (Throw _, st') =>
      replay 27 0 (named 97)
        (mkState (running_macros st') (Normal 0) [ (97, "xx"%string) ])
  | _ => None
  end
  = Some (Return tt, mkState (replicate 26 false) (Normal 0) [ (97, "xx"%string) ]).
Proof. vm_compute. reflexivity. Qed.

Lemma demo_plain_x : plain (named 120).
Proof. repeat split. Qed.


End MacroFacts.

(* ================================================================== *)
(** ** Undo and redo: selections and status *)
(* ================================================================== *)

Module UndoFacts.

Import Undo.

Section CommandFacts.

Context {Buffer : Type} `{!History Buffer}.

(** C7. When the buffer had a change to undo (or redo), the selections
    become the ranges modified since the timestamp taken before, one
    selection for each, if there are any, and avoid_eol runs on the result
    (on the selections as they were when no range was modified); the status
    line is not touched.  When the buffer had none, the status line reads
    "nothing left to undo" (or "nothing left to redo") and the selections are
    the same as before. *)
Theorem undo_redo_selections (context : Context Buffer) :
  undo context = after (buffer_undo (buffer context)) "nothing left to undo" context
  /\ redo context = after (buffer_redo (buffer context)) "nothing left to redo" context
  /\ (forall answer message,
        fst answer = false ->
        selections (after answer message context) = selections context
        /\ status (after answer message context) = Some message)
  /\ (forall answer message,
        fst answer = true ->
        let ranges :=
          compute_modified_ranges (snd answer) (timestamp (buffer context)) in
        status (after answer message context) = status context
        /\ (ranges <> [] ->
            selections (after answer message context)
            = avoid_eol (snd answer) (assign ranges))
        /\ (ranges = [] ->
            selections (after answer message context)
            = avoid_eol (snd answer) (selections context))).
Proof.
  split; [| split; [| split]].
  - unfold undo, after. destruct (buffer_undo (buffer context)) as [[] b]; simpl;
      [destruct (compute_modified_ranges _ _) |]; reflexivity.
  - unfold redo, after. destruct (buffer_redo (buffer context)) as [[] b]; simpl;
      [destruct (compute_modified_ranges _ _) |]; reflexivity.
  - intros [res b] message Hres. simpl in Hres. subst res.
    unfold after. simpl. split; reflexivity.
  - intros [res b] message Hres. simpl in Hres. subst res.
    unfold after. simpl.
    destruct (compute_modified_ranges b (timestamp (buffer context))); simpl;
      repeat split; congruence.
Qed.

End CommandFacts.

Example undo_selects_modified_line :
  undo demo_context
  = mkContext ([], [7%Z])
      (Selections.mkList
         [ Selections.mkSel (Selections.mkCoord 7 0) (Selections.mkCoord 7 3) [] ] 0)
      None.
Proof. vm_compute. reflexivity. Qed.

Example undo_twice_reports :
  undo (undo demo_context)
  = mkContext ([], [7%Z])
      (Selections.mkList
         [ Selections.mkSel (Selections.mkCoord 7 0) (Selections.mkCoord 7 3) [] ] 0)
      (Some "nothing left to undo"%string).
Proof. vm_compute. reflexivity. Qed.

Example redo_after_undo :
  redo (undo demo_context)
  = mkContext ([7%Z], [])
      (Selections.mkList
         [ Selections.mkSel (Selections.mkCoord 7 0) (Selections.mkCoord 7 3) [] ] 0)
      None.
Proof. vm_compute. reflexivity. Qed.

Lemma undo_redo_selections_witness :
  selections (undo (undo demo_context)) = selections (undo demo_context)
  /\ status (undo (undo demo_context)) = Some "nothing left to undo"%string.
Proof.
  pose proof (@undo_redo_selections (list Z * list Z) demo_history
                (undo demo_context)) as (Hundo & _ & Hnone & _).
  rewrite Hundo. apply Hnone. reflexivity.
Defined.

End UndoFacts.

(* ================================================================== *)
(** ** The word database: the letter test loses no match *)
(* ================================================================== *)

Module WordDBFacts.

Import WordDB.

Local Open Scope N_scope.

Section FindFacts.

Context `{!Index}.

Lemma foldl_push {A B : Type} (p : A -> bool) (f : A -> B) (l : list A) (acc : list B) :
  foldl (fun res x => if p x then res ++ [f x] else res) acc l
  = acc ++ map f (List.filter p l).
Proof.
  revert acc. induction l as [|x l IH]; intros acc; simpl.
  - rewrite app_nil_r. reflexivity.
  - rewrite IH. destruct (p x); simpl; [| reflexivity].
    rewrite <- app_assoc. reflexivity.
Qed.

Lemma find_matching_elem (db : WordDB) (str : string)
  (matches : string -> string -> bool) (word : string) :
  word ∈ fst (find_matching db str matches)
  <-> exists info,
      m_words (update_db db) !! word = Some info
      /\ candidate (used_letters str) str matches (word, info) = true.
Proof.
  unfold find_matching. cbn [fst]. rewrite foldl_push. cbn [app].
  rewrite list_elem_of_In, List.in_map_iff. split.
  - intros [[w info] [Hw Hin]]. simpl in Hw. subst w.
    apply List.filter_In in Hin as [Hin Hc].
    exists info. split; [| exact Hc].
    apply elem_of_map_to_list, list_elem_of_In, Hin.
  - intros [info [Hlook Hc]]. exists (word, info). split; [reflexivity |].
    apply List.filter_In. split; [| exact Hc].
    apply list_elem_of_In, elem_of_map_to_list, Hlook.
Qed.

(** C8. When every stored word carries the letters [used_letters] gives
    for it, and a word can match the query only if the letters of the query
    are among its own, find_matching returns exactly the stored words the
    caller's predicate accepts: the letter test removes no word the predicate
    accepts, and a word that passes the letter test but fails the predicate
    is left out. *)
Theorem find_matching_exact (db : WordDB) (str : string)
  (matches : string -> string -> bool) :
  consistent (update_db db) ->
  (forall word,
      matches word str = true ->
      N.land (used_letters str) (used_letters word) = used_letters str) ->
  forall word,
    word ∈ fst (find_matching db str matches)
    <-> is_Some (m_words (update_db db) !! word) /\ matches word str = true.
Proof.
  intros Hdb Hsubset word. rewrite find_matching_elem. unfold candidate. simpl.
  split.
  - intros [info [Hlook Hc]]. apply andb_true_iff in Hc as [_ Hm].
    split; [eauto | exact Hm].
  - intros [[info Hlook] Hm]. exists info. split; [exact Hlook |].
    rewrite (Hdb _ _ Hlook), (Hsubset _ Hm), N.eqb_refl, Hm. reflexivity.
Qed.

End FindFacts.

Lemma lor_subset (b x y : N) :
  N.land x y = x -> N.land (N.lor b x) (N.lor b y) = N.lor b x.
Proof.
  intros H. apply N.bits_inj. intros n.
  assert (Hx : N.testbit x n = N.testbit x n && N.testbit y n).
  { rewrite <- N.land_spec, H. reflexivity. }
  rewrite N.land_spec, !N.lor_spec.
  destruct (N.testbit b n), (N.testbit x n), (N.testbit y n);
    simpl in *; congruence.
Qed.

Lemma prefix_match_subset (str word : string) :
  prefix_match word str = true ->
  N.land (demo_used_letters str) (demo_used_letters word) = demo_used_letters str.
Proof.
  unfold prefix_match. revert word.
  induction str as [|c str IH]; intros word H.
  - reflexivity.
  - destruct word as [|d word]; simpl in H; [discriminate |].
    destruct (ascii_dec c d) as [->|]; [| discriminate].
    simpl. apply lor_subset, IH, H.
Qed.

Lemma index_words_consistent (stamp : nat) (words lines : list string) :
  @consistent demo_index (mkDB stamp (index_words words) lines).
Proof.
  intros word info H. simpl in H. unfold index_words in H.
  apply elem_of_list_to_map_2 in H.
  apply list_elem_of_fmap in H as [w [Hw _]].
  inversion Hw; subst. reflexivity.
Qed.

(** "of" and "Fob" pass the letter test for the query "fo"; the predicate
    turns them down. *)
Example find_matching_demo :
  fst (@find_matching demo_index demo_db "fo" prefix_match)
  = ["food"; "foo"]%string
  /\ map fst
       (List.filter
          (fun w => N.land (demo_used_letters "fo") (letters (snd w))
                    =? demo_used_letters "fo")
          (map_to_list (m_words demo_db)))
     = ["of"; "food"; "foo"; "Fob"]%string.
Proof. vm_compute. split; reflexivity. Qed.

Lemma find_matching_exact_witness :
  "food"%string ∈ fst (@find_matching demo_index demo_db "fo" prefix_match)
  /\ (N.land (demo_used_letters "fo") (demo_used_letters "of")
      =? demo_used_letters "fo") = true
  /\ prefix_match "of" "fo" = false.
Proof.
  split; [| split; reflexivity].
  apply (@find_matching_exact demo_index demo_db "fo" prefix_match).
  - apply index_words_consistent.
  - intros word. apply prefix_match_subset.
  - split; [| reflexivity]. eexists. vm_compute. reflexivity.
Defined.

End WordDBFacts.

(* ================================================================== *)
(** ** Strings *)
(* ================================================================== *)

Module StringFacts.

#[local] Arguments String.append !_ _ / : simpl nomatch.

Lemma substring_prefix (s b : string) :
  substring 0 (String.length s) (String.append s b) = s.
Proof.
  induction s as [| c s IH]; simpl.
  - destruct b; reflexivity.
  - rewrite IH. reflexivity.
Qed.

Lemma substring_middle (a s b : string) :
  substring (String.length a) (String.length s)
    (String.append a (String.append s b)) = s.
Proof.
  induction a as [| c a IH]; simpl.
  - exact (substring_prefix s b).
  - exact IH.
Qed.

Lemma append_nil_r (s : string) : String.append s EmptyString = s.
Proof. induction s as [| c s IH]; simpl; [| rewrite IH]; reflexivity. Qed.

Lemma append_assoc (a b c : string) :
  String.append (String.append a b) c = String.append a (String.append b c).
Proof. induction a as [| x a IH]; simpl; [| rewrite IH]; reflexivity. Qed.

Lemma length_append (a b : string) :
  String.length (String.append a b) = String.length a + String.length b.
Proof. induction a as [| x a IH]; simpl; [| rewrite IH]; reflexivity. Qed.

End StringFacts.

(* ================================================================== *)
(** ** paste_all *)
(* ================================================================== *)

Module PasteAllFacts.

Import Selections Paste PasteAll StringFacts.

Local Open Scope Z_scope.

#[local] Arguments String.append !_ _ / : simpl nomatch.

Lemma concat_cons (str : string) (rest : list string) :
  String.concat EmptyString (str :: rest)
  = String.append str (String.concat EmptyString rest).
Proof.
  destruct rest as [| x rest]; simpl.
  - symmetry. apply append_nil_r.
  - reflexivity.
Qed.

(** The text gathered is the concatenation of the values, and the offsets
    are the lengths reached after each of them. *)
Lemma gather_spec (mode : InsertMode) (strings : list string) :
  forall effective all offsets,
    gather mode effective all offsets strings
    = (effective_mode_all mode effective strings,
       String.append all (String.concat EmptyString strings),
       offsets ++ reached (String.length all) strings).
Proof.
  induction strings as [| str rest IH]; intros effective all offsets.
  - simpl. rewrite append_nil_r, app_nil_r. reflexivity.
  - cbn [gather effective_mode_all reached]. rewrite IH.
    rewrite concat_cons, append_assoc, length_append, <- app_assoc.
    reflexivity.
Qed.

Lemma reached_tiled (strings : list string) :
  forall pos : nat,
    tiled (Z.of_nat pos) (ranges (Z.of_nat pos) (reached pos strings))
      (Z.of_nat (pos + String.length (String.concat EmptyString strings))).
Proof.
  induction strings as [| str rest IH]; intros pos.
  - simpl. f_equal. lia.
  - rewrite concat_cons, length_append.
    cbn [reached ranges tiled fst snd]. split; [reflexivity |].
    replace (Z.of_nat (pos + String.length str) - 1 + 1)
      with (Z.of_nat (pos + String.length str)) by lia.
    replace (pos + (String.length str
                    + String.length (String.concat EmptyString rest)))%nat
      with (pos + String.length str
            + String.length (String.concat EmptyString rest))%nat by lia.
    apply IH.
Qed.

Lemma not_empty_length (str : string) :
  empty str = false -> (0 < String.length str)%nat.
Proof. destruct str; [discriminate | cbn [String.length]; lia]. Qed.

Lemma reached_slices (strings : list string) :
  Forall (fun str => empty str = false) strings ->
  forall a b : string,
    map (slice (String.append a
                  (String.append (String.concat EmptyString strings) b)))
        (ranges (Z.of_nat (String.length a)) (reached (String.length a) strings))
    = strings.
Proof.
  intros Hvalues. induction Hvalues as [| str rest Hstr Hrest IH]; intros a b.
  - reflexivity.
  - apply not_empty_length in Hstr.
    rewrite concat_cons. cbn [reached ranges map]. f_equal.
    + unfold slice. cbn [fst snd].
      rewrite Z.min_l, Z.max_r by lia.
      rewrite Nat2Z.id.
      replace (Z.to_nat (Z.of_nat (String.length a + String.length str) - 1
                         - Z.of_nat (String.length a) + 1))
        with (String.length str) by lia.
      rewrite append_assoc. apply substring_middle.
    + rewrite <- length_append.
      rewrite append_assoc, <- (append_assoc a str).
      apply IH.
Qed.

Lemma reached_forward (strings : list string) :
  Forall (fun str => empty str = false) strings ->
  forall pos : nat,
    Forall (fun r : Z * Z => fst r <= snd r)
           (ranges (Z.of_nat pos) (reached pos strings)).
Proof.
  intros Hvalues. induction Hvalues as [| str rest Hstr Hrest IH]; intros pos.
  - constructor.
  - apply not_empty_length in Hstr. cbn [reached ranges].
    constructor; [cbn [fst snd]; lia | apply IH].
Qed.


(** An empty value between two others: its pair ends one byte before it
    starts, and the selection built on it covers the last byte of the value
    before and the first byte of the value after. *)
Example paste_all_empty_value :
  let '(_, all, offsets) :=
    gather Append Append EmptyString [] ["ab"; EmptyString; "cd"]%string in
  ranges 0 offsets = [(0, 1); (2, 1); (2, 3)]
  /\ map (slice all) (ranges 0 offsets) = ["ab"; "bc"; "cd"]%string.
Proof. split; reflexivity. Qed.


End PasteAllFacts.

(* ================================================================== *)
(** ** pipe and insert_output *)
(* ================================================================== *)

Module PipeFacts.

Import Paste Prompt Pipe.

#[local] Arguments String.append !_ _ / : simpl nomatch.

Lemma back_append_eol (str : string) :
  back (String.append str (String eol EmptyString)) = eol.
Proof.
  induction str as [| c str IH]; [reflexivity |].
  simpl. destruct (String.append str (String eol EmptyString)) eqn:E.
  - destruct str; discriminate.
  - exact IH.
Qed.

Lemma length_append_eol (str : string) :
  String.length (String.append str (String eol EmptyString))
  = S (String.length str).
Proof. induction str as [| c str IH]; simpl; [| rewrite IH]; reflexivity. Qed.

Lemma substring_append_eol (str : string) :
  substring 0 (String.length str) (String.append str (String eol EmptyString))
  = str.
Proof. induction str as [| c str IH]; simpl; [| rewrite IH]; reflexivity. Qed.

Lemma shell_input_ends_line (str : string) :
  Ascii.eqb (back (shell_input str)) eol = true.
Proof.
  unfold shell_input, insert_eol.
  destruct (Ascii.eqb (back str) eol) eqn:E; cbn [negb].
  - exact E.
  - rewrite back_append_eol. reflexivity.
Qed.

Lemma shell_output_input (str : string) :
  shell_output (insert_eol str) (shell_input str) = str.
Proof.
  unfold shell_output, shell_input, insert_eol.
  destruct (Ascii.eqb (back str) eol) eqn:E; cbn [negb andb]; [reflexivity |].
  rewrite back_append_eol. cbn [Ascii.eqb].
  replace (Ascii.eqb eol eol) with true by reflexivity.
  rewrite length_append_eol.
  replace (S (String.length str) - 1) with (String.length str) by lia.
  apply substring_append_eol.
Qed.

Section Callbacks.

Context {Buffer : Type} `{!Shell Buffer}.

(** A register holding one value reads as that value, whichever selection
    is the main one. *)
Lemma single_value (reg : ascii) (value : string) (c : Context Buffer) :
  registers c !! reg = Some [value] -> main_sel_register_value reg c = value.
Proof.
  intros Hreg. unfold main_sel_register_value. rewrite Hreg. simpl.
  destruct (Selections.main_index (selections c)) as [| n]; reflexivity.
Qed.

(** X4 (pipe): when the shell command copies its input to its output, as
    [cat] does, validating it replaces every selection by its own text: the
    line end added for the command is taken off again, and no other byte is
    touched.  The command line ends up in the register. *)
Theorem pipe_copy_keeps_text (cmd : string) (c : Context Buffer)
  (Hcmd : empty cmd = false)
  (Hcopy : forall input c', shell_pipe input cmd c' = input) :
  pipe_callback true cmd Validate c
  = (Return tt,
     with_edition
       (insert (map (content (buffer c)) (Selections.selections (selections c)))
               Replace (buffer c) (selections c))
       (with_register bar [cmd] c)).
Proof.
  unfold pipe_callback, real_cmd. cbn [is_validate negb]. rewrite Hcmd.
  unfold modify, mbind, M_bind, mret, M_ret. rewrite Hcmd.
  f_equal. f_equal. f_equal.
  apply map_ext. intros sel. unfold piped. rewrite Hcopy.
  apply shell_output_input.
Qed.

(** X5 (pipe, insert_output): an empty command line repeats the command
    validated last.  Once [cmd] has been run by pipe, validating nothing, in
    pipe or in insert_output, does what validating [cmd] again does. *)
Theorem pipe_repeats_last_command (replace : bool) (mode : InsertMode)
  (cmd : string) (c : Context Buffer) (Hcmd : empty cmd = false) :
  let c1 := snd (pipe_callback replace cmd Validate c) in
  pipe_callback replace EmptyString Validate c1
  = pipe_callback replace cmd Validate c1
  /\ insert_output_callback mode EmptyString Validate c1
     = insert_output_callback mode cmd Validate c1.
Proof.
  assert (Hc1 : exists b l,
             snd (pipe_callback replace cmd Validate c)
             = with_edition (b, l) (with_register bar [cmd] c)).
  { unfold pipe_callback, real_cmd. cbn [is_validate negb]. rewrite Hcmd.
    unfold modify, mbind, M_bind, mret, M_ret. rewrite Hcmd.
    destruct replace; cbn [snd].
    - eexists _, _. rewrite <- surjective_pairing. reflexivity.
    - exists (buffer c), (selections c). reflexivity. }
  destruct Hc1 as (b & l & Hc1). cbv zeta. rewrite Hc1.
  set (c1 := with_edition (b, l) (with_register bar [cmd] c)).
  assert (Hreg : main_sel_register_value bar c1 = cmd).
  { apply single_value. unfold c1, with_edition, with_register.
    cbn [registers]. apply lookup_insert_eq. }
  assert (Hsame : with_register bar [cmd] c1 = c1).
  { unfold c1, with_edition, with_register.
    cbn [registers buffer selections prompt_face info jumps has_ui incsearch
         fst snd].
    rewrite insert_insert_eq. reflexivity. }
  unfold pipe_callback, insert_output_callback, real_cmd.
  cbn [is_validate negb empty]. rewrite Hcmd.
  unfold modify, get, mbind, M_bind, mret, M_ret.
  rewrite Hreg, Hcmd, Hsame. split; reflexivity.
Qed.

(** X6 (pipe, insert_output): with nothing typed and nothing in the
    register, no command is run: the callbacks return and leave the buffer,
    the selections and the registers as they were. *)
Theorem pipe_without_command (replace : bool) (mode : InsertMode)
  (event : PromptEvent) (c : Context Buffer)
  (Hreg : registers c !! bar = None) :
  pipe_callback replace EmptyString event c = (Return tt, c)
  /\ insert_output_callback mode EmptyString event c = (Return tt, c).
Proof.
  unfold pipe_callback, insert_output_callback, real_cmd.
  destruct event; cbn [is_validate negb empty];
    try (split; reflexivity).
  unfold get, mbind, M_bind, mret, M_ret, main_sel_register_value.
  rewrite Hreg. simpl.
  destruct (Selections.main_index (selections c)); split; reflexivity.
Qed.

End Callbacks.

Lemma pipe_copy_keeps_text_witness :
  @pipe_callback Z copying_shell true "cat" Validate demo_context
  = (Return tt,
     @with_edition Z
       (@insert Z copying_shell
          (map (@content Z copying_shell (buffer demo_context))
               (Selections.selections (selections demo_context)))
          Replace (buffer demo_context) (selections demo_context))
       (with_register bar ["cat"%string] demo_context))
  /\ map (@piped Z copying_shell "cat" demo_context)
         (Selections.selections (selections demo_context))
     = ["zero"%string; String "o" (String "n" (String "e" (String eol EmptyString)))].
Proof.
  split.
  - apply (@pipe_copy_keeps_text Z copying_shell "cat" demo_context);
      [reflexivity | intros input c'; reflexivity].
  - reflexivity.
Defined.

Lemma pipe_repeats_last_command_witness :
  @pipe_callback Z copying_shell true EmptyString Validate
    (snd (@pipe_callback Z copying_shell true "cat" Validate demo_context))
  = @pipe_callback Z copying_shell true "cat" Validate
      (snd (@pipe_callback Z copying_shell true "cat" Validate demo_context))
  /\ @insert_output_callback Z copying_shell Append EmptyString Validate
       (snd (@pipe_callback Z copying_shell true "cat" Validate demo_context))
     = @insert_output_callback Z copying_shell Append "cat" Validate
         (snd (@pipe_callback Z copying_shell true "cat" Validate demo_context)).
Proof.
  apply (@pipe_repeats_last_command Z copying_shell true Append "cat"
           demo_context).
  reflexivity.
Defined.

Lemma pipe_without_command_witness :
  @pipe_callback Z copying_shell true EmptyString Validate demo_context
  = (Return tt, demo_context)
  /\ @insert_output_callback Z copying_shell Append EmptyString Validate
       demo_context
     = (Return tt, demo_context).
Proof.
  apply (@pipe_without_command Z copying_shell true Append Validate demo_context).
  reflexivity.
Defined.

End PipeFacts.

(* ================================================================== *)
(** ** Indentation *)
(* ================================================================== *)

Module IndentFacts.

Import Selections Indent.

Local Open Scope Z_scope.

#[local] Arguments String.append !_ _ / : simpl nomatch.

(** *** The lines indent and deindent visit *)

Lemma flat_map_singleton {A : Type} (l : list A) :
  flat_map (fun x => [x]) l = l.
Proof. induction l as [| x l IH]; simpl; [| rewrite IH]; reflexivity. Qed.

Lemma each_line_once_visits {A : Type} (body : Z -> list A)
  (sels : list Selection) :
  forall last_line,
    each_line_once body last_line sels
    = flat_map body (each_line_once (fun l => [l]) last_line sels).
Proof.
  induction sels as [| sel rest IH]; intros last_line; [reflexivity |].
  cbn [each_line_once]. rewrite flat_map_singleton, flat_map_app, IH.
  reflexivity.
Qed.

Lemma seqZ_increasing (len : nat) :
  forall m, StronglySorted Z.lt (seqZ m (Z.of_nat len)).
Proof.
  induction len as [| len IH]; intros m.
  - constructor.
  - rewrite seqZ_cons by lia.
    replace (Z.pred (Z.of_nat (S len))) with (Z.of_nat len) by lia.
    constructor; [apply IH |].
    apply List.Forall_forall. intros x Hx.
    apply list_elem_of_In, elem_of_seqZ in Hx. lia.
Qed.

Lemma seqZ_sorted (m n : Z) : StronglySorted Z.lt (seqZ m n).
Proof.
  destruct (Z.le_gt_cases 0 n) as [Hn | Hn].
  - rewrite <- (Z2Nat.id n Hn). apply seqZ_increasing.
  - unfold seqZ. replace (Z.to_nat n) with 0%nat by lia. constructor.
Qed.

Lemma sorted_app (l1 l2 : list Z) :
  StronglySorted Z.lt l1 -> StronglySorted Z.lt l2 ->
  (forall x y, x ∈ l1 -> y ∈ l2 -> x < y) ->
  StronglySorted Z.lt (l1 ++ l2).
Proof.
  intros H1 H2 H. induction H1 as [| a l1 Hl1 IH Ha]; [exact H2 |].
  simpl. constructor.
  - apply IH. intros x y Hx Hy. apply H; [right; exact Hx | exact Hy].
  - apply List.Forall_app. split; [exact Ha |].
    apply List.Forall_forall. intros y Hy.
    apply H; [left | apply list_elem_of_In, Hy].
Qed.

(** Two invariants of a selection list make each selection end before the
    next ones start. *)
Lemma invariant_separated (sels : list Selection) :
  ascending_by_min sels -> pairwise_disjoint sels ->
  StronglySorted strictly_before sels.
Proof.
  unfold ascending_by_min, pairwise_disjoint.
  induction sels as [| a l IH]; intros Hasc Hdis; [constructor |].
  apply StronglySorted_inv in Hasc as [Hasc Ha].
  inversion Hdis as [| a' l' Hd Hdis']; subst.
  constructor; [apply IH; assumption |].
  rewrite List.Forall_forall in *. intros b Hb.
  apply SelectionFacts.not_overlaps_gap; [apply Ha | apply Hd]; exact Hb.
Qed.

Lemma strictly_before_lines (a b : Selection) :
  strictly_before a b ->
  line (sel_max a) <= line (sel_min b) /\ line (sel_max a) <= line (sel_max b).
Proof.
  intros H. pose proof (SelectionFacts.sel_min_le_max b) as Hb.
  unfold strictly_before, coord_le, coord_lt in *. lia.
Qed.

Lemma min_line_le_max (s : Selection) : line (sel_min s) <= line (sel_max s).
Proof.
  pose proof (SelectionFacts.sel_min_le_max s) as H.
  unfold coord_le, coord_lt in H. lia.
Qed.

Lemma visited_from (sels : list Selection) :
  StronglySorted strictly_before sels ->
  forall last_line,
    Forall (fun s => last_line <= line (sel_max s) + 1) sels ->
    StronglySorted Z.lt (each_line_once (fun l => [l]) last_line sels)
    /\ forall l,
         l ∈ each_line_once (fun l => [l]) last_line sels
         <-> last_line <= l
             /\ exists sel, sel ∈ sels
                            /\ line (sel_min sel) <= l <= line (sel_max sel).
Proof.
  intros Hsep. induction Hsep as [| sel rest Hrest IH Hsel];
    intros last_line Hlast.
  - split; [constructor |]. intros l. cbn [each_line_once]. split.
    + intros H. inversion H.
    + intros (_ & s & Hs & _). inversion Hs.
  - apply Forall_cons in Hlast as [Hlast0 Hlast].
    assert (Hnext : Forall (fun s => line (sel_max sel) + 1 <= line (sel_max s) + 1)
                      rest).
    { rewrite List.Forall_forall in Hsel. apply Forall_forall.
      intros s Hs. apply list_elem_of_In, Hsel, strictly_before_lines in Hs. lia. }
    destruct (IH _ Hnext) as [IHs IHl].
    pose proof (min_line_le_max sel) as Hmm.
    cbn [each_line_once]. rewrite flat_map_singleton. split.
    + apply sorted_app; [apply seqZ_sorted | exact IHs |].
      intros x y Hx Hy. apply elem_of_seqZ in Hx. apply IHl in Hy. lia.
    + intros l. rewrite elem_of_app, elem_of_seqZ, IHl. split.
      * intros [Hl | (Hl & s & Hs & Hrange)].
        -- split; [lia |]. exists sel. split; [left | lia].
        -- split; [lia |]. exists s. split; [right; exact Hs | exact Hrange].
      * intros (Hl & s & Hs & Hrange).
        apply elem_of_cons in Hs as [-> | Hs]; [left; lia |].
        rewrite List.Forall_forall in Hsel.
        pose proof (Hsel s (proj1 (list_elem_of_In _ _) Hs)) as Hb.
        apply strictly_before_lines in Hb.
        destruct (Z.le_gt_cases (line (sel_max sel) + 1) l) as [Hge | Hlt].
        -- right. split; [exact Hge |]. exists s. split; assumption.
        -- left. lia.
Qed.

(** X7 (indent, deindent): on a selection list that keeps its invariants
    (ascending, no overlap), the loop the two commands share runs its body
    exactly once for every buffer line a selection touches, in increasing
    line order: a line several selections are on is not indented, or
    deindented, twice, and no line of a selection is skipped. *)
Theorem each_line_visited_once {A : Type} (body : Z -> list A)
  (sels : list Selection)
  (Hascending : ascending_by_min sels) (Hdisjoint : pairwise_disjoint sels)
  (Hlines : Forall (fun s => 0 <= line (sel_min s)) sels) :
  each_line_once body 0 sels = flat_map body (visited sels)
  /\ StronglySorted Z.lt (visited sels)
  /\ forall l, l ∈ visited sels <-> touched sels l.
Proof.
  split; [apply each_line_once_visits |].
  assert (Hlast : Forall (fun s => 0 <= line (sel_max s) + 1) sels).
  { eapply List.Forall_impl; [| exact Hlines]. intros s Hs. cbn beta in *.
    pose proof (min_line_le_max s). lia. }
  destruct (visited_from sels (invariant_separated sels Hascending Hdisjoint)
              0 Hlast) as [Hsorted Hin].
  split; [exact Hsorted |].
  intros l. unfold visited, touched. rewrite Hin. split.
  - intros [_ H]. exact H.
  - intros (sel & Hsel & Hrange). split; [| exists sel; split; assumption].
    rewrite List.Forall_forall in Hlines.
    apply list_elem_of_In, Hlines in Hsel. lia.
Qed.

(** *** The scan of a line by deindent *)

Lemma deindent_scan_range (tabstop indent_width : Z) (incomplete : bool)
  (content : string) :
  forall column width col,
    deindent_scan tabstop indent_width incomplete content column width = Some col ->
    column - 1 <= col < column + Z.of_nat (String.length content)
    /\ (col = column - 1 -> width <> 0)
    /\ all_blank (substring 0 (Z.to_nat (col - column + 1)) content) = true
    /\ (blank_width tabstop (substring 0 (Z.to_nat (col - column + 1)) content)
          width = indent_width
        \/ incomplete = true
           /\ exists c, String.get (Z.to_nat (col - column + 1)) content = Some c
                        /\ is_blank c = false).
Proof.
  induction content as [| c rest IH]; intros column width col H;
    cbn [deindent_scan] in H; [discriminate |].
  cbn [String.length].
  assert (Hstep : forall width',
             (if Ascii.eqb c tab then (Z.quot width tabstop + 1) * tabstop
              else width + 1) = width' ->
             is_blank c = true ->
             (if width' =? indent_width then Some column
              else deindent_scan tabstop indent_width incomplete rest
                     (column + 1) width') = Some col ->
             column - 1 <= col < column + Z.of_nat (S (String.length rest))
             /\ (col = column - 1 -> width <> 0)
             /\ all_blank (substring 0 (Z.to_nat (col - column + 1))
                             (String c rest)) = true
             /\ (blank_width tabstop
                   (substring 0 (Z.to_nat (col - column + 1)) (String c rest))
                   width = indent_width
                 \/ incomplete = true
                    /\ exists c', String.get (Z.to_nat (col - column + 1))
                                    (String c rest) = Some c'
                                  /\ is_blank c' = false)).
  { intros width' Hwidth Hblank Hscan.
    destruct (Z.eqb_spec width' indent_width) as [Heq | Hne].
    - injection Hscan as <-.
      replace (Z.to_nat (column - column + 1)) with 1%nat by lia.
      cbn [substring all_blank blank_width]. rewrite Hblank.
      split; [lia |]. split; [lia |]. split; [destruct rest; reflexivity |].
      left. destruct rest; cbn [substring blank_width]; rewrite Hwidth; exact Heq.
    - apply IH in Hscan as (Hrange & _ & Hall & Hwhich).
      replace (Z.to_nat (col - column + 1))
        with (S (Z.to_nat (col - (column + 1) + 1))) by lia.
      cbn [substring all_blank blank_width String.get]. rewrite Hblank, Hall.
      split; [lia |]. split; [lia |]. split; [reflexivity |].
      rewrite Hwidth. exact Hwhich. }
  destruct (Ascii.eqb c tab) eqn:Etab.
  - apply (Hstep _ eq_refl); [unfold is_blank; rewrite Etab; reflexivity | exact H].
  - destruct (Ascii.eqb c space) eqn:Espace.
    + apply (Hstep _ eq_refl);
        [unfold is_blank; rewrite Etab, Espace; reflexivity | exact H].
    + destruct incomplete; cbn [andb] in H; [| discriminate].
      destruct (Z.eqb_spec width 0) as [Hz | Hnz]; cbn [negb] in H;
        [discriminate |].
      injection H as <-.
      replace (Z.to_nat (column - 1 - column + 1)) with 0%nat by lia.
      cbn [substring all_blank String.get].
      split; [lia |]. split; [intros _; exact Hnz |]. split; [reflexivity |].
      right. split; [reflexivity |]. exists c. split; [reflexivity |].
      unfold is_blank. rewrite Etab, Espace. reflexivity.
Qed.

(** X8 (deindent): what deindent erases on a line starts at the first
    column, stays inside the line, and holds tabs and spaces only.  It is
    either a run of blanks exactly one indentation wide or, for
    deindent<true> when no run has that width, all the blanks in front of
    the first other character. *)
Theorem deindent_erases_blanks_only (tabstop indent_width : Z)
  (deindent_incomplete : bool) (content : string) (column : Z)
  (Hscan : deindent_scan tabstop indent_width deindent_incomplete content 0 0
           = Some column) :
  0 <= column < Z.of_nat (String.length content)
  /\ all_blank (substring 0 (Z.to_nat (column + 1)) content) = true
  /\ (blank_width tabstop (substring 0 (Z.to_nat (column + 1)) content) 0
      = indent_width
      \/ deindent_incomplete = true
         /\ exists c, String.get (Z.to_nat (column + 1)) content = Some c
                      /\ is_blank c = false).
Proof.
  apply deindent_scan_range in Hscan as (Hrange & Hfirst & Hall & Hwhich).
  replace (column - 0 + 1) with (column + 1) in * by lia.
  split; [| split; assumption].
  destruct (Z.eq_dec column (-1)) as [-> | Hne]; [| lia].
  exfalso. apply Hfirst; reflexivity.
Qed.

Lemma deindent_scan_blanks (tabstop indent_width : Z) (c : ascii)
  (rest : string) (Htabstop : 0 < tabstop) (Hc : is_blank c = false) :
  forall blanks column width,
    all_blank blanks = true -> 0 <= width ->
    blanks <> EmptyString \/ width <> 0 ->
    is_Some (deindent_scan tabstop indent_width true
               (String.append blanks (String c rest)) column width).
Proof.
  unfold is_blank in Hc. apply orb_false_iff in Hc as [Htab Hspace].
  induction blanks as [| b blanks IH]; intros column width Hall Hwidth Hsome.
  - cbn [String.append deindent_scan]. rewrite Htab, Hspace.
    destruct Hsome as [Hsome | Hsome]; [congruence |].
    destruct (Z.eqb_spec width 0); [contradiction |]. cbn [andb negb]. eauto.
  - cbn [all_blank] in Hall. apply andb_true_iff in Hall as [Hb Hall].
    cbn [String.append deindent_scan].
    assert (Hquot : 0 <= Z.quot width tabstop) by (apply Z.quot_pos; lia).
    unfold is_blank in Hb.
    destruct (Ascii.eqb b tab).
    + destruct (_ =? indent_width); [eauto |].
      apply IH; [exact Hall | nia | right; nia].
    + cbn [orb] in Hb.
      destruct (Ascii.eqb b space); [| discriminate].
      destruct (_ =? indent_width); [eauto |].
      apply IH; [exact Hall | lia | right; lia].
Qed.

(** X9 (deindent): on a line made of blanks followed by another character,
    deindent<true> erases something exactly when the line starts with a
    blank; a line that starts with text is left alone. *)
Theorem deindent_incomplete_erases_iff (tabstop indent_width : Z)
  (blanks : string) (c : ascii) (rest : string)
  (Htabstop : 0 < tabstop) (Hblanks : all_blank blanks = true)
  (Hc : is_blank c = false) :
  is_Some (deindent_scan tabstop indent_width true
             (String.append blanks (String c rest)) 0 0)
  <-> blanks <> EmptyString.
Proof.
  split.
  - intros [col Hscan] ->. cbn [String.append deindent_scan] in Hscan.
    unfold is_blank in Hc. apply orb_false_iff in Hc as [Htab Hspace].
    rewrite Htab, Hspace in Hscan. discriminate.
  - intros Hne. apply deindent_scan_blanks; [assumption .. | lia | left; exact Hne].
Qed.

(** *** copy_indent *)

Lemma substring_all (s : string) : substring 0 (String.length s) s = s.
Proof. induction s as [| c s IH]; simpl; [| rewrite IH]; reflexivity. Qed.

Section CopyIndentFacts.

Context `{!Unicode}.

Lemma indent_of_cons (c : ascii) (rest : string) :
  indent_of (String c rest)
  = if is_horizontal_blank c then String c (indent_of rest) else EmptyString.
Proof.
  unfold indent_of. cbn [blank_length].
  destruct (is_horizontal_blank c); reflexivity.
Qed.

Lemma text_of_cons (c : ascii) (rest : string) :
  text_of (String c rest)
  = if is_horizontal_blank c then text_of rest else String c rest.
Proof.
  unfold text_of. cbn [blank_length String.length].
  destruct (is_horizontal_blank c).
  - reflexivity.
  - rewrite Nat.sub_0_r. exact (substring_all (String c rest)).
Qed.

Lemma indent_text (line : string) :
  String.append (indent_of line) (text_of line) = line.
Proof.
  induction line as [| c rest IH]; [reflexivity |].
  rewrite indent_of_cons, text_of_cons.
  destruct (is_horizontal_blank c); simpl; [rewrite IH |]; reflexivity.
Qed.

Lemma text_of_starts (line : string) : blank_length (text_of line) = 0%nat.
Proof.
  induction line as [| c rest IH]; [reflexivity |].
  rewrite text_of_cons. destruct (is_horizontal_blank c) eqn:E; [exact IH |].
  cbn [blank_length]. rewrite E. reflexivity.
Qed.

(** In front of a text that starts with no blank, the indentation of a line
    is an indentation, and the text a text. *)
Lemma indent_of_indented (ref text : string) :
  blank_length text = 0%nat ->
  indent_of (String.append (indent_of ref) text) = indent_of ref
  /\ text_of (String.append (indent_of ref) text) = text.
Proof.
  intros Htext. induction ref as [| c rest IH].
  - change (indent_of EmptyString) with EmptyString. cbn [String.append].
    unfold indent_of, text_of. rewrite Htext, Nat.sub_0_r.
    split; [destruct text; reflexivity | apply substring_all].
  - rewrite indent_of_cons. destruct (is_horizontal_blank c) eqn:E.
    + cbn [String.append]. rewrite indent_of_cons, text_of_cons, E.
      destruct IH as [IH1 IH2]. rewrite IH1, IH2. split; reflexivity.
    + cbn [String.append].
      unfold indent_of, text_of. rewrite Htext, Nat.sub_0_r.
      split; [destruct text; reflexivity | apply substring_all].
Qed.

Lemma set_indent_line (indent : string) (buffer : Buffer) (x l : Z) :
  0 <= x -> 0 <= l ->
  line_at (set_indent indent buffer x) l
  = if decide (x = l /\ (Z.to_nat l < length buffer)%nat)
    then String.append indent (text_of (line_at buffer l))
    else line_at buffer l.
Proof.
  intros Hx Hl. unfold set_indent, line_at, Buffer in *. rewrite !nth_lookup.
  rewrite list_lookup_insert.
  destruct (decide (x = l /\ (Z.to_nat l < length buffer)%nat)) as [[-> Hin] | Hno].
  - rewrite decide_True by (split; [reflexivity | exact Hin]). reflexivity.
  - rewrite decide_False; [reflexivity |].
    intros [Heq Hin]. apply Hno. split; [lia |].
    replace l with x by lia. exact Hin.
Qed.

Lemma all_lines_touched (sels : list Selection) (l : Z) :
  l ∈ all_lines sels <-> touched sels l.
Proof.
  unfold all_lines, touched.
  rewrite list_elem_of_In, in_flat_map. split.
  - intros (sel & Hsel & Hl). exists sel.
    apply list_elem_of_In in Hsel. apply list_elem_of_In, elem_of_seqZ in Hl.
    split; [exact Hsel | lia].
  - intros (sel & Hsel & Hl). exists sel.
    split; [apply list_elem_of_In, Hsel |].
    apply list_elem_of_In, elem_of_seqZ. lia.
Qed.

Lemma copy_indent_loop (ref_line : Z) (ref : string) (lines : list Z) :
  Forall (fun l => 0 <= l) lines ->
  forall buffer : Buffer,
    let buffer' :=
      fold_left (fun buffer l =>
                   if l =? ref_line then buffer
                   else set_indent (indent_of ref) buffer l)
                lines buffer in
    length buffer' = length buffer
    /\ forall l, 0 <= l ->
         line_at buffer' l
         = if decide (l ∈ lines /\ l <> ref_line
                      /\ (Z.to_nat l < length buffer)%nat)
           then String.append (indent_of ref) (text_of (line_at buffer l))
           else line_at buffer l.
Proof.
  intros Hlines. induction Hlines as [| x lines Hx Hlines IH]; intros buffer.
  - split; [reflexivity |]. intros l Hl. cbn [fold_left].
    rewrite decide_False; [reflexivity |].
    intros [Hnil _]. inversion Hnil.
  - cbn [fold_left]. cbv zeta.
    set (buffer1 := if x =? ref_line then buffer
                    else set_indent (indent_of ref) buffer x).
    assert (Hlen : length buffer1 = length buffer).
    { unfold buffer1. destruct (x =? ref_line); [reflexivity |].
      apply length_insert. }
    assert (Hline : forall l, 0 <= l ->
               line_at buffer1 l
               = if decide (x = l /\ l <> ref_line
                            /\ (Z.to_nat l < length buffer)%nat)
                 then String.append (indent_of ref) (text_of (line_at buffer l))
                 else line_at buffer l).
    { intros l Hl. unfold buffer1.
      destruct (Z.eqb_spec x ref_line) as [Href | Href].
      - rewrite decide_False; [reflexivity |]. intros (-> & Hne & _). congruence.
      - rewrite set_indent_line by assumption.
        destruct (decide (x = l /\ (Z.to_nat l < length buffer)%nat))
          as [[-> Hin] | Hno].
        + rewrite decide_True by (repeat split; assumption). reflexivity.
        + rewrite decide_False; [reflexivity |].
          intros (Heq & _ & Hin). apply Hno. split; assumption. }
    destruct (IH buffer1) as [IHlen IHline]. cbv zeta in IHlen, IHline.
    split; [congruence |]. intros l Hl.
    rewrite (IHline l Hl), (Hline l Hl), Hlen.
    destruct (decide (l ∈ lines /\ l <> ref_line
                      /\ (Z.to_nat l < length buffer)%nat))
      as [(Hin & Hne & Hrange) | Hno].
    + rewrite (decide_True (P := l ∈ x :: lines /\ _))
        by (split; [right; exact Hin | split; assumption]).
      destruct (decide (x = l /\ l <> ref_line
                        /\ (Z.to_nat l < length buffer)%nat)); [| reflexivity].
      destruct (indent_of_indented ref (text_of (line_at buffer l))
                  (text_of_starts _)) as [_ Htext].
      rewrite Htext. reflexivity.
    + destruct (decide (x = l /\ l <> ref_line
                        /\ (Z.to_nat l < length buffer)%nat))
        as [(-> & Hne & Hrange) | Hno'].
      * rewrite decide_True by (split; [left | split; assumption]). reflexivity.
      * rewrite decide_False; [reflexivity |].
        intros (Hin & Hne & Hrange).
        apply elem_of_cons in Hin as [-> | Hin].
        -- apply Hno'. repeat split; assumption.
        -- apply Hno. repeat split; assumption.
Qed.

(** X10 (copy_indent): with a count that names a selection, or none,
    copy_indent gives every line a selection touches the leading blanks of
    the reference line and keeps what follows the blanks on each line; the
    lines no selection touches, and the number of lines, do not change. *)
Theorem copy_indent_copies (count : Z) (buffer : Buffer) (sels : SelectionList)
  (Hcount : 0 <= count <= Z.of_nat (size sels))
  (Hlines : Forall (fun s => 0 <= line (sel_min s)
                             /\ line (sel_max s) < Z.of_nat (length buffer))
                   (selections sels)) :
  exists buffer',
    copy_indent count buffer sels = (Return tt, buffer')
    /\ length buffer' = length buffer
    /\ forall l, 0 <= l ->
         (touched (selections sels) l ->
          indent_of (line_at buffer' l)
          = indent_of (line_at buffer (ref_line count sels))
          /\ text_of (line_at buffer' l) = text_of (line_at buffer l))
         /\ (~ touched (selections sels) l ->
             line_at buffer' l = line_at buffer l).
Proof.
  unfold copy_indent.
  destruct (Z.ltb_spec (Z.of_nat (size sels)) (to_size_t count)) as [Hbad | _].
  { exfalso. unfold to_size_t in Hbad.
    pose proof (Z.mod_le count (2 ^ 64) ltac:(lia) ltac:(lia)). lia. }
  eexists. split; [reflexivity |].
  assert (Hpos : Forall (fun l => 0 <= l) (all_lines (selections sels))).
  { apply Forall_forall. intros l Hl.
    apply all_lines_touched in Hl as (sel & Hsel & Hl).
    rewrite List.Forall_forall in Hlines.
    apply list_elem_of_In, Hlines in Hsel. lia. }
  destruct (copy_indent_loop (ref_line count sels)
              (line_at buffer (ref_line count sels))
              (all_lines (selections sels)) Hpos buffer) as [Hlen Hline].
  cbv zeta in Hlen, Hline.
  split; [exact Hlen |]. intros l Hl. rewrite (Hline l Hl). split.
  - intros Htouched.
    assert (Hrange : (Z.to_nat l < length buffer)%nat).
    { destruct Htouched as (sel & Hsel & Hrange).
      rewrite List.Forall_forall in Hlines.
      apply list_elem_of_In, Hlines in Hsel. lia. }
    destruct (decide (l ∈ all_lines (selections sels)
                      /\ l <> ref_line count sels
                      /\ (Z.to_nat l < length buffer)%nat)) as [_ | Hno].
    + apply indent_of_indented, text_of_starts.
    + assert (l = ref_line count sels) as ->.
      { destruct (Z.eq_dec l (ref_line count sels)) as [Heq | Hne]; [exact Heq |].
        exfalso. apply Hno. split; [apply all_lines_touched, Htouched |].
        split; assumption. }
      split; reflexivity.
  - intros Huntouched. rewrite decide_False; [reflexivity |].
    intros (Hin & _). apply Huntouched, all_lines_touched, Hin.
Qed.

(** X11 (copy_indent): the count is compared with the number of selections
    as a size_t.  For a count that fits an int, and fewer than 2^63
    selections, copy_indent is refused with "invalid selection index",
    the buffer untouched, exactly when the count is negative or larger
    than the number of selections; every other count edits the buffer and
    returns. *)
Theorem copy_indent_invalid_index (count : Z) (buffer : Buffer)
  (sels : SelectionList)
  (Hint : - 2 ^ 31 <= count < 2 ^ 31)
  (Hsize : Z.of_nat (size sels) < 2 ^ 63) :
  (count < 0 \/ Z.of_nat (size sels) < count ->
   copy_indent count buffer sels
   = (Throw (runtime_error "invalid selection index"), buffer))
  /\ (0 <= count <= Z.of_nat (size sels) ->
      exists buffer', copy_indent count buffer sels = (Return tt, buffer')).
Proof.
  unfold copy_indent, to_size_t. split.
  - intros Hbad.
    destruct (Z.ltb_spec (Z.of_nat (size sels)) (count mod 2 ^ 64))
      as [_ | Hok]; [reflexivity |].
    exfalso. destruct Hbad as [Hneg | Hbig].
    + replace count with (count + 2 ^ 64 + (-1) * 2 ^ 64) in Hok by lia.
      rewrite Z.mod_add, Z.mod_small in Hok by lia. lia.
    + rewrite Z.mod_small in Hok by lia. lia.
  - intros Hgood.
    destruct (Z.ltb_spec (Z.of_nat (size sels)) (count mod 2 ^ 64))
      as [Hbad | _]; [| eexists; reflexivity].
    exfalso. rewrite Z.mod_small in Hbad by lia. lia.
Qed.

End CopyIndentFacts.

(** *** tabs_to_spaces *)

(** X12 (tabs_to_spaces): with a positive tab stop, every tab found is
    replaced by at least one and at most a tab stop of spaces, as many as
    bring the column after it on the next multiple of the tab stop. *)
Theorem tabs_to_spaces_reach_tab_stop `{!Text} (opt_tabstop count : Z)
  (buffer : Buffer) (sels : list Selection)
  (Htabstop : 0 < tabstop_for opt_tabstop count)
  (Hcolumns : Forall
                (fun sel =>
                   Forall (fun it => 0 <= get_column buffer opt_tabstop (fst it))
                          (bytes buffer sel))
                sels) :
  Forall
    (fun found : Selection * string =>
       anchor (fst found) = cursor (fst found)
       /\ exists n,
            snd found = make_string space n
            /\ 1 <= n <= tabstop_for opt_tabstop count
            /\ (get_column buffer opt_tabstop (cursor (fst found)) + n)
                 mod tabstop_for opt_tabstop count = 0)
    (tabs_and_spaces opt_tabstop count buffer sels).
Proof.
  unfold tabs_and_spaces.
  rewrite List.Forall_forall in Hcolumns.
  apply Forall_flat_map, List.Forall_forall. intros sel Hsel.
  specialize (Hcolumns sel Hsel). rewrite List.Forall_forall in Hcolumns.
  apply Forall_flat_map, List.Forall_forall. intros [coord c] Hit.
  specialize (Hcolumns _ Hit). cbn [fst snd] in *.
  destruct (Ascii.eqb c tab); [| constructor].
  constructor; [| constructor]. cbn [fst snd anchor cursor].
  split; [reflexivity |].
  set (tabstop := tabstop_for opt_tabstop count) in *.
  set (col := get_column buffer opt_tabstop coord).
  assert (Hcol : 0 <= col) by exact Hcolumns.
  rewrite Z.quot_div_nonneg by lia.
  pose proof (Z.div_mod col tabstop ltac:(lia)) as Hdiv.
  pose proof (Z.mod_pos_bound col tabstop Htabstop) as Hmod.
  exists ((col / tabstop + 1) * tabstop - col).
  split; [reflexivity |]. split; [nia |].
  replace (col + ((col / tabstop + 1) * tabstop - col))
    with ((col / tabstop + 1) * tabstop) by lia.
  apply Z.mod_mul. lia.
Qed.

(** *** Examples *)

Lemma each_line_visited_once_witness :
  each_line_once (fun l => [l; l]) 0 (selections two_selections)
  = flat_map (fun l => [l; l]) (visited (selections two_selections))
  /\ StronglySorted Z.lt (visited (selections two_selections))
  /\ (forall l, l ∈ visited (selections two_selections)
                <-> touched (selections two_selections) l)
  /\ visited (selections two_selections) = [0].
Proof.
  split; [| split; [| split]]; [.. | reflexivity];
    apply (each_line_visited_once (fun l => [l; l]) (selections two_selections)
             (SelectionFacts.sorted_by_minb_sound (selections two_selections)
                eq_refl)
             (proj1 (SelectionFacts.pairwise_disjointb_spec
                       (selections two_selections)) eq_refl));
    repeat constructor; discriminate.
Defined.

(** Four spaces, then text: one indentation of four columns goes. *)
Lemma deindent_erases_blanks_only_witness :
  deindent_scan 8 4 true "    text" 0 0 = Some 3
  /\ 0 <= 3 < Z.of_nat (String.length "    text")
  /\ all_blank (substring 0 (Z.to_nat (3 + 1)) "    text") = true.
Proof.
  split; [reflexivity |].
  destruct (deindent_erases_blanks_only 8 4 true "    text" 3 eq_refl)
    as (Hrange & Hblank & _).
  split; assumption.
Defined.

(** A tab in front of the text, wider than the indentation: deindent<true>
    takes it, deindent<false> leaves the line alone. *)
Lemma deindent_incomplete_erases_iff_witness :
  is_Some (deindent_scan 8 4 true (String tab "text") 0 0)
  /\ deindent_scan 8 4 true (String tab "text") 0 0 = Some 0
  /\ deindent_scan 8 4 false (String tab "text") 0 0 = None.
Proof.
  split; [| split; reflexivity].
  apply (proj2 (deindent_incomplete_erases_iff 8 4 (String tab EmptyString)
                  "t" "ext" eq_refl eq_refl eq_refl)).
  discriminate.
Defined.

Lemma copy_indent_copies_witness :
  (exists buffer',
     @copy_indent ascii_blanks 0 demo_buffer demo_selections
     = (Return tt, buffer')
     /\ length buffer' = length demo_buffer
     /\ forall l, 0 <= l ->
          (touched (selections demo_selections) l ->
           @indent_of ascii_blanks (line_at buffer' l)
           = @indent_of ascii_blanks
               (line_at demo_buffer (ref_line 0 demo_selections))
           /\ @text_of ascii_blanks (line_at buffer' l)
              = @text_of ascii_blanks (line_at demo_buffer l))
          /\ (~ touched (selections demo_selections) l ->
              line_at buffer' l = line_at demo_buffer l))
  /\ @copy_indent ascii_blanks 0 demo_buffer demo_selections
     = (Return tt,
        [ String tab (String "a" (String "010" EmptyString));
          String tab (String "b" (String "010" EmptyString));
          String tab (String "c" (String "010" EmptyString));
          String "010" EmptyString ]).
Proof.
  split; [| reflexivity].
  apply (@copy_indent_copies ascii_blanks 0 demo_buffer demo_selections).
  - split; [reflexivity | discriminate].
  - repeat constructor; discriminate.
Defined.

Lemma copy_indent_invalid_index_witness :
  @copy_indent ascii_blanks (-1) demo_buffer demo_selections
  = (Throw (runtime_error "invalid selection index"), demo_buffer)
  /\ @copy_indent ascii_blanks 3 demo_buffer demo_selections
     = (Throw (runtime_error "invalid selection index"), demo_buffer).
Proof.
  split.
  - apply (@copy_indent_invalid_index ascii_blanks (-1) demo_buffer
             demo_selections); [lia | vm_compute; reflexivity | left; lia].
  - apply (@copy_indent_invalid_index ascii_blanks 3 demo_buffer
             demo_selections);
      [lia | vm_compute; reflexivity | right; vm_compute; reflexivity].
Defined.

Lemma tabs_to_spaces_reach_tab_stop_witness :
  Forall
    (fun found : Selection * string =>
       anchor (fst found) = cursor (fst found)
       /\ exists n,
            snd found = make_string space n
            /\ 1 <= n <= tabstop_for 8 0
            /\ (@get_column demo_text demo_buffer 8 (cursor (fst found)) + n)
                 mod tabstop_for 8 0 = 0)
    (@tabs_and_spaces demo_text 8 0 demo_buffer (selections demo_selections))
  /\ @tabs_and_spaces demo_text 8 0 demo_buffer (selections demo_selections)
     = [(mkSel (mkCoord 0 0) (mkCoord 0 0) [], make_string space 8)].
Proof.
  split; [| reflexivity].
  apply (@tabs_to_spaces_reach_tab_stop demo_text 8 0 demo_buffer
           (selections demo_selections)).
  - reflexivity.
  - repeat constructor; discriminate.
Defined.

End IndentFacts.

(* ================================================================== *)
(** ** utf8::iterator *)
(* ================================================================== *)

Module Utf8Facts.

Import Utf8.

Local Open Scope Z_scope.

Section IteratorFacts.

Context `{!Encoding}.

(** The cache holds nothing, or the code point at the position. *)
Lemma forward_cache (count : nat) :
  forall it,
    m_value it = -1 \/ m_value it = codepoint (m_it it) ->
    m_value (forward count it) = -1
    \/ m_value (forward count it) = codepoint (m_it (forward count it)).
Proof.
  induction count as [| count IH]; intros it Hit; [exact Hit |].
  cbn [forward]. apply IH. left. reflexivity.
Qed.

Lemma backward_cache (count : nat) :
  forall it,
    m_value it = -1 \/ m_value it = codepoint (m_it it) ->
    m_value (backward count it) = -1
    \/ m_value (backward count it) = codepoint (m_it (backward count it)).
Proof.
  induction count as [| count IH]; intros it Hit; [exact Hit |].
  cbn [backward]. apply IH. left. reflexivity.
Qed.

Lemma advance_cache (count : nat) (end_ : iterator) :
  forall it,
    m_value it = -1 \/ m_value it = codepoint (m_it it) ->
    m_value (advance_loop count it end_) = -1
    \/ m_value (advance_loop count it end_)
       = codepoint (m_it (advance_loop count it end_)).
Proof.
  induction count as [| count IH]; intros it Hit; [exact Hit |].
  cbn [advance_loop]. destruct (m_it it =? m_it end_); [exact Hit |].
  apply IH. left. reflexivity.
Qed.

Lemma built_cache (it : iterator) :
  built it -> m_value it = -1 \/ m_value it = codepoint (m_it it).
Proof.
  intros Hbuilt.
  induction Hbuilt as [it | it _ _ | it _ _ | it count _ IH | it count _ IH
                       | it end_ count _ IH | it _ IH].
  - left. reflexivity.
  - left. reflexivity.
  - left. reflexivity.
  - unfold plus. destruct (count <? 0);
      [apply backward_cache | apply forward_cache]; exact IH.
  - unfold minus. destruct (count <? 0);
      [apply forward_cache | apply backward_cache]; exact IH.
  - apply advance_cache, IH.
  - unfold get_value. destruct (Z.eqb_spec (m_value it) (-1)) as [Hnone | Hsome].
    + right. reflexivity.
    + cbn [snd]. exact IH.
Qed.

(** X13 (utf8::iterator): the cached code point is never stale.  However
    an iterator has been moved and read since make_iterator built it,
    dereferencing it gives the code point at its current position. *)
Theorem deref_reads_position (it : iterator) (Hbuilt : built it) :
  deref it = codepoint (m_it it).
Proof.
  apply built_cache in Hbuilt. unfold deref, get_value.
  destruct (Z.eqb_spec (m_value it) (-1)) as [Hnone | Hsome]; cbn [fst].
  - reflexivity.
  - destruct Hbuilt as [Hcache | Hcache]; [contradiction | exact Hcache].
Qed.

Lemma forward_position (count : nat) :
  forall it, m_it (forward count it) = Nat.iter count next (m_it it).
Proof.
  induction count as [| count IH]; intros it; [reflexivity |].
  cbn [forward]. rewrite IH. rewrite Nat.iter_succ_r. reflexivity.
Qed.

Lemma backward_position (count : nat) :
  forall it, m_it (backward count it) = Nat.iter count previous (m_it it).
Proof.
  induction count as [| count IH]; intros it; [reflexivity |].
  cbn [backward]. rewrite IH. rewrite Nat.iter_succ_r. reflexivity.
Qed.

Section Steps.

(** The positions where a character starts, which a step forward keeps
    to. *)
Variable valid : Z -> Prop.
Hypothesis valid_next : forall p, valid p -> valid (next p).

Lemma valid_iter (count : nat) (p : Z) :
  valid p -> valid (Nat.iter count next p).
Proof.
  intros Hp. induction count as [| count IH]; [exact Hp |].
  change (Nat.iter (S count) next p) with (next (Nat.iter count next p)).
  apply valid_next, IH.
Qed.

Lemma round_trip_positions
  (Hback : forall p, valid p -> previous (next p) = p) (count : nat) (p : Z) :
  valid p -> Nat.iter count previous (Nat.iter count next p) = p.
Proof.
  intros Hp. induction count as [| count IH]; [reflexivity |].
  rewrite Nat.iter_succ_r.
  change (Nat.iter (S count) next p) with (next (Nat.iter count next p)).
  rewrite Hback by (apply valid_iter, Hp). exact IH.
Qed.

Lemma forward_further
  (Hgrows : forall p, valid p -> p < next p) (count : nat) (p : Z) :
  valid p -> p + Z.of_nat count <= Nat.iter count next p.
Proof.
  intros Hp. induction count as [| count IH]; [simpl; lia |].
  change (Nat.iter (S count) next p) with (next (Nat.iter count next p)).
  pose proof (Hgrows _ (valid_iter count p Hp)). lia.
Qed.

End Steps.

(** X14 (utf8::iterator): where stepping back undoes a step forward (the
    character starts of a text), going [count] characters forward and then
    [count] back leads to the position the iterator started from; and adding
    a negated count is subtracting the count, whatever its sign. *)
Theorem plus_minus_round_trip (valid : Z -> Prop) (it : iterator) (count : Z)
  (Hnext : forall p, valid p -> valid (next p))
  (Hback : forall p, valid p -> previous (next p) = p)
  (Hit : valid (m_it it)) (Hcount : 0 <= count) :
  m_it (minus (plus it count) count) = m_it it
  /\ plus it (- count) = minus it count
  /\ minus it (- count) = plus it count.
Proof.
  split; [| split].
  - unfold plus, minus. destruct (Z.ltb_spec count 0) as [Hneg | _]; [lia |].
    rewrite backward_position, forward_position.
    apply (round_trip_positions valid Hnext Hback), Hit.
  - unfold plus, minus.
    destruct (Z.ltb_spec (- count) 0), (Z.ltb_spec count 0); try lia.
    + rewrite Z.opp_involutive. reflexivity.
    + replace count with 0 by lia. reflexivity.
  - unfold plus, minus.
    destruct (Z.ltb_spec (- count) 0), (Z.ltb_spec count 0); try lia.
    + rewrite Z.opp_involutive. reflexivity.
    + replace count with 0 by lia. reflexivity.
Qed.

Lemma distance_loop_forward (valid : Z -> Prop)
  (Hnext : forall p, valid p -> valid (next p))
  (Hgrows : forall p, valid p -> p < next p) (count : nat) :
  forall (fuel : nat) (other : iterator) (dist : Z),
    valid (m_it other) -> (count <= fuel)%nat ->
    distance_loop fuel (forward count other) other dist
    = Some (dist + Z.of_nat count).
Proof.
  induction count as [| count IH]; intros fuel other dist Hother Hfuel.
  - cbn [forward]. destruct fuel; cbn [distance_loop];
      rewrite Z.ltb_irrefl; f_equal; lia.
  - destruct fuel as [| fuel]; [lia |].
    cbn [distance_loop].
    pose proof (forward_further valid Hnext Hgrows count (next (m_it other))
                  (Hnext _ Hother)) as Hfar.
    pose proof (Hgrows _ Hother) as Hstep.
    assert (Hlt : m_it other < m_it (forward (S count) other)).
    { cbn [forward]. rewrite forward_position. cbn [incr invalidate_value m_it].
      lia. }
    apply Z.ltb_lt in Hlt. rewrite Hlt.
    cbn [forward]. rewrite IH; [f_equal; lia | apply Hnext, Hother | lia].
Qed.

(** X15 (utf8::iterator): where a step forward moves to a later position,
    the distance from an iterator to the one [count] characters further is
    [count]: the loop of the difference operator ends, after [count]
    rounds. *)
Theorem distance_counts_steps (valid : Z -> Prop) (it : iterator) (count : Z)
  (fuel : nat)
  (Hnext : forall p, valid p -> valid (next p))
  (Hgrows : forall p, valid p -> p < next p)
  (Hit : valid (m_it it)) (Hcount : 0 <= count)
  (Hfuel : (Z.to_nat count <= fuel)%nat) :
  distance fuel (plus it count) it = Some count.
Proof.
  unfold distance, plus. destruct (Z.ltb_spec count 0) as [Hneg | _]; [lia |].
  rewrite (distance_loop_forward valid Hnext Hgrows) by assumption.
  f_equal. lia.
Qed.

Lemma distance_loop_bounded (valid : Z -> Prop)
  (Hnext : forall p, valid p -> valid (next p))
  (Hgrows : forall p, valid p -> p < next p) (it : iterator) (fuel : nat) :
  forall (other : iterator) (dist : Z),
    valid (m_it other) -> (Z.to_nat (m_it it - m_it other) <= fuel)%nat ->
    exists dist',
      distance_loop fuel it other dist = Some dist'
      /\ dist <= dist' <= dist + Z.max 0 (m_it it - m_it other).
Proof.
  induction fuel as [| fuel IH]; intros other dist Hother Hfuel.
  - cbn [distance_loop].
    destruct (Z.ltb_spec (m_it other) (m_it it)) as [Hlt | Hge]; [lia |].
    exists dist. split; [reflexivity | lia].
  - cbn [distance_loop].
    destruct (Z.ltb_spec (m_it other) (m_it it)) as [Hlt | Hge].
    + pose proof (Hgrows _ Hother) as Hstep.
      destruct (IH (incr other) (dist + 1)) as (dist' & Hloop & Hbound).
      * apply Hnext, Hother.
      * cbn [incr invalidate_value m_it]. lia.
      * exists dist'. split; [exact Hloop |].
        cbn [incr invalidate_value m_it] in Hbound. lia.
    + exists dist. split; [reflexivity | lia].
Qed.

(** X16 (utf8::iterator): where a step forward moves to a later position,
    the difference of two iterators is always computed: the loop ends within
    as many rounds as there are bytes between them, the result is never
    negative and never more than that number of bytes; when the other
    iterator is not before this one it is 0. *)
Theorem distance_bounded (valid : Z -> Prop) (it other : iterator)
  (Hnext : forall p, valid p -> valid (next p))
  (Hgrows : forall p, valid p -> p < next p)
  (Hother : valid (m_it other)) :
  exists dist,
    distance (Z.to_nat (m_it it - m_it other)) it other = Some dist
    /\ 0 <= dist <= Z.max 0 (m_it it - m_it other).
Proof.
  destruct (distance_loop_bounded valid Hnext Hgrows it
              (Z.to_nat (m_it it - m_it other)) other 0 Hother (Nat.le_refl _))
    as (dist & Hloop & Hbound).
  exists dist. split; [exact Hloop | lia].
Qed.

Lemma advance_loop_forward (valid : Z -> Prop)
  (Hnext : forall p, valid p -> valid (next p))
  (Hgrows : forall p, valid p -> p < next p) (count : nat) :
  forall (k : nat) (it : iterator),
    valid (m_it it) ->
    m_it (advance_loop count it (forward k it))
    = m_it (forward (Nat.min count k) it).
Proof.
  induction count as [| count IH]; intros k it Hit; [reflexivity |].
  cbn [advance_loop]. destruct k as [| k].
  - cbn [forward]. rewrite Z.eqb_refl. reflexivity.
  - pose proof (forward_further valid Hnext Hgrows k (next (m_it it))
                  (Hnext _ Hit)) as Hfar.
    pose proof (Hgrows _ Hit) as Hstep.
    assert (Hne : m_it it <> m_it (forward (S k) it)).
    { cbn [forward]. rewrite forward_position. cbn [incr invalidate_value m_it].
      lia. }
    apply Z.eqb_neq in Hne. rewrite Hne.
    cbn [forward Nat.min]. apply IH, Hnext, Hit.
Qed.

(** X17 (utf8::iterator): advance never passes [end].  When [end] is [k]
    characters ahead, advancing by [count] stops after the smaller of
    [count] and [k] characters. *)
Theorem advance_stops_at_end (valid : Z -> Prop) (it : iterator) (count k : Z)
  (Hnext : forall p, valid p -> valid (next p))
  (Hgrows : forall p, valid p -> p < next p)
  (Hit : valid (m_it it)) (Hcount : 0 <= count) (Hk : 0 <= k) :
  m_it (advance it count (plus it k)) = m_it (plus it (Z.min count k)).
Proof.
  unfold advance, plus.
  destruct (Z.ltb_spec k 0), (Z.ltb_spec (Z.min count k) 0); try lia.
  rewrite (advance_loop_forward valid Hnext Hgrows) by exact Hit.
  rewrite Z2Nat.inj_min. reflexivity.
Qed.

End IteratorFacts.

(** On plain ASCII text every position starts a character. *)
Lemma deref_reads_position_witness :
  @deref ascii_text
    (snd (@get_value ascii_text
            (@minus ascii_text (@plus ascii_text (make_iterator 0) 3) 1)))
  = 67.
Proof.
  apply (@deref_reads_position ascii_text).
  apply built_read, built_minus, built_plus, built_make.
Defined.

Lemma plus_minus_round_trip_witness :
  m_it (@minus ascii_text (@plus ascii_text (make_iterator 4) 3) 3) = 4
  /\ @plus ascii_text (make_iterator 4) (- 3) = @minus ascii_text (make_iterator 4) 3
  /\ @minus ascii_text (make_iterator 4) (- 3) = @plus ascii_text (make_iterator 4) 3.
Proof.
  apply (@plus_minus_round_trip ascii_text (fun _ => True) (make_iterator 4) 3).
  - intros p _. exact I.
  - intros p _. apply Z.pred_succ.
  - exact I.
  - discriminate.
Defined.

Lemma distance_counts_steps_witness :
  @distance ascii_text 3 (@plus ascii_text (make_iterator 4) 3) (make_iterator 4)
  = Some 3.
Proof.
  apply (@distance_counts_steps ascii_text (fun _ => True) (make_iterator 4) 3 3).
  - intros p _. exact I.
  - intros p _. apply Z.lt_succ_diag_r.
  - exact I.
  - discriminate.
  - reflexivity.
Defined.

Lemma distance_bounded_witness :
  (exists dist,
     @distance ascii_text (Z.to_nat (m_it (make_iterator 2) - m_it (make_iterator 7)))
       (make_iterator 2) (make_iterator 7) = Some dist
     /\ 0 <= dist <= Z.max 0 (m_it (make_iterator 2) - m_it (make_iterator 7)))
  /\ @distance ascii_text 0 (make_iterator 2) (make_iterator 7) = Some 0.
Proof.
  split; [| reflexivity].
  apply (@distance_bounded ascii_text (fun _ => True) (make_iterator 2)
           (make_iterator 7)).
  - intros p _. exact I.
  - intros p _. apply Z.lt_succ_diag_r.
  - exact I.
Defined.

Lemma advance_stops_at_end_witness :
  m_it (@advance ascii_text (make_iterator 0) 5
          (@plus ascii_text (make_iterator 0) 2))
  = m_it (@plus ascii_text (make_iterator 0) (Z.min 5 2))
  /\ m_it (@advance ascii_text (make_iterator 0) 5
             (@plus ascii_text (make_iterator 0) 2)) = 2.
Proof.
  split; [| reflexivity].
  apply (@advance_stops_at_end ascii_text (fun _ => True) (make_iterator 0) 5 2).
  - intros p _. exact I.
  - intros p _. apply Z.lt_succ_diag_r.
  - exact I.
  - discriminate.
  - discriminate.
Defined.

End Utf8Facts.

(* ================================================================== *)
(** ** Rotation of the contents *)
(* ================================================================== *)

Module RotateFacts.

Import Rotate.

Local Open Scope Z_scope.

Lemma rotate_group_permutes {A : Type} (count : nat) (group : list A) :
  rotate_group count group ≡ₚ group.
Proof.
  unfold rotate_group. rewrite Permutation_app_comm, take_drop. reflexivity.
Qed.

Lemma rotate_groups_permutes {A : Type} (group count : nat) (fuel : nat) :
  (0 < group)%nat ->
  forall strings : list A,
    (length strings <= fuel)%nat ->
    exists strings',
      rotate_groups fuel group count strings = Some strings'
      /\ strings' ≡ₚ strings.
Proof.
  intros Hgroup. induction fuel as [| fuel IH]; intros strings Hfuel.
  - destruct strings; [| simpl in Hfuel; lia]. exists []. split; reflexivity.
  - destruct strings as [| s strings]; [exists []; split; reflexivity |].
    cbn [rotate_groups].
    destruct (IH (drop group (s :: strings))) as (rest & Hrest & Hperm).
    { rewrite length_drop. cbn [length] in *. lia. }
    rewrite Hrest. cbn [mbind option_bind].
    eexists. split; [reflexivity |].
    rewrite rotate_group_permutes, Hperm, take_drop. reflexivity.
Qed.

(** X18 (rotate_selections_content): the contents are only moved around.
    For a selection list that is not empty and any count, the loop ends and
    the strings put back are a rearrangement of the contents, as many as
    there were. *)
Theorem rotate_content_permutes {A : Type} (count : Z) (strings : list A)
  (Hstrings : strings <> []) (Hcount : 0 <= count) :
  exists strings',
    rotated count strings = Some strings'
    /\ strings' ≡ₚ strings
    /\ length strings' = length strings.
Proof.
  unfold rotated.
  assert (Hgroup : (0 < Z.to_nat (group_size count (length strings)))%nat).
  { unfold group_size. destruct strings; [contradiction |]. cbn [length].
    destruct (Z.eqb_spec count 0); cbn [orb]; [lia |].
    destruct (Z.ltb_spec (Z.of_nat (S (length strings))) count); lia. }
  destruct (rotate_groups_permutes (A := A) _
              (Z.to_nat (Z.rem 1 (group_size count (length strings))))
              (length strings) Hgroup strings (Nat.le_refl _))
    as (strings' & Hloop & Hperm).
  exists strings'. split; [exact Hloop |]. split; [exact Hperm |].
  apply Permutation_length, Hperm.
Qed.

Lemma rotate_group_last {A : Type} (init : list A) (x : A) :
  rotate_group 1 (init ++ [x]) = x :: init.
Proof.
  unfold rotate_group. rewrite length_app. cbn [length].
  replace (length init + 1 - 1)%nat with (length init) by lia.
  rewrite drop_app_length, take_app_length. reflexivity.
Qed.

Lemma rotate_group_single {A : Type} (count : nat) (x : A) :
  rotate_group count [x] = [x].
Proof. destruct count as [| [| count]]; reflexivity. Qed.

(** One round of the loop rotates what is left when the group holds it
    all. *)
Lemma rotate_groups_whole {A : Type} (fuel group count : nat) (strings : list A) :
  strings <> [] -> (length strings <= group)%nat ->
  rotate_groups (S fuel) group count strings
  = Some (rotate_group count strings).
Proof.
  intros Hne Hgroup. destruct strings as [| s strings]; [contradiction |].
  cbn [rotate_groups].
  rewrite drop_ge by exact Hgroup. rewrite take_ge by exact Hgroup.
  destruct fuel; cbn [rotate_groups mbind option_bind];
    rewrite app_nil_r; reflexivity.
Qed.

Lemma rem_1 (group : Z) : 2 <= group -> Z.rem 1 group = 1.
Proof. intros Hgroup. apply Z.rem_small. lia. Qed.

(** X19 (rotate_selections_content): without a count, or with a count
    larger than the number of selections, the content of the last selection
    goes to the first and the content of every other selection to the one
    after it. *)
Theorem rotate_content_last_first {A : Type} (count : Z) (init : list A) (x : A)
  (Hcount : count = 0 \/ Z.of_nat (length (init ++ [x])) < count) :
  rotated count (init ++ [x]) = Some (x :: init).
Proof.
  unfold rotated.
  assert (Hgroup : group_size count (length (init ++ [x]))
                   = Z.of_nat (length (init ++ [x]))).
  { unfold group_size. destruct Hcount as [-> | Hcount]; [reflexivity |].
    apply Z.ltb_lt in Hcount. rewrite Hcount, orb_true_r. reflexivity. }
  rewrite Hgroup, Nat2Z.id.
  assert (Hlen : length (init ++ [x]) = S (length init))
    by (rewrite length_app; cbn [length]; lia).
  rewrite Hlen at 1.
  rewrite rotate_groups_whole; [| destruct init; discriminate | lia].
  f_equal. destruct init as [| y init].
  - apply rotate_group_single.
  - rewrite rem_1 by (rewrite Hlen; cbn [length]; lia).
    apply rotate_group_last.
Qed.

Lemma rotate_groups_fuel {A : Type} (group count : nat) (fuel : nat) :
  (0 < group)%nat ->
  forall (fuel' : nat) (strings : list A),
    (length strings <= fuel)%nat -> (length strings <= fuel')%nat ->
    rotate_groups fuel group count strings
    = rotate_groups fuel' group count strings.
Proof.
  intros Hgroup. induction fuel as [| fuel IH]; intros fuel' strings Hfuel Hfuel'.
  - destruct strings; [| simpl in Hfuel; lia]. destruct fuel'; reflexivity.
  - destruct strings as [| s strings]; [destruct fuel'; reflexivity |].
    destruct fuel' as [| fuel']; [simpl in Hfuel'; lia |].
    cbn [rotate_groups].
    rewrite (IH fuel'); [reflexivity | |];
      rewrite length_drop; cbn [length] in *; lia.
Qed.

(** X20 (rotate_selections_content): with a count of at least 2, the
    contents rotate inside groups of [count] selections.  The last content
    of the first group goes to the front of that group, and the selections
    after the group are treated the same way, on their own. *)
Theorem rotate_content_by_groups {A : Type} (count : Z) (init : list A) (x : A)
  (rest : list A)
  (Hcount : 2 <= count) (Hgroup : Z.of_nat (length (init ++ [x])) = count) :
  rotated count ((init ++ [x]) ++ rest)
  = rest' ← rotated count rest; Some ((x :: init) ++ rest').
Proof.
  unfold rotated at 1.
  assert (Hsize : group_size count (length ((init ++ [x]) ++ rest)) = count).
  { unfold group_size. rewrite length_app.
    destruct (Z.eqb_spec count 0); [lia |]. cbn [orb].
    destruct (Z.ltb_spec (Z.of_nat (length (init ++ [x]) + length rest)) count);
      [lia | reflexivity]. }
  rewrite Hsize, rem_1 by exact Hcount.
  assert (Hlen : length (init ++ [x]) = Z.to_nat count) by lia.
  assert (Hfuel : length ((init ++ [x]) ++ rest)
                  = S (length init + length rest)).
  { rewrite !length_app. cbn [length]. lia. }
  rewrite Hfuel.
  destruct ((init ++ [x]) ++ rest) as [| s strings] eqn:Estrings.
  { destruct init; discriminate. }
  cbn [rotate_groups]. rewrite <- Estrings, <- Hlen.
  rewrite drop_app_length, take_app_length, rotate_group_last.
  assert (Hrest : rotate_groups (length init + length rest) (length (init ++ [x]))
                    (Z.to_nat 1) rest
                  = rotated count rest).
  { unfold rotated, group_size.
    destruct (Z.eqb_spec count 0); [lia |]. cbn [orb].
    destruct (Z.ltb_spec (Z.of_nat (length rest)) count) as [Hshort | Hlong].
    - rewrite Nat2Z.id. destruct rest as [| y rest].
      + destruct (length init + length [])%nat; reflexivity.
      + replace (length init + length (y :: rest))%nat
          with (S (length init + length rest)) by (cbn [length]; lia).
        rewrite rotate_groups_whole; [| discriminate | lia].
        change (rotate_groups (length (y :: rest)))
          with (rotate_groups (A := A) (S (length rest))).
        rewrite rotate_groups_whole; [| discriminate | lia].
        f_equal. destruct rest as [| z rest].
        * rewrite !rotate_group_single. reflexivity.
        * rewrite rem_1 by (cbn [length]; lia). reflexivity.
    - rewrite rem_1 by exact Hcount. rewrite Hlen.
      apply rotate_groups_fuel; lia. }
  rewrite Hrest. reflexivity.
Qed.

Lemma rotate_content_permutes_witness :
  exists strings',
    rotated 2 ["a"; "b"; "c"]%string = Some strings'
    /\ strings' ≡ₚ ["a"; "b"; "c"]%string
    /\ length strings' = length ["a"; "b"; "c"]%string.
Proof.
  apply (rotate_content_permutes 2 ["a"; "b"; "c"]%string);
    discriminate.
Defined.

Lemma rotate_content_last_first_witness :
  rotated 0 (["a"; "b"]%string ++ ["c"]%string) = Some ["c"; "a"; "b"]%string
  /\ rotated 7 (["a"; "b"]%string ++ ["c"]%string) = Some ["c"; "a"; "b"]%string.
Proof.
  split.
  - apply (rotate_content_last_first 0 ["a"; "b"]%string "c"%string).
    left. reflexivity.
  - apply (rotate_content_last_first 7 ["a"; "b"]%string "c"%string).
    right. reflexivity.
Defined.

Lemma rotate_content_by_groups_witness :
  rotated 2 ((["a"]%string ++ ["b"]%string) ++ ["c"; "d"; "e"]%string)
  = (rest' ← rotated 2 ["c"; "d"; "e"]%string;
     Some (("b"%string :: ["a"]%string) ++ rest'))
  /\ rotated 2 ((["a"]%string ++ ["b"]%string) ++ ["c"; "d"; "e"]%string)
     = Some ["b"; "a"; "d"; "c"; "e"]%string.
Proof.
  split; [| reflexivity].
  apply (rotate_content_by_groups 2 ["a"]%string "b"%string
           ["c"; "d"; "e"]%string).
  - discriminate.
  - reflexivity.
Defined.

End RotateFacts.

(* ================================================================== *)
(** ** split_lines *)
(* ================================================================== *)

Module SplitLinesFacts.

Import Selections SplitLines.

Local Open Scope Z_scope.

Section SplitLinesFacts.

Context {Buffer : Type} `{!Lines Buffer}.

Section Keep.

Hypothesis Hkeep : forall res ref,
    keep_direction res ref = res \/ keep_direction res ref = flipped res.

Lemma keep_direction_ends (res ref : Selection) :
  sel_min (keep_direction res ref) = sel_min res
  /\ sel_max (keep_direction res ref) = sel_max res.
Proof.
  destruct (Hkeep res ref) as [-> | ->]; [split; reflexivity |].
  destruct res as [[al ac] [cl cc] k]. unfold flipped.
  split; SelectionFacts.coord_solve.
Qed.

Lemma keep_direction_cursor_line (res ref : Selection) :
  line (anchor res) = line (cursor res) ->
  line (cursor (keep_direction res ref)) = line (cursor res).
Proof.
  intros Hres. destruct (Hkeep res ref) as [-> | ->]; [reflexivity |].
  exact Hres.
Qed.

Lemma keep_direction_one_line (res ref : Selection) :
  line (anchor res) = line (cursor res) ->
  line (anchor (keep_direction res ref)) = line (cursor (keep_direction res ref)).
Proof.
  intros Hres. destruct (Hkeep res ref) as [-> | ->]; [exact Hres |].
  symmetry. exact Hres.
Qed.

End Keep.

(** X21 (split_lines): when keep_direction does no more than choose the
    direction of its result, a selection is split into one selection for
    every line it has bytes on, from its first line to its last, each of
    them within its line; for a selection whose ends are positions of the
    buffer, the first starts where the selection starts and the last ends
    where it ends. *)
Theorem split_lines_one_per_line (buffer : Buffer) (sel : Selection)
  (Hkeep : forall res ref,
      keep_direction res ref = res \/ keep_direction res ref = flipped res)
  (Hmin : column (sel_min sel) < line_length buffer (line (sel_min sel)))
  (Hmax : 0 <= column (sel_max sel)) :
  Forall (fun piece => line (anchor piece) = line (cursor piece))
         (pieces buffer sel)
  /\ map (fun piece => line (cursor piece)) (pieces buffer sel)
     = seqZ (line (sel_min sel)) (line (sel_max sel) - line (sel_min sel) + 1)
  /\ (exists first rest,
         pieces buffer sel = first :: rest /\ sel_min first = sel_min sel)
  /\ (exists front final,
         pieces buffer sel = front ++ [final] /\ sel_max final = sel_max sel).
Proof.
  unfold pieces.
  destruct (Z.eqb_spec (line (anchor sel)) (line (cursor sel))) as [Hone | Hmany].
  - split; [repeat constructor; exact Hone |].
    assert (Hsame : line (sel_min sel) = line (cursor sel)
                    /\ line (sel_max sel) = line (cursor sel)).
    { unfold sel_min, sel_max. destruct (coord_ltb (anchor sel) (cursor sel));
        split; congruence. }
    destruct Hsame as [Hfirst Hlast]. split.
    + rewrite Hfirst, Hlast, Z.sub_diag. reflexivity.
    + split; [exists sel, [] | exists [], sel]; split; reflexivity.
  - pose proof (SelectionFacts.sel_min_le_max sel) as Hle.
    assert (Hlt : line (sel_min sel) < line (sel_max sel)).
    { unfold sel_min, sel_max, coord_le, coord_lt in *.
      destruct (coord_ltb (anchor sel) (cursor sel)); lia. }
    set (min := sel_min sel) in *. set (max := sel_max sel) in *.
    split; [| split; [| split]].
    + apply Forall_app. split; [| apply Forall_app; split].
      * repeat constructor. apply (keep_direction_one_line Hkeep). reflexivity.
      * apply Forall_map, Forall_forall. intros l _.
        apply (keep_direction_one_line Hkeep). reflexivity.
      * repeat constructor. apply (keep_direction_one_line Hkeep). reflexivity.
    + rewrite !map_app, map_map. cbn [map].
      rewrite !(keep_direction_cursor_line Hkeep) by reflexivity.
      erewrite map_ext;
        [| intros l; apply (keep_direction_cursor_line Hkeep); reflexivity].
      cbn [cursor line]. rewrite map_id.
      replace (line max - line min + 1)
        with (1 + ((line max - (line min + 1)) + 1)) by lia.
      rewrite seqZ_app by lia. rewrite seqZ_app by lia.
      replace (line min + 1 + (line max - (line min + 1))) with (line max) by lia.
      reflexivity.
    + eexists _, _. split; [reflexivity |].
      rewrite (proj1 (keep_direction_ends Hkeep _ sel)).
      destruct min as [l c]. cbn [line column] in Hmin.
      SelectionFacts.coord_solve.
    + eexists (_ :: _), _. split; [reflexivity |].
      rewrite (proj2 (keep_direction_ends Hkeep _ sel)).
      destruct max as [l c]. cbn [line column] in Hmax.
      SelectionFacts.coord_solve.
Qed.

End SplitLinesFacts.

(** A selection running backward from line 3 to line 1. *)
Lemma split_lines_one_per_line_witness :
  (Forall (fun piece => line (anchor piece) = line (cursor piece))
          (@pieces unit five_bytes tt (mkSel (mkCoord 3 2) (mkCoord 1 1) []))
   /\ map (fun piece => line (cursor piece))
          (@pieces unit five_bytes tt (mkSel (mkCoord 3 2) (mkCoord 1 1) []))
      = seqZ 1 (3 - 1 + 1)
   /\ (exists first rest,
          @pieces unit five_bytes tt (mkSel (mkCoord 3 2) (mkCoord 1 1) [])
          = first :: rest
          /\ sel_min first = mkCoord 1 1)
   /\ (exists front final,
          @pieces unit five_bytes tt (mkSel (mkCoord 3 2) (mkCoord 1 1) [])
          = front ++ [final]
          /\ sel_max final = mkCoord 3 2))
  /\ @pieces unit five_bytes tt (mkSel (mkCoord 3 2) (mkCoord 1 1) [])
     = [ mkSel (mkCoord 1 4) (mkCoord 1 1) [];
         mkSel (mkCoord 2 4) (mkCoord 2 0) [];
         mkSel (mkCoord 3 2) (mkCoord 3 0) [] ].
Proof.
  split; [| reflexivity].
  apply (@split_lines_one_per_line unit five_bytes tt
           (mkSel (mkCoord 3 2) (mkCoord 1 1) [])).
  - intros res ref. cbn [keep_direction five_bytes].
    destruct (Bool.eqb _ _); [left | right]; reflexivity.
  - reflexivity.
  - discriminate.
Defined.

End SplitLinesFacts.

(* ================================================================== *)
(** ** From one search to the next *)
(* ================================================================== *)

Module SearchPatternFacts.

Import Prompt SearchPattern.

#[local] Arguments String.append !_ _ / : simpl nomatch.

Section SearchPatternFacts.

Context {Buffer : Type} `{!Collaborators Buffer} `{!Words Buffer}.

Lemma pattern_not_empty (smart : bool) (buffer : Buffer)
  (sel : Selections.Selection) :
  Paste.empty (pattern smart buffer sel) = false.
Proof.
  unfold pattern.
  destruct smart; [| reflexivity].
  destruct (at_word_start buffer sel), (at_word_end buffer sel); reflexivity.
Qed.

(** What search_next does once the register gives [str]. *)
Lemma search_next_with (mode : Selections.SelectMode) (direction : Direction)
  (count : Z) (str : string) (c : Context Buffer) :
  main_sel_register_value slash c = str -> Paste.empty str = false ->
  search_next mode direction count c
  = try_catch
      (ex ← make_regex str;
       do_while (extra_rounds count) (next_match_step mode direction ex))
      rethrow_regex_error c.
Proof.
  intros Hreg Hstr. unfold search_next.
  rewrite PromptFacts.bind_get, Hreg, Hstr. reflexivity.
Qed.

(** X22 (use_selection_as_search_pattern, search_next): after the command,
    search_next never fails for want of a pattern.  It searches for the
    pattern built from the main selection, its text quoted between \Q and
    \E. *)
Theorem selection_pattern_is_searched_next (smart : bool)
  (mode : Selections.SelectMode) (direction : Direction) (count : Z)
  (c : Context Buffer)
  (Hmain : Selections.main_index (selections c)
           < Selections.size (selections c)) :
  let c1 := snd (use_selection_as_search_pattern smart c) in
  registers c1 !! slash
  = Some (map (pattern smart (buffer c))
              (Selections.selections (selections c)))
  /\ pattern false (buffer c) (Selections.main (selections c))
     = String.append "\Q"
         (String.append (text (buffer c) (Selections.main (selections c))) "\E")
  /\ search_next mode direction count c1
     = try_catch
         (ex ← make_regex
                 (pattern smart (buffer c) (Selections.main (selections c)));
          do_while (extra_rounds count) (next_match_step mode direction ex))
         rethrow_regex_error c1.
Proof.
  cbv zeta. unfold use_selection_as_search_pattern, modify. cbn [snd].
  split; [apply lookup_insert_eq |]. split; [reflexivity |].
  apply search_next_with; [| apply pattern_not_empty].
  unfold main_sel_register_value, with_register.
  cbn [registers selections]. rewrite lookup_insert_eq. cbn [default]. unfold id.
  unfold Selections.size in Hmain. rewrite length_map.
  apply Nat.leb_gt in Hmain. rewrite Hmain.
  unfold Selections.main.
  rewrite (nth_indep _ EmptyString
             (pattern smart (buffer c) Selections.default_selection)).
  - apply map_nth.
  - rewrite length_map. apply Nat.leb_gt, Hmain.
Qed.

(** X23 (search, select_regex, split_regex, then search_next): a pattern
    validated in one of the three prompts is the pattern search_next looks
    for afterwards, whether the operation found a match or threw. *)
Theorem validated_pattern_is_searched_next (op : RegisterOperation)
  (pattern : string) (mode : Selections.SelectMode) (direction : Direction)
  (count : Z) (c : Context Buffer) (Hpattern : Paste.empty pattern = false) :
  let c1 := snd (operation_func op (compiled pattern) Validate c) in
  search_next mode direction count c1
  = try_catch
      (ex ← make_regex pattern;
       do_while (extra_rounds count) (next_match_step mode direction ex))
      rethrow_regex_error c1.
Proof.
  cbv zeta. apply search_next_with; [| exact Hpattern].
  apply PipeFacts.single_value.
  destruct op; cbn [operation_func];
    unfold search_func, select_regex_func, split_regex_func, next_match_step,
      pattern_or_register, on_selections_result, on_selections, when, modify,
      get, mbind, M_bind, mret, M_ret;
    cbn [regex_empty is_validate];
    destruct (usable_pattern (compiled pattern)); cbn [snd registers];
    try apply lookup_insert_eq.
  - destruct (select_next_match _ _ _ _ _). apply lookup_insert_eq.
  - destruct (select_all_matches _ _ _); apply lookup_insert_eq.
  - destruct (split_selections _ _ _); apply lookup_insert_eq.
Qed.

End SearchPatternFacts.

Lemma selection_pattern_is_searched_next_witness :
  registers (snd (@use_selection_as_search_pattern Z demo_words true
                    demo_context)) !! slash
  = Some ["\b\Q0\E\b"%string; "\b\Q1\E\b"%string]
  /\ @search_next Z demo_world Selections.Replace Forward 0
       (snd (@use_selection_as_search_pattern Z demo_words true demo_context))
     = @try_catch Z unit
         (ex ← @make_regex Z demo_world "\b\Q0\E\b";
          @do_while Z (extra_rounds 0)
            (@next_match_step Z demo_world Selections.Replace Forward ex))
         (@rethrow_regex_error Z)
         (snd (@use_selection_as_search_pattern Z demo_words true demo_context)).
Proof.
  destruct (@selection_pattern_is_searched_next Z demo_world demo_words true
              Selections.Replace Forward 0 demo_context
              ltac:(cbn; lia))
    as (Hregister & _ & Hnext).
  split; [exact Hregister | exact Hnext].
Defined.

Lemma validated_pattern_is_searched_next_witness :
  @search_next Z demo_world Selections.Replace Forward 2
    (snd (@operation_func Z demo_world
            (search_op Selections.Replace Forward) (compiled "1") Validate
            demo_context))
  = @try_catch Z unit
      (ex ← @make_regex Z demo_world "1";
       @do_while Z (extra_rounds 2)
         (@next_match_step Z demo_world Selections.Replace Forward ex))
      (@rethrow_regex_error Z)
      (snd (@operation_func Z demo_world
              (search_op Selections.Replace Forward) (compiled "1") Validate
              demo_context)).
Proof.
  apply (@validated_pattern_is_searched_next Z demo_world
           (search_op Selections.Replace Forward) "1" Selections.Replace
           Forward 2 demo_context).
  reflexivity.
Defined.

End SearchPatternFacts.

(* ================================================================== *)
(** ** Letter case *)
(* ================================================================== *)

Module CaseFacts.

Import Case.

Local Open Scope Z_scope.

Ltac case_ranges c :=
  unfold swap_case, to_lower, to_upper, toupper, Macro.tolower;
  repeat match goal with
    | |- context [?a <=? ?b] => destruct (Z.leb_spec a b)
    | |- context [?a =? ?b] => destruct (Z.eqb_spec a b)
    end;
  cbn [andb] in *; try reflexivity; try lia.

Lemma swap_case_involutive (cp : Z) : swap_case (swap_case cp) = cp.
Proof. case_ranges cp. Qed.

Lemma to_lower_to_upper (cp : Z) : to_lower (to_upper cp) = to_lower cp.
Proof. case_ranges cp. Qed.

Lemma swap_case_byte (cp : Z) : 0 <= cp < 256 -> 0 <= swap_case cp < 256.
Proof. intros H. case_ranges cp. Qed.

Lemma to_upper_byte (cp : Z) : 0 <= cp < 256 -> 0 <= to_upper cp < 256.
Proof. intros H. case_ranges cp. Qed.

Lemma byte_range (c : ascii) : 0 <= Z.of_N (N_of_ascii c) < 256.
Proof. pose proof (N_ascii_bounded c). lia. Qed.

(** A function that keeps bytes bytes is applied to the code point of the
    byte it is given, twice in a row as once after the other. *)
Lemma on_byte_twice (f g : Z -> Z) (c : ascii) :
  (forall cp, 0 <= cp < 256 -> 0 <= g cp < 256) ->
  on_byte f (on_byte g c) = on_byte (fun cp => f (g cp)) c.
Proof.
  intros Hg. unfold on_byte.
  pose proof (Hg _ (byte_range c)) as Hrange.
  rewrite (Z.mod_small (g _)) by exact Hrange.
  rewrite N_ascii_embedding by lia.
  rewrite Z2N.id by lia. reflexivity.
Qed.

Lemma on_byte_id (f : Z -> Z) (c : ascii) :
  (forall cp, f cp = cp) -> on_byte f c = c.
Proof.
  intros Hf. unfold on_byte. rewrite Hf.
  rewrite Z.mod_small by apply byte_range.
  rewrite N2Z.id. apply ascii_N_embedding.
Qed.

(** X24 (for_each_char, swap_case, to_lower, to_upper): swapping the case
    of the selections twice gives back their text, byte for byte; and
    lowering what was raised is lowering. *)
Theorem swap_case_twice (sels : list string) :
  map (on_bytes swap_case) (map (on_bytes swap_case) sels) = sels
  /\ map (on_bytes to_lower) (map (on_bytes to_upper) sels)
     = map (on_bytes to_lower) sels.
Proof.
  split.
  - rewrite map_map. rewrite <- (map_id sels) at 2. apply map_ext.
    intros sel. induction sel as [| c rest IH]; [reflexivity |].
    cbn [on_bytes]. rewrite IH. f_equal.
    rewrite on_byte_twice by apply swap_case_byte.
    apply on_byte_id, swap_case_involutive.
  - rewrite map_map. apply map_ext.
    intros sel. induction sel as [| c rest IH]; [reflexivity |].
    cbn [on_bytes]. rewrite IH. f_equal.
    rewrite on_byte_twice by apply to_upper_byte.
    unfold on_byte. rewrite to_lower_to_upper. reflexivity.
Qed.

End CaseFacts.

(* ================================================================== *)
(** ** The names of macros *)
(* ================================================================== *)

Module MacroNameFacts.

Import Macro.

Local Open Scope Z_scope.

Lemma tolower_letter (a : Z) :
  is_basic_alpha a = true ->
  97 <= tolower a <= 122 /\ tolower (tolower a) = tolower a
  /\ is_basic_alpha (tolower a) = true.
Proof.
  unfold is_basic_alpha, tolower. intros H.
  destruct (Z.leb_spec 65 a), (Z.leb_spec a 90), (Z.leb_spec 97 a),
    (Z.leb_spec a 122); cbn [andb orb] in *; try discriminate;
    repeat match goal with
      | |- context [?x <=? ?y] => destruct (Z.leb_spec x y)
      end; cbn [andb orb]; repeat split; lia.
Qed.

(** X25 (replay_macro): a macro has one name, whatever the case of the
    letter typed.  The upper-case letter replays what the lower-case letter
    replays; the flag of the recursion guard lies within the 26 of the
    array, and two letters share a flag only when they name the same
    macro. *)
Theorem replay_ignores_case {World : Type} `{!Commands World}
  (exec_keys : list Key -> State World -> Result) (count : Z) (a b : Z)
  (st : State World)
  (Ha : is_basic_alpha a = true) (Hb : is_basic_alpha b = true) :
  replay_next_key exec_keys count (named a) st
  = replay_next_key exec_keys count (named (tolower a)) st
  /\ (macro_index (named a) < 26)%nat
  /\ (macro_index (named a) = macro_index (named b) -> tolower a = tolower b).
Proof.
  destruct (tolower_letter a Ha) as (Hrange & Htwice & Hlower).
  destruct (tolower_letter b Hb) as (Hrange' & _ & _).
  split; [| split].
  - unfold replay_next_key, macro_index, named. cbn [key modifiers no_modifiers].
    rewrite Ha, Hlower, Htwice. reflexivity.
  - unfold macro_index, named. cbn [key]. lia.
  - unfold macro_index, named. cbn [key]. lia.
Qed.

Lemma replay_ignores_case_witness :
  @replay_next_key (list (Z * string)) demo_commands
    (@exec_keys (list (Z * string)) demo_commands 3) 1 (named 65) demo_state
  = @replay_next_key (list (Z * string)) demo_commands
      (@exec_keys (list (Z * string)) demo_commands 3) 1 (named (tolower 65))
      demo_state
  /\ (macro_index (named 65) < 26)%nat
  /\ (macro_index (named 65) = macro_index (named 97) -> tolower 65 = tolower 97).
Proof.
  apply (@replay_ignores_case (list (Z * string)) demo_commands
           (@exec_keys (list (Z * string)) demo_commands 3) 1 65 97 demo_state);
    reflexivity.
Defined.

End MacroNameFacts.

(* ================================================================== *)
(** ** align *)
(* ================================================================== *)

Module AlignFacts.

Import Selections Align.

Local Open Scope Z_scope.

#[local] Arguments String.append !_ _ / : simpl nomatch.

(** *** The padding *)

Lemma width_of_spaces (tabstop : Z) (rest : string) (n : nat) :
  forall width,
    Indent.blank_width tabstop
      (String.append (Nat.iter n (String Indent.space) EmptyString) rest) width
    = Indent.blank_width tabstop rest (width + Z.of_nat n).
Proof.
  induction n as [| n IH]; intros width.
  - cbn [Nat.iter String.append]. f_equal. lia.
  - change (Nat.iter (S n) (String Indent.space) EmptyString)
      with (String Indent.space (Nat.iter n (String Indent.space) EmptyString)).
    cbn [String.append Indent.blank_width].
    change (Ascii.eqb Indent.space Indent.tab) with false. cbv iota.
    rewrite IH. f_equal. lia.
Qed.

Lemma width_of_tabs (tabstop : Z) (rest : string) (Htabstop : 0 < tabstop)
  (n : nat) :
  forall width, 0 <= width ->
    Indent.blank_width tabstop
      (String.append (Nat.iter n (String Indent.tab) EmptyString) rest) width
    = Indent.blank_width tabstop rest
        (match n with
         | O => width
         | S _ => (width / tabstop + Z.of_nat n) * tabstop
         end).
Proof.
  induction n as [| n IH]; intros width Hwidth; [reflexivity |].
  change (Nat.iter (S n) (String Indent.tab) EmptyString)
    with (String Indent.tab (Nat.iter n (String Indent.tab) EmptyString)).
  cbn [String.append Indent.blank_width].
  change (Ascii.eqb Indent.tab Indent.tab) with true. cbv iota.
  rewrite Z.quot_div_nonneg by lia.
  assert (Hdiv : 0 <= width / tabstop) by (apply Z.div_pos; lia).
  rewrite IH by nia. destruct n as [| n]; [f_equal; lia |].
  f_equal. rewrite Z.div_mul by lia. lia.
Qed.

Lemma all_blank_append (a b : string) :
  Indent.all_blank (String.append a b)
  = Indent.all_blank a && Indent.all_blank b.
Proof.
  induction a as [| c a IH]; [reflexivity |].
  cbn [String.append Indent.all_blank]. rewrite IH, andb_assoc. reflexivity.
Qed.

Lemma all_blank_make (c : ascii) (count : Z) :
  Indent.is_blank c = true ->
  Indent.all_blank (Indent.make_string c count) = true.
Proof.
  intros Hc. unfold Indent.make_string.
  induction (Z.to_nat count) as [| n IH]; [reflexivity |].
  change (Nat.iter (S n) (String c) EmptyString)
    with (String c (Nat.iter n (String c) EmptyString)).
  cbn [Indent.all_blank]. rewrite Hc, IH. reflexivity.
Qed.

(** X27 (align): the padding inserted in front of a selection is made of
    tabs and spaces only, and, displayed from the column [inscol] where the
    selection starts, it ends at column [inscol + (maxcol - lastcol)]: the
    start of the selection moves right by the distance from the column of
    its cursor to the largest cursor column of its group, with tabs as
    without. *)
Theorem align_padding_reaches_target (use_tabs : bool)
  (tabstop maxcol lastcol inscol : Z)
  (Htabstop : 0 < tabstop) (Hinscol : 0 <= inscol <= lastcol)
  (Hmaxcol : lastcol <= maxcol) :
  Indent.blank_width tabstop (padding use_tabs tabstop maxcol lastcol inscol)
    inscol
  = inscol + (maxcol - lastcol)
  /\ Indent.all_blank (padding use_tabs tabstop maxcol lastcol inscol) = true.
Proof.
  split.
  - unfold padding. destruct use_tabs; cbn [negb].
    + rewrite Z.rem_mod_nonneg by lia.
      set (targetcol := maxcol - (lastcol - inscol)).
      set (tabcol := inscol - inscol mod tabstop).
      pose proof (Z.div_mod inscol tabstop ltac:(lia)) as Hins.
      pose proof (Z.mod_pos_bound inscol tabstop Htabstop) as Hmod.
      assert (Htabcol : tabcol = tabstop * (inscol / tabstop))
        by (unfold tabcol; lia).
      assert (Hnonneg : 0 <= targetcol - tabcol)
        by (unfold targetcol, tabcol; lia).
      rewrite Z.quot_div_nonneg by lia.
      pose proof (Z.div_mod (targetcol - tabcol) tabstop ltac:(lia)) as Htarget.
      pose proof (Z.mod_pos_bound (targetcol - tabcol) tabstop Htabstop) as Hmod'.
      assert (Htabs : 0 <= (targetcol - tabcol) / tabstop)
        by (apply Z.div_pos; lia).
      unfold Indent.make_string.
      rewrite width_of_tabs by lia.
      destruct (Z.eqb_spec ((targetcol - tabcol) / tabstop) 0) as [Hzero | Hsome];
        cbn [negb].
      * rewrite Hzero. cbn [Z.to_nat].
        rewrite <- (StringFacts.append_nil_r (Nat.iter _ _ _)).
        rewrite width_of_spaces. cbn [Indent.blank_width].
        change (Z.to_nat 0) with O. cbv iota.
        unfold targetcol in *. lia.
      * destruct (Z.to_nat ((targetcol - tabcol) / tabstop)) as [| n] eqn:En;
          [lia |].
        rewrite <- (StringFacts.append_nil_r (Nat.iter _ (String Indent.space) _)).
        rewrite width_of_spaces. cbn [Indent.blank_width].
        rewrite <- En, Z2Nat.id by lia.
        unfold targetcol in *. nia.
    + unfold Indent.make_string.
      rewrite <- (StringFacts.append_nil_r (Nat.iter _ _ _)).
      rewrite width_of_spaces. cbn [Indent.blank_width]. lia.
  - unfold padding. destruct use_tabs; cbn [negb].
    + rewrite all_blank_append, !all_blank_make; reflexivity.
    + apply all_blank_make. reflexivity.
Qed.

Lemma align_padding_reaches_target_witness :
  (Indent.blank_width 8 (padding true 8 21 6 3) 3 = 3 + (21 - 6)
   /\ Indent.all_blank (padding true 8 21 6 3) = true)
  /\ padding true 8 21 6 3
     = String Indent.tab (String Indent.tab (String " " (String " " EmptyString))).
Proof.
  split; [| reflexivity].
  apply (align_padding_reaches_target true 8 21 6 3);
    [reflexivity | split; discriminate | discriminate].
Defined.

(** *** The columns *)

Lemma concat_alter_push (x : nat) (columns : list (list nat)) :
  forall column : nat,
    (column < length columns)%nat ->
    concat (alter (fun col => col ++ [x]) column columns)
    ≡ₚ concat columns ++ [x].
Proof.
  induction columns as [| col columns IH]; intros column Hcolumn;
    [simpl in Hcolumn; lia |].
  destruct column as [| column]; cbn [alter list_alter concat].
  - rewrite <- !app_assoc. apply Permutation_app_head, Permutation_app_comm.
  - rewrite IH by (cbn [length] in Hcolumn; lia). rewrite app_assoc. reflexivity.
Qed.

Lemma concat_replicate_nil (n : nat) : concat (replicate n ([] : list nat)) = [].
Proof. induction n as [| n IH]; [reflexivity | exact IH]. Qed.

Lemma push_in_column_concat (column x : nat) (columns : list (list nat)) :
  concat (push_in_column column x columns) ≡ₚ concat columns ++ [x].
Proof.
  unfold push_in_column.
  destruct (Nat.leb_spec (length columns) column) as [Hshort | Hlong].
  - rewrite concat_alter_push
      by (rewrite length_app, length_replicate; lia).
    rewrite concat_app, concat_replicate_nil, app_nil_r. reflexivity.
  - apply concat_alter_push, Hlong.
Qed.

Lemma push_in_column_lookup (column x : nat) (columns : list (list nat))
  (j : nat) (col : list nat) :
  push_in_column column x columns !! j = Some col ->
  (j = column
   /\ exists old, col = old ++ [x]
                  /\ (columns !! column = Some old \/ old = []))
  \/ (j <> column /\ (columns !! j = Some col \/ col = [])).
Proof.
  unfold push_in_column. intros Hcol.
  set (columns' := if (length columns <=? column)%nat
                   then columns ++ replicate (column + 1 - length columns)%nat []
                   else columns) in *.
  assert (Hfrom : forall i old, columns' !! i = Some old ->
                                columns !! i = Some old \/ old = []).
  { intros i old Hold. unfold columns' in Hold.
    destruct (length columns <=? column)%nat; [| left; exact Hold].
    apply lookup_app_Some in Hold as [Hold | [_ Hold]]; [left; exact Hold |].
    apply lookup_replicate in Hold as [-> _]. right. reflexivity. }
  destruct (decide (j = column)) as [-> | Hne].
  - left. split; [reflexivity |].
    rewrite list_lookup_alter, decide_True in Hcol by reflexivity.
    destruct (columns' !! column) as [old |] eqn:Hold;
      simpl in Hcol; [| discriminate].
    injection Hcol as <-. exists old. split; [reflexivity |].
    apply Hfrom, Hold.
  - right. split; [exact Hne |].
    rewrite list_lookup_alter_ne in Hcol by congruence.
    apply Hfrom, Hcol.
Qed.

Lemma sorted_snoc (l : list Z) (x : Z) :
  StronglySorted Z.lt l -> Forall (fun y => y < x) l ->
  StronglySorted Z.lt (l ++ [x]).
Proof.
  intros Hl Hx. induction Hl as [| a l Hl IH Ha]; [repeat constructor |].
  apply Forall_cons in Hx as [Hax Hx].
  cbn [app]. constructor; [apply IH, Hx |].
  apply List.Forall_app. split; [exact Ha | repeat constructor; exact Hax].
Qed.

Lemma line_of_middle (done rest : list Selection) (sel : Selection) :
  line_of (done ++ sel :: rest) (length done) = line (cursor sel).
Proof. unfold line_of. rewrite nth_middle. reflexivity. Qed.

Lemma group_columns_sorted (sels : list Selection) (rest : list Selection) :
  forall (done : list Selection) (last_line : Z) (column : nat)
         (columns : list (list nat)),
    sels = done ++ rest ->
    Forall (fun s => line (anchor s) = line (cursor s)) rest ->
    StronglySorted (fun a b => line (cursor a) <= line (cursor b)) rest ->
    Forall (fun s => last_line <= line (cursor s)) rest ->
    concat columns ≡ₚ seq 0 (length done) ->
    (forall j col, columns !! j = Some col ->
       StronglySorted Z.lt (map (line_of sels) col)
       /\ Forall (fun i => line_of sels i <= last_line
                           /\ ((column < j)%nat -> line_of sels i < last_line))
                 col) ->
    exists columns',
      group_columns rest (length done) last_line column columns
      = Return columns'
      /\ concat columns' ≡ₚ seq 0 (length sels)
      /\ forall j col, columns' !! j = Some col ->
           StronglySorted Z.lt (map (line_of sels) col).
Proof.
  induction rest as [| sel rest IH];
    intros done last_line column columns Hsels Hsingle Hsorted Hlast Hperm Hcols.
  - exists columns. split; [reflexivity |]. split.
    + rewrite Hsels, app_nil_r. exact Hperm.
    + intros j col Hcol. apply (Hcols j col Hcol).
  - cbn [group_columns].
    apply Forall_cons in Hsingle as [Hone Hsingle].
    apply StronglySorted_inv in Hsorted as [Hsorted Hnext].
    apply Forall_cons in Hlast as [Hline Hlast].
    apply Z.eqb_eq in Hone. rewrite Hone. cbn [negb].
    set (l := line (cursor sel)) in *.
    set (column' := if l =? last_line then S column else O).
    assert (Hdone : length (done ++ [sel]) = S (length done))
      by (rewrite length_app; cbn [length]; lia).
    rewrite <- Hdone.
    assert (Hhere : line_of sels (length done) = l)
      by (rewrite Hsels; apply line_of_middle).
    apply IH.
    + rewrite <- app_assoc. exact Hsels.
    + exact Hsingle.
    + exact Hsorted.
    + apply Forall_forall. intros s Hs.
      rewrite List.Forall_forall in Hnext. apply Hnext, list_elem_of_In, Hs.
    + rewrite push_in_column_concat, Hperm, Hdone, seq_S. reflexivity.
    + intros j col Hcol.
      apply push_in_column_lookup in Hcol
        as [(-> & old & -> & Hold) | (Hne & Hold)].
      * assert (Hbefore : StronglySorted Z.lt (map (line_of sels) old)
                          /\ Forall (fun i => line_of sels i < l) old).
        { destruct Hold as [Hold | ->]; [| split; constructor].
          destruct (Hcols _ _ Hold) as [Hs Hb]. split; [exact Hs |].
          eapply List.Forall_impl; [| exact Hb]. cbn beta.
          intros i [Hle Hlt]. unfold column' in *.
          destruct (Z.eqb_spec l last_line) as [Heq | Hneq].
          - rewrite Heq. apply Hlt. lia.
          - lia. }
        destruct Hbefore as [Hs Hb]. split.
        -- rewrite map_app. cbn [map]. rewrite Hhere.
           apply sorted_snoc; [exact Hs |].
           apply Forall_map. apply Forall_forall. intros i Hi.
           rewrite List.Forall_forall in Hb. apply Hb, list_elem_of_In, Hi.
        -- apply List.Forall_app. split.
           ++ eapply List.Forall_impl; [| exact Hb]. cbn beta.
              intros i Hi. split; [lia | intros Hj; lia].
           ++ repeat constructor; [lia | intros Hj; lia].
      * destruct Hold as [Hold | ->]; [| split; constructor].
        destruct (Hcols _ _ Hold) as [Hs Hb]. split; [exact Hs |].
        eapply List.Forall_impl; [| exact Hb]. cbn beta.
        intros i [Hle Hlt]. split; [lia |]. intros Hj. unfold column' in *.
        destruct (Z.eqb_spec l last_line) as [Heq | Hneq].
        -- rewrite Heq. apply Hlt. lia.
        -- lia.
Qed.

(** X26 (align): for single-line selections in ascending order, the first
    loop puts every selection in exactly one column, and no column holds two
    selections of the same line: within a column the lines strictly
    increase, so that one padding never moves another selection of the
    column. *)
Theorem align_one_selection_per_line (sels : list Selection)
  (Hsingle : Forall (fun s => line (anchor s) = line (cursor s)) sels)
  (Hascending : ascending_by_min sels)
  (Hlines : Forall (fun s => 0 <= line (cursor s)) sels) :
  exists columns,
    group_columns sels 0 (-1) 0 [] = Return columns
    /\ concat columns ≡ₚ seq 0 (length sels)
    /\ Forall (fun col => StronglySorted Z.lt (map (line_of sels) col)) columns.
Proof.
  assert (Hsorted : StronglySorted
                      (fun a b => line (cursor a) <= line (cursor b)) sels).
  { unfold ascending_by_min in Hascending.
    induction Hascending as [| a l Hl IH Ha]; [constructor |].
    apply Forall_cons in Hsingle as [Hone Hsingle].
    apply Forall_cons in Hlines as [_ Hlines].
    constructor; [apply IH; assumption |].
    rewrite List.Forall_forall in *. intros b Hb.
    pose proof (Ha b Hb) as Hmin.
    pose proof (Hsingle b Hb) as Hb1. cbn beta in Hb1.
    unfold coord_le, coord_lt, sel_min in Hmin.
    destruct (coord_ltb (anchor a) (cursor a)),
      (coord_ltb (anchor b) (cursor b)); lia. }
  destruct (group_columns_sorted sels sels [] (-1) 0%nat [] eq_refl Hsingle
              Hsorted) as (columns & Hgroup & Hperm & Hcols).
  - eapply List.Forall_impl; [| exact Hlines]. cbn beta. intros s Hs. lia.
  - reflexivity.
  - intros j col Hcol. inversion Hcol.
  - exists columns. split; [exact Hgroup |]. split; [exact Hperm |].
    apply Forall_forall. intros col Hcol.
    apply list_elem_of_lookup in Hcol as [j Hcol]. apply (Hcols j col Hcol).
Qed.

Lemma group_columns_refuses (sels : list Selection) :
  Exists (fun s => line (anchor s) <> line (cursor s)) sels ->
  forall index last_line column columns,
    group_columns sels index last_line column columns = Throw multi_line.
Proof.
  induction sels as [| sel rest IH]; intros Hmulti index last_line column columns.
  - inversion Hmulti.
  - cbn [group_columns].
    destruct (Z.eqb_spec (line (anchor sel)) (line (cursor sel))) as [Hone | Hne];
      [| reflexivity].
    cbn [negb]. apply IH.
    apply Exists_cons in Hmulti as [Hmulti | Hmulti]; [contradiction | exact Hmulti].
Qed.

(** X28 (align): one selection that spans several lines is enough for align
    to throw "align cannot work with multi line selections", before anything
    is inserted: the buffer and the selections are as they were. *)
Theorem align_refuses_multi_line {Buffer : Type} `{!Columns Buffer}
  (use_tabs : bool) (tabstop : Z) (buffer : Buffer) (sels : SelectionList)
  (Hmulti : Exists (fun s => line (anchor s) <> line (cursor s))
                   (selections sels)) :
  align use_tabs tabstop buffer sels = (Throw multi_line, (buffer, sels)).
Proof.
  unfold align. rewrite group_columns_refuses by exact Hmulti. reflexivity.
Qed.

Lemma align_one_selection_per_line_witness :
  (exists columns,
     group_columns three_selections 0 (-1) 0 [] = Return columns
     /\ concat columns ≡ₚ seq 0 (length three_selections)
     /\ Forall (fun col =>
                  StronglySorted Z.lt (map (line_of three_selections) col))
               columns)
  /\ group_columns three_selections 0 (-1) 0 [] = Return [[0; 2]; [1]]%nat.
Proof.
  split; [| reflexivity].
  apply (align_one_selection_per_line three_selections).
  - repeat constructor.
  - apply (SelectionFacts.sorted_by_minb_sound three_selections). reflexivity.
  - repeat constructor; discriminate.
Defined.

Lemma align_refuses_multi_line_witness :
  @align Z demo_columns false 8 0
    (mkList [mkSel (mkCoord 0 0) (mkCoord 0 1) [];
             mkSel (mkCoord 1 0) (mkCoord 2 3) []] 0)
  = (Throw multi_line,
     (0, mkList [mkSel (mkCoord 0 0) (mkCoord 0 1) [];
                 mkSel (mkCoord 1 0) (mkCoord 2 3) []] 0)).
Proof.
  apply (@align_refuses_multi_line Z demo_columns).
  apply Exists_cons_tl, Exists_cons_hd. discriminate.
Defined.

End AlignFacts.

(* ================================================================== *)
(** ** deindent after indent *)
(* ================================================================== *)

Module IndentRoundTripFacts.

Import Indent.

Local Open Scope Z_scope.

#[local] Arguments String.append !_ _ / : simpl nomatch.

Lemma deindent_scan_spaces (tabstop indent_width : Z) (incomplete : bool)
  (line : string) (n : nat) :
  forall column width,
    width + Z.of_nat (S n) = indent_width ->
    deindent_scan tabstop indent_width incomplete
      (String.append (Nat.iter (S n) (String space) EmptyString) line)
      column width
    = Some (column + Z.of_nat n).
Proof.
  induction n as [| n IH]; intros column width Hwidth.
  - change (Nat.iter 1 (String space) EmptyString)
      with (String space EmptyString).
    cbn [String.append deindent_scan].
    change (Ascii.eqb space tab) with false.
    change (Ascii.eqb space space) with true. cbv iota.
    destruct (Z.eqb_spec (width + 1) indent_width); [f_equal; lia | lia].
  - change (Nat.iter (S (S n)) (String space) EmptyString)
      with (String space (Nat.iter (S n) (String space) EmptyString)).
    cbn [String.append deindent_scan].
    change (Ascii.eqb space tab) with false.
    change (Ascii.eqb space space) with true. cbv iota.
    destruct (Z.eqb_spec (width + 1) indent_width); [lia |].
    rewrite IH by lia. f_equal. lia.
Qed.

Lemma length_make_string (c : ascii) (count : Z) :
  String.length (make_string c count) = Z.to_nat count.
Proof.
  unfold make_string. induction (Z.to_nat count) as [| n IH]; [reflexivity |].
  change (Nat.iter (S n) (String c) EmptyString)
    with (String c (Nat.iter n (String c) EmptyString)).
  cbn [String.length]. rewrite IH. reflexivity.
Qed.

(** X29 (indent, deindent): deindent takes back what indent put.  On a line
    that indent has just indented, with the same indentwidth option and a
    positive tabstop, the range deindent erases starts at column 0 and is
    as long as the indentation inserted: what is left is the line as it was
    before. *)
Theorem deindent_undoes_indent (tabstop indent_width : Z)
  (deindent_incomplete : bool) (line : string)
  (Htabstop : 0 < tabstop) (Hwidth : 0 <= indent_width) :
  exists column,
    deindent_scan tabstop
      (if indent_width =? 0 then tabstop else indent_width)
      deindent_incomplete
      (String.append (indent_string indent_width) line) 0 0
    = Some column
    /\ Z.to_nat (column + 1) = String.length (indent_string indent_width)
    /\ substring (Z.to_nat (column + 1)) (String.length line)
         (String.append (indent_string indent_width) line)
       = line.
Proof.
  assert (Hrest : forall indent : string,
             substring (String.length indent) (String.length line)
               (String.append indent line) = line).
  { intros indent.
    rewrite <- (StringFacts.append_nil_r line) at 2.
    apply StringFacts.substring_middle. }
  unfold indent_string.
  destruct (Z.eqb_spec indent_width 0) as [-> | Hsome].
  - exists 0. cbn [String.append deindent_scan].
    change (Ascii.eqb tab tab) with true. cbv iota.
    rewrite Z.quot_0_l by lia. rewrite Z.mul_1_l, Z.eqb_refl.
    split; [reflexivity |]. split; [reflexivity |].
    exact (Hrest (String tab EmptyString)).
  - exists (indent_width - 1).
    rewrite length_make_string.
    replace (Z.to_nat (indent_width - 1 + 1)) with (Z.to_nat indent_width) by lia.
    split; [| split; [reflexivity |]].
    + unfold make_string.
      destruct (Z.to_nat indent_width) as [| n] eqn:En; [lia |].
      rewrite deindent_scan_spaces by lia. f_equal. lia.
    + rewrite <- (length_make_string space indent_width). apply Hrest.
Qed.

Lemma deindent_undoes_indent_witness :
  (exists column,
     deindent_scan 8 (if 4 =? 0 then 8 else 4) false
       (String.append (indent_string 4) "text") 0 0 = Some column
     /\ Z.to_nat (column + 1) = String.length (indent_string 4)
     /\ substring (Z.to_nat (column + 1)) (String.length "text")
          (String.append (indent_string 4) "text") = "text"%string)
  /\ String.append (indent_string 4) "text" = "    text"%string.
Proof.
  split; [| reflexivity].
  apply (deindent_undoes_indent 8 4 false "text"); [reflexivity | discriminate].
Defined.

End IndentRoundTripFacts.

(* ================================================================== *)
(** ** Repeated commands *)
(* ================================================================== *)

Module RepeatFacts.

Import Prompt Repeat.

(** X30 (Repeated): a repeated command runs max(1, count) times in a row,
    once when no count was typed; every run is given the count 0 and the
    register of the repeated command, and a run that throws ends the
    repetition with its exception. *)
Theorem repeated_runs_count_times {Buffer : Type}
  (func : Z -> ascii -> M Buffer unit) (count : Z) (reg : ascii)
  (c : Context Buffer) :
  repeated func count reg c
  = times (Z.to_nat (Z.max 1 count)) (func 0%Z reg) c
  /\ forall e c',
       func 0%Z reg c = (Throw e, c') ->
       repeated func count reg c = (Throw e, c').
Proof.
  unfold repeated. rewrite PromptFacts.do_while_times.
  rewrite PromptFacts.rounds_of_count. split; [reflexivity |].
  intros e c' Hthrow.
  destruct (Z.to_nat (Z.max 1 count)) as [| n] eqn:En; [lia |].
  change (times (S n) (func 0%Z reg) c)
    with ((func 0%Z reg ;; times n (func 0%Z reg)) c).
  unfold mbind, M_bind. rewrite Hthrow. reflexivity.
Qed.

(** Three runs with a count of 3, and one without a count: each run sees
    the count 0. *)
Example repeated_save :
  length (jumps (snd (repeated demo_save 3 "p" demo_context))) = 3
  /\ length (jumps (snd (repeated demo_save 0 "p" demo_context))) = 1.
Proof. split; reflexivity. Qed.

End RepeatFacts.
